(** * YUYV packed to YUV420 planar conversion

    A shallow embedding of [internal/color/yuyv_to_yuv420p.c] and the
    verification of its row unpackers and frame converter.

    The C code works on raw [uint8_t *] pointers.  The embedding keeps them:
    a pointer is a block identifier with a byte offset, the memory is a
    finite map from such locations to bytes, and every access through a
    location that is not mapped is an error of the embedding (it is undefined
    behaviour in C).  Buffers may share an object or not: what the theorems
    ask is that their byte ranges do not overlap.  Pointer arithmetic itself
    is not checked, only the accesses are.

    [int] values are integers; an addition that leaves the range of [int] is
    an error, as signed overflow is undefined in C.  Bytes are integers too:
    the code copies them and computes nothing from them.

    The two builds of the file, selected by [#if defined(__ARM_NEON)], are
    both embedded and selected by a [target] argument.  The NEON intrinsics
    come from [arm_neon.h], not from this file; they are embedded by the lane
    semantics ARM documents for them, on a little-endian target. *)

From stdpp Require Import gmap list fin_maps.
From Stdlib Require Import ZArith Lia.

Local Open Scope Z_scope.

(** ** Results of the embedding *)

(** What C leaves undefined is an error here.  [OutOfFuel] belongs to the
    embedding of the [for] loops only; [convert_fuel] below shows that the
    fuel the functions supply is never exhausted. *)
Inductive error : Type :=
  | OutOfBounds
  | SignedOverflow
  | OutOfFuel.

Inductive result (A : Type) : Type :=
  | Ok (a : A)
  | Err (e : error).

Arguments Ok {A} a.
Arguments Err {A} e.

(** Sequencing: an error ends the run.  With the instance, [x ← r; k] is
    stdpp's notation for it. *)
Definition bind {A B : Type} (k : A → result B) (r : result A) : result B :=
  match r with
  | Ok a => k a
  | Err e => Err e
  end.

#[global] Instance result_bind : MBind result := @bind.

(** ** Memory *)

Definition block : Type := positive.

(** [uint8_t *]: a block and a byte offset into it. *)
Abbreviation ptr := (block * Z)%type.

(** Bytes ([uint8_t]) are carried as integers; the code only copies them. *)
Abbreviation mem := (gmap ptr Z).

(** Pointer arithmetic [p + n]. *)
Definition shift (p : ptr) (n : Z) : ptr := (p.1, p.2 + n).

Notation "p +ₚ n" := (shift p n) (at level 50, left associativity).

(** [*p] as an rvalue. *)
Definition load (m : mem) (p : ptr) : result Z :=
  match m !! p with
  | Some b => Ok b
  | None => Err OutOfBounds
  end.

(** [*p = b]. *)
Definition store (m : mem) (p : ptr) (b : Z) : result mem :=
  match m !! p with
  | Some _ => Ok (<[p := b]> m)
  | None => Err OutOfBounds
  end.

(** A buffer of the bytes [l] laid out from [p] on. *)
Fixpoint heap_bytes (p : ptr) (l : list Z) : mem :=
  match l with
  | [] => ∅
  | b :: l' => <[p := b]> (heap_bytes (p +ₚ 1) l')
  end.

(** ** Integers *)

Definition INT_MAX : Z := 2147483647.
Definition INT_MIN : Z := -2147483648.

(** [a + b] on [int]: overflow is undefined in C. *)
Definition int_add (a b : Z) : result Z :=
  if (INT_MIN <=? a + b) && (a + b <=? INT_MAX) then Ok (a + b)
  else Err SignedOverflow.

(** ** Loops *)

(** [for (int i = i0; i < bound; i += step) body], for a body that does not
    use [i]: none of the three loops of the file does.  The recursion is on
    [fuel]; a loop from 0 is given [Z.to_nat bound], which it cannot use up
    as [i] grows by [step >= 1] each time round ([for_loop_fuel]). *)
Fixpoint for_loop {S : Type} (fuel : nat) (i bound step : Z)
    (body : S → result S) (s : S) : result S :=
  if i <? bound then
    match fuel with
    | O => Err OutOfFuel
    | Datatypes.S fuel' =>
        s' ← body s;
        i' ← int_add i step;
        for_loop fuel' i' bound step body s'
    end
  else Ok s.

(** [n] runs of a loop body. *)
Fixpoint repeatM {S : Type} (n : nat) (body : S → result S) (s : S)
    : result S :=
  match n with
  | O => Ok s
  | Datatypes.S n' => s' ← body s; repeatM n' body s'
  end.

(** ** NEON intrinsics *)

(** A vector register is the list of its lanes, lane 0 first. *)
Abbreviation vec := (list Z).

Fixpoint load_bytes (m : mem) (p : ptr) (n : nat) : result (list Z) :=
  match n with
  | O => Ok []
  | Datatypes.S n' =>
      b ← load m p;
      l ← load_bytes m (p +ₚ 1) n';
      Ok (b :: l)
  end.

Fixpoint store_bytes (m : mem) (p : ptr) (l : list Z) : result mem :=
  match l with
  | [] => Ok m
  | b :: l' => m' ← store m p b; store_bytes m' (p +ₚ 1) l'
  end.

(** The 2-way de-interleave of VLD2: element [2i] goes to lane [i] of the
    first register, element [2i+1] to lane [i] of the second. *)
Fixpoint deinterleave (l : list Z) : vec * vec :=
  match l with
  | a :: b :: l' => let '(e, o) := deinterleave l' in (a :: e, b :: o)
  | _ => ([], [])
  end.

(** [vld2q_u8(p)]: 32 bytes into two registers of 16 lanes. *)
Definition vld2q_u8 (m : mem) (p : ptr) : result (vec * vec) :=
  l ← load_bytes m p 32; Ok (deinterleave l).

(** [vst1q_u8(p, v)]: the 16 lanes of [v] to [p]. *)
Definition vst1q_u8 (m : mem) (p : ptr) (v : vec) : result mem :=
  store_bytes m p v.

(** [vld2_u8] applied to the address of a local 16-lane register [r] (line
    35): the bytes of [r] are its lanes in order, and they are split into two
    registers of 8 lanes. *)
Definition vld2_u8_local (r : vec) : vec * vec := deinterleave r.

(** [vst1_u8(p, v)]: the 8 lanes of [v] to [p]. *)
Definition vst1_u8 (m : mem) (p : ptr) (v : vec) : result mem :=
  store_bytes m p v.

(** ** The row unpackers *)

(** The build: [__ARM_NEON] defined or not. *)
Inductive target : Type :=
  | Portable
  | ArmNeon.

(** The locals [y], [u], [v], [yuyv] of [unpack_even] and the memory. *)
Abbreviation even_state := (ptr * ptr * ptr * ptr * mem)%type.

(** Lines 47-50. *)
Definition unpack_even_body (s : even_state) : result even_state :=
  let '(y, u, v, yuyv, m) := s in
  b ← load m yuyv; m ← store m y b;
  let (y, yuyv) := (y +ₚ 1, yuyv +ₚ 1) in
  b ← load m yuyv; m ← store m u b;
  let (u, yuyv) := (u +ₚ 1, yuyv +ₚ 1) in
  b ← load m yuyv; m ← store m y b;
  let (y, yuyv) := (y +ₚ 1, yuyv +ₚ 1) in
  b ← load m yuyv; m ← store m v b;
  let (v, yuyv) := (v +ₚ 1, yuyv +ₚ 1) in
  Ok (y, u, v, yuyv, m).

(** Lines 31-43. *)
Definition unpack_even_body_neon (s : even_state) : result even_state :=
  let '(y, u, v, yuyv, m) := s in
  y_uv ← vld2q_u8 m yuyv;
  m ← vst1q_u8 m y y_uv.1;
  let u_v := vld2_u8_local y_uv.2 in
  m ← vst1_u8 m u u_v.1;
  m ← vst1_u8 m v u_v.2;
  Ok (y +ₚ 16, u +ₚ 8, v +ₚ 8, yuyv +ₚ 32, m).

Definition unpack_even (t : target) (y u v yuyv : ptr) (stride : Z)
    (m : mem) : result mem :=
  s ← match t with
      | ArmNeon =>
          for_loop (Z.to_nat stride) 0 stride 32 unpack_even_body_neon
            (y, u, v, yuyv, m)
      | Portable =>
          for_loop (Z.to_nat stride) 0 stride 4 unpack_even_body
            (y, u, v, yuyv, m)
      end;
  Ok s.2.

(** The locals [y], [yuyv] of [unpack_odd] and the memory. *)
Abbreviation odd_state := (ptr * ptr * mem)%type.

(** Lines 77-80. *)
Definition unpack_odd_body (s : odd_state) : result odd_state :=
  let '(y, yuyv, m) := s in
  b ← load m yuyv; m ← store m y b;
  let (y, yuyv) := (y +ₚ 1, yuyv +ₚ 1) in
  let yuyv := yuyv +ₚ 1 in
  b ← load m yuyv; m ← store m y b;
  let (y, yuyv) := (y +ₚ 1, yuyv +ₚ 1) in
  let yuyv := yuyv +ₚ 1 in
  Ok (y, yuyv, m).

(** Lines 70-73. *)
Definition unpack_odd_body_neon (s : odd_state) : result odd_state :=
  let '(y, yuyv, m) := s in
  y_uv ← vld2q_u8 m yuyv;
  m ← vst1q_u8 m y y_uv.1;
  Ok (y +ₚ 16, yuyv +ₚ 32, m).

Definition unpack_odd (t : target) (y yuyv : ptr) (stride : Z) (m : mem)
    : result mem :=
  s ← match t with
      | ArmNeon =>
          for_loop (Z.to_nat stride) 0 stride 32 unpack_odd_body_neon
            (y, yuyv, m)
      | Portable =>
          for_loop (Z.to_nat stride) 0 stride 4 unpack_odd_body
            (y, yuyv, m)
      end;
  Ok s.2.

(** ** The frame converter *)

(** Lines 124-132; [/] on [int] truncates, which is [÷]. *)
Definition row_pair (t : target) (stride : Z) (s : even_state)
    : result even_state :=
  let '(y, u, v, yuyv, m) := s in
  m ← unpack_even t y u v yuyv stride m;
  let y := y +ₚ stride ÷ 2 in
  let u := u +ₚ stride ÷ 4 in
  let v := v +ₚ stride ÷ 4 in
  let yuyv := yuyv +ₚ stride in
  m ← unpack_odd t y yuyv stride m;
  let y := y +ₚ stride ÷ 2 in
  let yuyv := yuyv +ₚ stride in
  Ok (y, u, v, yuyv, m).

Definition yuyv_to_yuv420p (t : target) (y u v yuyv : ptr)
    (stride height : Z) (m : mem) : result mem :=
  s ← for_loop (Z.to_nat height) 0 height 2 (row_pair t stride)
        (y, u, v, yuyv, m);
  Ok s.2.

(** ** Buffers and what a run copies *)

(** [p +ₚ 0 .. p +ₚ (n-1)] can be accessed. *)
Definition valid_rng (m : mem) (p : ptr) (n : Z) : Prop :=
  ∀ j, 0 ≤ j < n → is_Some (m !! (p +ₚ j)).

(** The object [p] points to has exactly [n] bytes, [p] at its start. *)
Definition buffer (m : mem) (p : ptr) (n : Z) : Prop :=
  ∀ j, is_Some (m !! (p +ₚ j)) ↔ 0 ≤ j < n.

(** [q] is one of [p +ₚ 0 .. p +ₚ (n-1)]. *)
Definition in_rng (p : ptr) (n : Z) (q : ptr) : Prop :=
  q.1 = p.1 ∧ p.2 ≤ q.2 < p.2 + n.

(** The [n] bytes at [p] and the [k] bytes at [q] do not overlap: they are
    in different objects or apart in the same one. *)
Definition disjoint_rng (p : ptr) (n : Z) (q : ptr) (k : Z) : Prop :=
  p.1 ≠ q.1 ∨ p.2 + n ≤ q.2 ∨ q.2 + k ≤ p.2.

(** [m'] is [m] after the copies listed by [R]: where [R q p] holds the byte
    at [q] is now the byte [m] has at [p], every other byte is as in [m], and
    the same locations are mapped. *)
Definition xfer (R : ptr → ptr → Prop) (m m' : mem) : Prop :=
  dom m' = dom m ∧
  (∀ q, (∀ p, ¬ R q p) → m' !! q = m !! q) ∧
  (∀ q p, R q p → m' !! q = m !! p).

(** Luma byte [j] of a row comes from byte [2j] of the source row. *)
Definition luma_map (y s : ptr) (n : Z) (q p : ptr) : Prop :=
  ∃ j, 0 ≤ j < n ∧ q = y +ₚ j ∧ p = s +ₚ 2 * j.

(** Chroma byte [j] of a row comes from byte [4j + k] of the source row:
    [k = 1] for U and [k = 3] for V. *)
Definition chroma_map (c s : ptr) (n k : Z) (q p : ptr) : Prop :=
  ∃ j, 0 ≤ j < n ∧ q = c +ₚ j ∧ p = s +ₚ (4 * j + k).

(** The copies of an even row of [n] groups, and of an odd one. *)
Definition even_map (y u v s : ptr) (n : Z) (q p : ptr) : Prop :=
  luma_map y s (2 * n) q p ∨ chroma_map u s n 1 q p ∨ chroma_map v s n 3 q p.

Definition odd_map (y s : ptr) (n : Z) (q p : ptr) : Prop :=
  luma_map y s (2 * n) q p.

Definition even_valid (y u v s : ptr) (n : Z) (m : mem) : Prop :=
  valid_rng m s (4 * n) ∧ valid_rng m y (2 * n) ∧
  valid_rng m u n ∧ valid_rng m v n.

Definition odd_valid (y s : ptr) (n : Z) (m : mem) : Prop :=
  valid_rng m s (4 * n) ∧ valid_rng m y (2 * n).

(** No two of the four rows overlap. *)
Definition even_sep (y u v s : ptr) (n : Z) : Prop :=
  disjoint_rng y (2 * n) u n ∧ disjoint_rng y (2 * n) v n ∧
  disjoint_rng u n v n ∧ disjoint_rng s (4 * n) y (2 * n) ∧
  disjoint_rng s (4 * n) u n ∧ disjoint_rng s (4 * n) v n.

Definition odd_sep (y s : ptr) (n : Z) : Prop :=
  disjoint_rng s (4 * n) y (2 * n).

(** The bytes a build takes per iteration of a row loop. *)
Definition block_bytes (t : target) : Z :=
  match t with
  | Portable => 4
  | ArmNeon => 32
  end.

(** The copies of a frame of [pairs] row pairs, the rows of [4 * n] bytes:
    luma row [r] from source row [r], chroma row [r] from source row [2r]. *)
Definition frame_map (y u v s : ptr) (n pairs : Z) (q p : ptr) : Prop :=
  (∃ r, 0 ≤ r < 2 * pairs ∧
        luma_map (y +ₚ r * (2 * n)) (s +ₚ r * (4 * n)) (2 * n) q p) ∨
  (∃ r, 0 ≤ r < pairs ∧
        chroma_map (u +ₚ r * n) (s +ₚ 2 * r * (4 * n)) n 1 q p) ∨
  (∃ r, 0 ≤ r < pairs ∧
        chroma_map (v +ₚ r * n) (s +ₚ 2 * r * (4 * n)) n 3 q p).

(** The four buffers of a frame: [2 * pairs] source rows of [4 * n] bytes,
    as many luma rows of [2 * n] bytes, [pairs] rows of [n] bytes in each
    chroma plane. *)
Definition frame_valid (y u v s : ptr) (n pairs : Z) (m : mem) : Prop :=
  valid_rng m s (2 * pairs * (4 * n)) ∧ valid_rng m y (2 * pairs * (2 * n)) ∧
  valid_rng m u (pairs * n) ∧ valid_rng m v (pairs * n).

Definition frame_sep (y u v s : ptr) (n pairs : Z) : Prop :=
  disjoint_rng y (2 * pairs * (2 * n)) u (pairs * n) ∧
  disjoint_rng y (2 * pairs * (2 * n)) v (pairs * n) ∧
  disjoint_rng u (pairs * n) v (pairs * n) ∧
  disjoint_rng s (2 * pairs * (4 * n)) y (2 * pairs * (2 * n)) ∧
  disjoint_rng s (2 * pairs * (4 * n)) u (pairs * n) ∧
  disjoint_rng s (2 * pairs * (4 * n)) v (pairs * n).

(** Row pairs [k], [k+1], ... ([n] of them) with the pointers written out:
    pair [k] unpacks source row [2k] to luma row [2k] and chroma row [k], and
    source row [2k+1] to luma row [2k+1]. *)
Fixpoint row_pairs (t : target) (y u v yuyv : ptr) (stride : Z) (k : Z)
    (n : nat) (m : mem) : result mem :=
  match n with
  | O => Ok m
  | Datatypes.S n' =>
      m ← unpack_even t (y +ₚ 2 * k * (stride ÷ 2)) (u +ₚ k * (stride ÷ 4))
            (v +ₚ k * (stride ÷ 4)) (yuyv +ₚ 2 * k * stride) stride m;
      m ← unpack_odd t (y +ₚ (2 * k + 1) * (stride ÷ 2))
            (yuyv +ₚ (2 * k + 1) * stride) stride m;
      row_pairs t y u v yuyv stride (k + 1) n' m
  end.

(** No byte outside the objects of [y], [u] and [v] differs. *)
Definition outputs_only (y u v : ptr) (m m' : mem) : Prop :=
  dom m' = dom m ∧
  ∀ q, q.1 ≠ y.1 → q.1 ≠ u.1 → q.1 ≠ v.1 → m' !! q = m !! q.

(** What [outputs_only] is for the states of the loops: the pointers stay in
    the objects of [y], [u] and [v], and [m0] has only changed there. *)
Definition even_inv (y u v : ptr) (m0 : mem) (st : even_state) : Prop :=
  let '(y', u', v', _, m) := st in
  y'.1 = y.1 ∧ u'.1 = u.1 ∧ v'.1 = v.1 ∧ outputs_only y u v m0 m.

Definition odd_inv (y u v : ptr) (m0 : mem) (st : odd_state) : Prop :=
  let '(y', _, m) := st in y'.1 = y.1 ∧ outputs_only y u v m0 m.

(** [m'] is [m] with the row of [stride] bytes at [s] unpacked as an even
    row: group [g], the bytes [Y0 U Y1 V] at [4g .. 4g+3], gives luma bytes
    [2g] and [2g+1], U byte [g] and V byte [g]; nothing else differs. *)
Definition even_row_unpacked (y u v s : ptr) (stride : Z) (m m' : mem)
    : Prop :=
  (∀ g, 0 ≤ g < stride / 4 →
        m' !! (y +ₚ 2 * g) = m !! (s +ₚ 4 * g) ∧
        m' !! (u +ₚ g) = m !! (s +ₚ (4 * g + 1)) ∧
        m' !! (y +ₚ (2 * g + 1)) = m !! (s +ₚ (4 * g + 2)) ∧
        m' !! (v +ₚ g) = m !! (s +ₚ (4 * g + 3))) ∧
  (∀ q, ¬ in_rng y (stride / 2) q → ¬ in_rng u (stride / 4) q →
        ¬ in_rng v (stride / 4) q → m' !! q = m !! q) ∧
  dom m' = dom m.

(** [m'] is [m] with the row of [stride] bytes at [s] unpacked as an odd
    row: luma byte [j] is the byte at the even offset [2j]; nothing else
    differs. *)
Definition odd_row_unpacked (y s : ptr) (stride : Z) (m m' : mem) : Prop :=
  (∀ j, 0 ≤ j < stride / 2 → m' !! (y +ₚ j) = m !! (s +ₚ 2 * j)) ∧
  (∀ q, ¬ in_rng y (stride / 2) q → m' !! q = m !! q) ∧
  dom m' = dom m.

(** The chroma bytes of block [(r, c)] in [m'] are the U and V bytes of
    group [c] of source row [2r] in [m]. *)
Definition chroma_sampled (u v s : ptr) (stride height : Z) (m m' : mem)
    : Prop :=
  ∀ r c, 0 ≤ r < height / 2 → 0 ≤ c < stride / 4 →
         m' !! (u +ₚ (r * (stride / 4) + c))
         = m !! (s +ₚ (2 * r * stride + (4 * c + 1))) ∧
         m' !! (v +ₚ (r * (stride / 4) + c))
         = m !! (s +ₚ (2 * r * stride + (4 * c + 3))).

(** Two memories with the same source row [i]. *)
Definition same_row (s : ptr) (stride i : Z) (m1 m2 : mem) : Prop :=
  ∀ j, 0 ≤ j < stride →
       m1 !! (s +ₚ (i * stride + j)) = m2 !! (s +ₚ (i * stride + j)).

(** Two memories with the same chroma bytes in row [r] of the U and V
    planes. *)
Definition same_chroma_row (u v : ptr) (stride r : Z) (m1 m2 : mem) : Prop :=
  ∀ c, 0 ≤ c < stride / 4 →
       m1 !! (u +ₚ (r * (stride / 4) + c))
       = m2 !! (u +ₚ (r * (stride / 4) + c)) ∧
       m1 !! (v +ₚ (r * (stride / 4) + c))
       = m2 !! (v +ₚ (r * (stride / 4) + c)).

(** The first [rows] luma rows of [m'], as one run of bytes, are the bytes at
    the even offsets of the first [rows] source rows of [m]. *)
Definition luma_copied (y s : ptr) (stride rows : Z) (m m' : mem) : Prop :=
  ∀ j, 0 ≤ j < rows * (stride / 2) → m' !! (y +ₚ j) = m !! (s +ₚ 2 * j).

(** [m'] is [m] after row pair [k]: luma rows [2k] and [2k + 1] hold the
    bytes at the even offsets of source rows [2k] and [2k + 1], row [k] of
    the U and of the V plane hold the U and V bytes of source row [2k], and
    no byte outside these two luma rows and two chroma rows differs. *)
Definition pair_unpacked (y u v s : ptr) (stride k : Z) (m m' : mem) : Prop :=
  (∀ c, 0 ≤ c < stride / 2 →
        m' !! (y +ₚ (2 * k * (stride / 2) + c))
        = m !! (s +ₚ (2 * k * stride + 2 * c)) ∧
        m' !! (y +ₚ ((2 * k + 1) * (stride / 2) + c))
        = m !! (s +ₚ ((2 * k + 1) * stride + 2 * c))) ∧
  (∀ c, 0 ≤ c < stride / 4 →
        m' !! (u +ₚ (k * (stride / 4) + c))
        = m !! (s +ₚ (2 * k * stride + (4 * c + 1))) ∧
        m' !! (v +ₚ (k * (stride / 4) + c))
        = m !! (s +ₚ (2 * k * stride + (4 * c + 3)))) ∧
  (∀ q, ¬ in_rng (y +ₚ 2 * k * (stride / 2)) (2 * (stride / 2)) q →
        ¬ in_rng (u +ₚ k * (stride / 4)) (stride / 4) q →
        ¬ in_rng (v +ₚ k * (stride / 4)) (stride / 4) q →
        m' !! q = m !! q) ∧
  dom m' = dom m.

(** ** A frame for the examples *)

Definition Y : ptr := (1%positive, 0).
Definition U : ptr := (2%positive, 0).
Definition V : ptr := (3%positive, 0).
Definition YUYV : ptr := (4%positive, 0).

(** Four buffers, each an object of its own. *)
Definition frame_mem (ly lu lv ls : list Z) : mem :=
  heap_bytes Y ly ∪ heap_bytes U lu ∪ heap_bytes V lv ∪ heap_bytes YUYV ls.

(** The minimal frame of the specification: width 4, height 2, stride 8,
    with chroma bytes [c0 .. c3] in row 1. *)
Definition minimal_source (c0 c1 c2 c3 : Z) : list Z :=
  [100; 128; 101; 64; 102; 128; 103; 64;
   110; c0; 111; c1; 112; c2; 113; c3].

Definition minimal_mem : mem :=
  frame_mem (replicate 8 0) [0; 0] [0; 0] (minimal_source 0 0 0 0).

(** A frame of one row pair at stride 32, the least the NEON build takes. *)
Definition wide_mem : mem :=
  frame_mem (replicate 32 0) (replicate 8 0) (replicate 8 0)
    (seqZ 0 64).

(** ** Further contracts *)

(** Luma byte [c] of row [r] in [m'] is byte [2c] of source row [r] in [m]. *)
Definition luma_sampled (y s : ptr) (stride height : Z) (m m' : mem) : Prop :=
  ∀ r c, 0 ≤ r < height → 0 ≤ c < stride / 2 →
         m' !! (y +ₚ (r * (stride / 2) + c)) = m !! (s +ₚ (r * stride + 2 * c)).

(** Two memories with the same [n] bytes at [p]. *)
Definition same_rng (p : ptr) (n : Z) (m1 m2 : mem) : Prop :=
  ∀ j, 0 ≤ j < n → m1 !! (p +ₚ j) = m2 !! (p +ₚ j).

(** Two memories with the same three planes of a frame. *)
Definition same_planes (y u v : ptr) (stride height : Z) (m1 m2 : mem)
    : Prop :=
  same_rng y (height * (stride / 2)) m1 m2 ∧
  same_rng u (height / 2 * (stride / 4)) m1 m2 ∧
  same_rng v (height / 2 * (stride / 4)) m1 m2.

(** Every group of every source row is [a b a c]: a frame of one colour. *)
Definition solid_source (s : ptr) (stride height a b c : Z) (m : mem)
    : Prop :=
  ∀ r g, 0 ≤ r < height → 0 ≤ g < stride / 4 →
         m !! (s +ₚ (r * stride + 4 * g)) = Some a ∧
         m !! (s +ₚ (r * stride + (4 * g + 1))) = Some b ∧
         m !! (s +ₚ (r * stride + (4 * g + 2))) = Some a ∧
         m !! (s +ₚ (r * stride + (4 * g + 3))) = Some c.

(** Every one of the [n] bytes at [p] is [a]. *)
Definition all_bytes (p : ptr) (n a : Z) (m : mem) : Prop :=
  ∀ j, 0 ≤ j < n → m !! (p +ₚ j) = Some a.

(** [n] rounded up to a multiple of [k]. *)
Definition round_up (k n : Z) : Z := (n + k - 1) / k * k.

(** A frame of one colour for the examples: two rows of [16 128 16 64]
    groups. *)
Definition solid_mem : mem :=
  frame_mem (replicate 8 0) [0; 0] [0; 0]
    [16; 128; 16; 64; 16; 128; 16; 64; 16; 128; 16; 64; 16; 128; 16; 64].

(** The only error of [r], if it has one, is an access out of range. *)
Definition only_oob {A : Type} (r : result A) : Prop :=
  ∀ e, r = Err e → e = OutOfBounds.

(** The [n] bytes at the even offsets [0, 2, ...] from [s] can be
    accessed. *)
Definition luma_bytes_valid (m : mem) (s : ptr) (n : Z) : Prop :=
  ∀ j, 0 ≤ j < n → is_Some (m !! (s +ₚ 2 * j)).

(** The source bytes both builds read: every byte of the even rows and the
    bytes at the even offsets of the odd rows. *)
Definition frame_read (s : ptr) (stride height : Z) (m : mem) : Prop :=
  ∀ r i, 0 ≤ r < height → 0 ≤ i < stride → r mod 2 = 0 ∨ i mod 2 = 0 →
         is_Some (m !! (s +ₚ (r * stride + i))).

(** A luma row and a source row of two groups whose chroma bytes are not
    mapped. *)
Definition sparse_mem : mem :=
  <[YUYV := 10]> (<[YUYV +ₚ 2 := 11]> (<[YUYV +ₚ 4 := 12]>
    (<[YUYV +ₚ 6 := 13]> (heap_bytes Y [0; 0; 0; 0])))).

(** A frame of four rows at stride 8 for the examples. *)
Definition tall_mem : mem :=
  frame_mem (replicate 16 0) (replicate 4 0) (replicate 4 0) (seqZ 0 32).

(** * Properties *)

(** ** Sequencing and loops *)

Lemma bind_Ok {A B : Type} (r : result A) (k : A → result B) (b : B) :
  r ≫= k = Ok b → ∃ a, r = Ok a ∧ k a = Ok b.
Proof. destruct r as [a|e]; [eauto | discriminate]. Qed.

Lemma int_add_Ok (a b : Z) :
  INT_MIN ≤ a + b ≤ INT_MAX → int_add a b = Ok (a + b).
Proof.
  intros [Hlo Hhi]. unfold int_add.
  apply Z.leb_le in Hlo, Hhi. by rewrite Hlo, Hhi.
Qed.

Section loops.
Context {S : Type} (body : S → result S) (bound step : Z).
Hypothesis step_pos : 0 < step.

(** A loop that neither overflows its counter nor passes the bound early
    runs its body as many times as the counter fits below the bound. *)
Lemma for_loop_repeat (n : nat) :
  ∀ (fuel : nat) (i : Z) (s : S),
    (n ≤ fuel)%nat →
    bound ≤ i + Z.of_nat n * step →
    i + Z.of_nat n * step < bound + step →
    INT_MIN ≤ i → i + Z.of_nat n * step ≤ INT_MAX →
    for_loop fuel i bound step body s = repeatM n body s.
Proof.
  induction n as [|n IH]; intros fuel i s Hfuel Hge Hlt Hmin Hmax.
  - assert ((i <? bound) = false) as Hi by (apply Z.ltb_ge; lia).
    destruct fuel; simpl; by rewrite Hi.
  - destruct fuel as [|fuel]; [lia|].
    assert ((i <? bound) = true) as Hi by (apply Z.ltb_lt; nia).
    simpl. rewrite Hi. destruct (body s) as [s'|e]; [|done]. simpl.
    rewrite int_add_Ok by nia. simpl. apply IH; lia.
Qed.

(** More fuel than the counter has room does not change a run. *)
Lemma for_loop_enough_fuel (fuel1 : nat) :
  ∀ (fuel2 : nat) (i : Z) (s : S),
    (Z.to_nat (bound - i) ≤ fuel1)%nat →
    (Z.to_nat (bound - i) ≤ fuel2)%nat →
    for_loop fuel1 i bound step body s = for_loop fuel2 i bound step body s.
Proof.
  induction fuel1 as [|fuel1 IH]; intros fuel2 i s H1 H2.
  - assert ((i <? bound) = false) as Hi by (apply Z.ltb_ge; lia).
    destruct fuel2; simpl; by rewrite Hi.
  - destruct (Z.ltb_spec i bound) as [Hi|Hi].
    + destruct fuel2 as [|fuel2]; [lia|]. simpl.
      apply Z.ltb_lt in Hi as Hi'. rewrite Hi'.
      destruct (body s) as [s'|e]; [|done]. simpl.
      unfold int_add. case_match; [|done]. simpl. apply IH; lia.
    + apply Z.ltb_ge in Hi. destruct fuel2; simpl; by rewrite Hi.
Qed.

(** What holds before a loop and is kept by its body holds after it. *)
Lemma for_loop_inv (P : S → Prop) :
  (∀ s s', P s → body s = Ok s' → P s') →
  ∀ (fuel : nat) (i : Z) (s s' : S),
    P s → for_loop fuel i bound step body s = Ok s' → P s'.
Proof.
  intros Hbody. induction fuel as [|fuel IH]; intros i s s' HP; simpl.
  - case_match; [done|]. by intros [= <-].
  - case_match; [|by intros [= <-]].
    intros (s1 & Hs1 & Hrun)%bind_Ok. apply bind_Ok in Hrun as (i' & _ & Hrun).
    eapply IH; [|exact Hrun]. eauto.
Qed.
End loops.

(** The rule of the loop invariant, indexed by the iteration. *)
Lemma repeatM_inv {S : Type} (body : S → result S) (I : Z → S → Prop)
    (n : nat) :
  ∀ (k : Z) (s : S),
    I k s →
    (∀ j s, k ≤ j < k + Z.of_nat n → I j s →
            ∃ s', body s = Ok s' ∧ I (j + 1) s') →
    ∃ s', repeatM n body s = Ok s' ∧ I (k + Z.of_nat n) s'.
Proof.
  induction n as [|n IH]; intros k s HI Hstep; simpl.
  - exists s. split; [done|]. by replace (k + Z.of_nat 0) with k by lia.
  - destruct (Hstep k s) as (s1 & -> & HI1); [lia|done|]. simpl.
    destruct (IH (k + 1) s1) as (s2 & -> & HI2); [done| |].
    + intros j s0 Hj. apply Hstep. lia.
    + exists s2. split; [done|].
      by replace (k + Z.of_nat (Datatypes.S n)) with (k + 1 + Z.of_nat n) by lia.
Qed.

(** ** Memory *)

Lemma shift_0 (p : ptr) : p +ₚ 0 = p.
Proof. destruct p as [b o]. unfold shift; simpl. f_equal; lia. Qed.

Lemma shift_shift (p : ptr) (a b : Z) : p +ₚ a +ₚ b = p +ₚ (a + b).
Proof. unfold shift; simpl. f_equal; lia. Qed.

Lemma shift_eq (p : ptr) (a b : Z) : a = b → p +ₚ a = p +ₚ b.
Proof. by intros ->. Qed.

Lemma load_Some (m : mem) (p : ptr) (b : Z) : m !! p = Some b → load m p = Ok b.
Proof. unfold load. by intros ->. Qed.

Lemma store_Some (m : mem) (p : ptr) (b : Z) :
  is_Some (m !! p) → store m p b = Ok (<[p := b]> m).
Proof. unfold store. by intros [b0 ->]. Qed.

Lemma store_Ok (m m' : mem) (p : ptr) (b : Z) :
  store m p b = Ok m' → is_Some (m !! p) ∧ m' = <[p := b]> m.
Proof. unfold store. case_match; [|done]. intros [= <-]. eauto. Qed.

Lemma dom_insert_valid (m : mem) (p : ptr) (b : Z) :
  is_Some (m !! p) → dom (<[p := b]> m) = dom m.
Proof. intros H. by apply dom_insert_lookup_L. Qed.

Lemma dom_is_Some (m m' : mem) (p : ptr) :
  dom m' = dom m → is_Some (m !! p) → is_Some (m' !! p).
Proof. intros Hdom H. apply elem_of_dom. rewrite Hdom. by apply elem_of_dom. Qed.

Lemma valid_rng_dom (m m' : mem) (p : ptr) (n : Z) :
  dom m' = dom m → valid_rng m p n → valid_rng m' p n.
Proof. intros Hdom H j Hj. eapply dom_is_Some; eauto. Qed.

Lemma valid_rng_sub (m : mem) (p : ptr) (n a k : Z) :
  valid_rng m p n → 0 ≤ a → a + k ≤ n → valid_rng m (p +ₚ a) k.
Proof. intros H Ha Hk j Hj. rewrite shift_shift. apply H. lia. Qed.

(** ** Copies *)

Lemma xfer_refl (R : ptr → ptr → Prop) (m : mem) :
  (∀ q p, ¬ R q p) → xfer R m m.
Proof. intros H. split; [done|]. split; [done|]. intros q p HR. by destruct (H q p). Qed.

Lemma xfer_iff (R R' : ptr → ptr → Prop) (m m' : mem) :
  (∀ q p, R q p ↔ R' q p) → xfer R m m' → xfer R' m m'.
Proof.
  intros HR (Hdom & Hframe & Hval). split; [done|]. split.
  - intros q Hq. apply Hframe. intros p Hp. apply (Hq p), HR, Hp.
  - intros q p Hp. apply Hval, HR, Hp.
Qed.

(** Two runs of copies in sequence are one, when the second neither writes
    where the first wrote nor reads it. *)
Lemma xfer_seq (R1 R2 : ptr → ptr → Prop) (m m1 m2 : mem) :
  xfer R1 m m1 → xfer R2 m1 m2 →
  (∀ q p p', R1 q p → ¬ R2 q p') →
  (∀ q p p', R2 q p → ¬ R1 p p') →
  xfer (λ q p, R1 q p ∨ R2 q p) m m2.
Proof.
  intros (Hdom1 & Hframe1 & Hval1) (Hdom2 & Hframe2 & Hval2) Hww Hrw.
  split; [congruence|]. split.
  - intros q Hq. rewrite Hframe2, Hframe1; [done|naive_solver..].
  - intros q p [H1|H2].
    + rewrite Hframe2; [by apply Hval1|]. intros p'. by eapply Hww.
    + rewrite (Hval2 _ _ H2). apply Hframe1. intros p'. by eapply Hrw.
Qed.

(** The copies [R] of [m] have one outcome. *)
Lemma xfer_unique (R : ptr → ptr → Prop) (m m1 m2 : mem) :
  (∀ q, (∃ p, R q p) ∨ (∀ p, ¬ R q p)) →
  xfer R m m1 → xfer R m m2 → m1 = m2.
Proof.
  intros Hdec (_ & Hframe1 & Hval1) (_ & Hframe2 & Hval2).
  apply map_eq. intros q. destruct (Hdec q) as [[p Hp]|Hq].
  - by rewrite (Hval1 _ _ Hp), (Hval2 _ _ Hp).
  - by rewrite Hframe1, Hframe2.
Qed.

(** [*dst = *src]. *)
Lemma copy_step (m : mem) (dst src : ptr) :
  is_Some (m !! src) → is_Some (m !! dst) →
  ∃ b m', load m src = Ok b ∧ store m dst b = Ok m' ∧
          dom m' = dom m ∧ xfer (λ q p, q = dst ∧ p = src) m m'.
Proof.
  intros [b Hb] Hdst. exists b, (<[dst := b]> m).
  split; [by apply load_Some|]. split; [by apply store_Some|].
  split; [by apply dom_insert_valid|].
  split; [by apply dom_insert_valid|]. split.
  - intros q Hq. apply lookup_insert_ne. intros <-. by apply (Hq src).
  - intros q p [-> ->]. by rewrite lookup_insert_eq.
Qed.

(** ** The row unpackers, one iteration *)

(** Pointers apart, in terms of their blocks and offsets. *)
Ltac ptr_lia :=
  unfold not; intros;
  repeat match goal with p : (block * Z)%type |- _ => destruct p end;
  unfold even_sep, odd_sep, disjoint_rng, in_rng, shift in *; simpl in *;
  repeat match goal with
         | H : (_ ∧ _) ∨ _ |- _ => destruct H
         | H : (_ ∨ _) ∨ _ |- _ => destruct H
         end;
  destruct_and?; simplify_eq/=; lia.

Lemma valid_at (m : mem) (p : ptr) (n j : Z) (q : ptr) :
  valid_rng m p n → 0 ≤ j < n → q = p +ₚ j → is_Some (m !! q).
Proof. intros H Hj ->. by apply H. Qed.

Lemma unpack_even_body_spec (y u v s : ptr) (m : mem) :
  even_valid y u v s 1 m →
  ∃ m', unpack_even_body (y, u, v, s, m)
        = Ok (y +ₚ 2, u +ₚ 1, v +ₚ 1, s +ₚ 4, m') ∧
        dom m' = dom m ∧
        (even_sep y u v s 1 → xfer (even_map y u v s 1) m m').
Proof.
  intros (Hs & Hy & Hu & Hv). unfold unpack_even_body.
  destruct (copy_step m y s) as (b0 & m1 & Hl & Hst & Hd1 & X1);
    [| |rewrite Hl; simpl; rewrite Hst; simpl; clear Hl Hst].
  { eapply (valid_at _ s _ 0); eauto; [lia|by rewrite shift_0]. }
  { eapply (valid_at _ y _ 0); eauto; [lia|by rewrite shift_0]. }
  destruct (copy_step m1 u (s +ₚ 1)) as (b1 & m2 & Hl & Hst & Hd2 & X2);
    [| |rewrite Hl; simpl; rewrite Hst; simpl; clear Hl Hst].
  { apply (dom_is_Some m); [congruence|]. apply Hs. lia. }
  { apply (dom_is_Some m); [congruence|]. eapply (valid_at _ u _ 0); eauto;
      [lia|by rewrite shift_0]. }
  destruct (copy_step m2 (y +ₚ 1) (s +ₚ 1 +ₚ 1))
    as (b2 & m3 & Hl & Hst & Hd3 & X3);
    [| |rewrite Hl; simpl; rewrite Hst; simpl; clear Hl Hst].
  { apply (dom_is_Some m); [congruence|]. rewrite shift_shift. apply Hs. lia. }
  { apply (dom_is_Some m); [congruence|]. apply Hy. lia. }
  destruct (copy_step m3 v (s +ₚ 1 +ₚ 1 +ₚ 1))
    as (b3 & m4 & Hl & Hst & Hd4 & X4);
    [| |rewrite Hl; simpl; rewrite Hst; simpl; clear Hl Hst].
  { apply (dom_is_Some m); [congruence|]. rewrite !shift_shift. apply Hs. lia. }
  { apply (dom_is_Some m); [congruence|]. eapply (valid_at _ v _ 0); eauto;
      [lia|by rewrite shift_0]. }
  exists m4. rewrite !shift_shift. split; [done|].
  split; [congruence|]. intros Hsep.
  pose proof (xfer_seq _ _ _ _ _ X1 X2) as X12.
  pose proof (xfer_seq _ _ _ _ _ (X12 ltac:(intros; ptr_lia) ltac:(intros; ptr_lia)) X3) as X123.
  pose proof (xfer_seq _ _ _ _ _ (X123 ltac:(intros; ptr_lia) ltac:(intros; ptr_lia)) X4) as X.
  eapply xfer_iff; [|apply X; intros; ptr_lia].
  intros q p. unfold even_map, luma_map, chroma_map. split.
  - intros [[[[-> ->]|[-> ->]]|[-> ->]]|[-> ->]].
    + left. exists 0. rewrite shift_0. split; [lia|]. split; [done|]. by rewrite shift_0.
    + right; left. exists 0. rewrite shift_0. split; [lia|]. done.
    + left. exists 1. split; [lia|]. split; [done|]. by rewrite shift_shift.
    + right; right. exists 0. rewrite shift_0, !shift_shift. split; [lia|]. done.
  - intros [(j & Hj & -> & ->)|[(j & Hj & -> & ->)|(j & Hj & -> & ->)]].
    + assert (j = 0 ∨ j = 1) as [->| ->] by lia.
      * left; left; left. by rewrite !shift_0.
      * left; right. by rewrite shift_shift.
    + assert (j = 0) as -> by lia. left; left; right. by rewrite shift_0.
    + assert (j = 0) as -> by lia. right. by rewrite shift_0, !shift_shift.
Qed.

Lemma unpack_odd_body_spec (y s : ptr) (m : mem) :
  odd_valid y s 1 m →
  ∃ m', unpack_odd_body (y, s, m) = Ok (y +ₚ 2, s +ₚ 4, m') ∧
        dom m' = dom m ∧
        (odd_sep y s 1 → xfer (odd_map y s 1) m m').
Proof.
  intros (Hs & Hy). unfold unpack_odd_body.
  destruct (copy_step m y s) as (b0 & m1 & Hl & Hst & Hd1 & X1);
    [| |rewrite Hl; simpl; rewrite Hst; simpl; clear Hl Hst].
  { eapply (valid_at _ s _ 0); eauto; [lia|by rewrite shift_0]. }
  { eapply (valid_at _ y _ 0); eauto; [lia|by rewrite shift_0]. }
  destruct (copy_step m1 (y +ₚ 1) (s +ₚ 1 +ₚ 1))
    as (b1 & m2 & Hl & Hst & Hd2 & X2);
    [| |rewrite Hl; simpl; rewrite Hst; simpl; clear Hl Hst].
  { apply (dom_is_Some m); [congruence|]. rewrite shift_shift. apply Hs. lia. }
  { apply (dom_is_Some m); [congruence|]. apply Hy. lia. }
  exists m2. rewrite !shift_shift. split; [done|].
  split; [congruence|]. intros Hsep.
  pose proof (xfer_seq _ _ _ _ _ X1 X2) as X.
  eapply xfer_iff; [|apply X; intros; ptr_lia].
  intros q p. unfold odd_map, luma_map. split.
  - intros [[-> ->]|[-> ->]].
    + exists 0. rewrite !shift_0. split; [lia|done].
    + exists 1. rewrite shift_shift. split; [lia|done].
  - intros (j & Hj & -> & ->).
    assert (j = 0 ∨ j = 1) as [->| ->] by lia.
    + left. by rewrite !shift_0.
    + right. by rewrite shift_shift.
Qed.

(** ** Rows in parts *)

Lemma luma_map_app (y s : ptr) (a b : Z) (q p : ptr) :
  0 ≤ a → 0 ≤ b →
  luma_map y s (a + b) q p ↔
  luma_map y s a q p ∨ luma_map (y +ₚ a) (s +ₚ 2 * a) b q p.
Proof.
  intros Ha Hb. unfold luma_map. split.
  - intros (j & Hj & -> & ->). destruct (decide (j < a)).
    + left. exists j. split; [lia|done].
    + right. exists (j - a). rewrite !shift_shift.
      split; [lia|]. split; apply shift_eq; lia.
  - intros [(j & Hj & -> & ->)|(j & Hj & -> & ->)].
    + exists j. split; [lia|done].
    + exists (a + j). rewrite !shift_shift.
      split; [lia|]. split; apply shift_eq; lia.
Qed.

Lemma chroma_map_app (c s : ptr) (a b k : Z) (q p : ptr) :
  0 ≤ a → 0 ≤ b →
  chroma_map c s (a + b) k q p ↔
  chroma_map c s a k q p ∨ chroma_map (c +ₚ a) (s +ₚ 4 * a) b k q p.
Proof.
  intros Ha Hb. unfold chroma_map. split.
  - intros (j & Hj & -> & ->). destruct (decide (j < a)).
    + left. exists j. split; [lia|done].
    + right. exists (j - a). rewrite !shift_shift.
      split; [lia|]. split; apply shift_eq; lia.
  - intros [(j & Hj & -> & ->)|(j & Hj & -> & ->)].
    + exists j. split; [lia|done].
    + exists (a + j). rewrite !shift_shift.
      split; [lia|]. split; apply shift_eq; lia.
Qed.

Lemma even_map_app (y u v s : ptr) (a b : Z) (q p : ptr) :
  0 ≤ a → 0 ≤ b →
  even_map y u v s (a + b) q p ↔
  even_map y u v s a q p ∨
  even_map (y +ₚ 2 * a) (u +ₚ a) (v +ₚ a) (s +ₚ 4 * a) b q p.
Proof.
  intros Ha Hb. unfold even_map.
  replace (2 * (a + b)) with (2 * a + 2 * b) by lia.
  rewrite luma_map_app, !chroma_map_app by lia.
  replace (2 * (2 * a)) with (4 * a) by lia. tauto.
Qed.

(** A written location is in the range of its plane, a read one in the
    source row. *)
Lemma luma_map_rng (y s : ptr) (n : Z) (q p : ptr) :
  luma_map y s n q p → in_rng y n q ∧ in_rng s (2 * n) p.
Proof. intros (j & Hj & -> & ->). unfold in_rng, shift; simpl. lia. Qed.

Lemma chroma_map_rng (c s : ptr) (n k : Z) (q p : ptr) :
  0 ≤ k < 4 → chroma_map c s n k q p → in_rng c n q ∧ in_rng s (4 * n) p.
Proof. intros Hk (j & Hj & -> & ->). unfold in_rng, shift; simpl. lia. Qed.

Lemma in_rng_disjoint (p : ptr) (n : Z) (q : ptr) (k : Z) (x : ptr) :
  disjoint_rng p n q k → in_rng p n x → in_rng q k x → False.
Proof. ptr_lia. Qed.

Lemma in_rng_sub (p : ptr) (n a k : Z) (x : ptr) :
  0 ≤ a → a + k ≤ n → in_rng (p +ₚ a) k x → in_rng p n x.
Proof. ptr_lia. Qed.

Lemma even_map_rng (y u v s : ptr) (n : Z) (q p : ptr) :
  even_map y u v s n q p →
  (in_rng y (2 * n) q ∨ in_rng u n q ∨ in_rng v n q) ∧ in_rng s (4 * n) p.
Proof.
  intros [H|[H|H]].
  - apply luma_map_rng in H. replace (4 * n) with (2 * (2 * n)) by lia. tauto.
  - apply chroma_map_rng in H; [tauto|lia].
  - apply chroma_map_rng in H; [tauto|lia].
Qed.

Lemma disjoint_rng_mono (p : ptr) (n : Z) (q : ptr) (k n' k' : Z) :
  disjoint_rng p n q k → n' ≤ n → k' ≤ k → disjoint_rng p n' q k'.
Proof. unfold disjoint_rng. lia. Qed.

Lemma disjoint_rng_sub (p : ptr) (n : Z) (q : ptr) (k a n' b k' : Z) :
  disjoint_rng p n q k → 0 ≤ a → a + n' ≤ n → 0 ≤ b → b + k' ≤ k →
  disjoint_rng (p +ₚ a) n' (q +ₚ b) k'.
Proof. unfold disjoint_rng, shift; simpl. lia. Qed.

Lemma even_sep_mono (y u v s : ptr) (n n' : Z) :
  even_sep y u v s n → 0 ≤ n' ≤ n → even_sep y u v s n'.
Proof.
  intros (Hyu & Hyv & Huv & Hsy & Hsu & Hsv) Hn.
  repeat split; (eapply disjoint_rng_mono; [eassumption|lia..]).
Qed.

Lemma even_sep_shift (y u v s : ptr) (a b : Z) :
  even_sep y u v s (a + b) → 0 ≤ a → 0 ≤ b →
  even_sep (y +ₚ 2 * a) (u +ₚ a) (v +ₚ a) (s +ₚ 4 * a) b.
Proof.
  intros (Hyu & Hyv & Huv & Hsy & Hsu & Hsv) Ha Hb.
  repeat split; (eapply disjoint_rng_sub; [eassumption|lia..]).
Qed.

Lemma even_xfer_app (y u v s : ptr) (a b : Z) (m m1 m2 : mem) :
  0 ≤ a → 0 ≤ b → even_sep y u v s (a + b) →
  xfer (even_map y u v s a) m m1 →
  xfer (even_map (y +ₚ 2 * a) (u +ₚ a) (v +ₚ a) (s +ₚ 4 * a) b) m1 m2 →
  xfer (even_map y u v s (a + b)) m m2.
Proof.
  intros Ha Hb Hsep X1 X2.
  eapply xfer_iff; [intros; symmetry; by apply even_map_app|].
  destruct Hsep as (Hyu & Hyv & Huv & Hsy & Hsu & Hsv).
  eapply xfer_seq; [done..| |].
  - intros q p p' [H1 _]%even_map_rng [H2 _]%even_map_rng. ptr_lia.
  - intros q p p' [_ H2]%even_map_rng [H1 _]%even_map_rng. ptr_lia.
Qed.

Lemma odd_sep_mono (y s : ptr) (n n' : Z) :
  odd_sep y s n → 0 ≤ n' ≤ n → odd_sep y s n'.
Proof. intros H Hn. eapply disjoint_rng_mono; [eassumption|lia..]. Qed.

Lemma odd_sep_shift (y s : ptr) (a b : Z) :
  odd_sep y s (a + b) → 0 ≤ a → 0 ≤ b →
  odd_sep (y +ₚ 2 * a) (s +ₚ 4 * a) b.
Proof. intros H Ha Hb. eapply disjoint_rng_sub; [eassumption|lia..]. Qed.

Lemma odd_xfer_app (y s : ptr) (a b : Z) (m m1 m2 : mem) :
  0 ≤ a → 0 ≤ b → odd_sep y s (a + b) →
  xfer (odd_map y s a) m m1 →
  xfer (odd_map (y +ₚ 2 * a) (s +ₚ 4 * a) b) m1 m2 →
  xfer (odd_map y s (a + b)) m m2.
Proof.
  intros Ha Hb Hsep X1 X2. unfold odd_map in *.
  eapply xfer_iff.
  { intros q p. replace (2 * (a + b)) with (2 * a + 2 * b) by lia.
    symmetry. apply luma_map_app; lia. }
  replace (2 * (2 * a)) with (4 * a) by lia.
  eapply xfer_seq; [done..| |].
  - intros q p p' [H1 _]%luma_map_rng [H2 _]%luma_map_rng. ptr_lia.
  - intros q p p' [_ H2]%luma_map_rng [H1 _]%luma_map_rng. ptr_lia.
Qed.

(** ** The row loops *)

Lemma even_state_eq (y u v s : ptr) (m : mem) (a b c d a' b' c' d' : Z) :
  a = a' → b = b' → c = c' → d = d' →
  (y +ₚ a, u +ₚ b, v +ₚ c, s +ₚ d, m) = (y +ₚ a', u +ₚ b', v +ₚ c', s +ₚ d', m).
Proof. by intros -> -> -> ->. Qed.

(** A loop body that unpacks [k] groups and moves the four pointers past
    them unpacks [N * k] groups in [N] runs. *)
Lemma even_rows_iter (body : even_state → result even_state) (k : Z)
    (N : nat) (y u v s : ptr) (m : mem) :
  0 ≤ k →
  (∀ y u v s m,
     even_valid y u v s k m →
     ∃ m', body (y, u, v, s, m)
           = Ok (y +ₚ 2 * k, u +ₚ k, v +ₚ k, s +ₚ 4 * k, m') ∧
           dom m' = dom m ∧
           (even_sep y u v s k → xfer (even_map y u v s k) m m')) →
  even_valid y u v s (Z.of_nat N * k) m →
  ∃ m', repeatM N body (y, u, v, s, m)
        = Ok (y +ₚ 2 * (Z.of_nat N * k), u +ₚ Z.of_nat N * k,
              v +ₚ Z.of_nat N * k, s +ₚ 4 * (Z.of_nat N * k), m') ∧
        dom m' = dom m ∧
        (even_sep y u v s (Z.of_nat N * k) →
         xfer (even_map y u v s (Z.of_nat N * k)) m m').
Proof.
  intros Hk Hbody (Hs & Hy & Hu & Hv).
  destruct (repeatM_inv body
    (λ j st, ∃ m', st = (y +ₚ 2 * (j * k), u +ₚ j * k, v +ₚ j * k,
                         s +ₚ 4 * (j * k), m') ∧
                   dom m' = dom m ∧
                   (even_sep y u v s (Z.of_nat N * k) →
                    xfer (even_map y u v s (j * k)) m m'))
    N 0 (y, u, v, s, m)) as (st & Hrun & m' & -> & Hdom & X).
  - exists m. replace (0 * k) with 0 by lia. replace (4 * 0) with 0 by lia.
    replace (2 * 0) with 0 by lia. rewrite !shift_0.
    split; [done|]. split; [done|]. intros _. apply xfer_refl.
    intros q p [H|[H|H]]; destruct H as (j & Hj & _); lia.
  - intros j st Hj (m1 & -> & Hdom1 & X1).
    assert (0 ≤ j * k ∧ j * k + k ≤ Z.of_nat N * k) as [Hjk HjN] by nia.
    destruct (Hbody (y +ₚ 2 * (j * k)) (u +ₚ j * k) (v +ₚ j * k)
                (s +ₚ 4 * (j * k)) m1) as (m2 & -> & Hdom2 & X2).
    { repeat split; (apply (valid_rng_dom m); [done|]);
        (eapply valid_rng_sub; [eassumption|lia..]). }
    exists (y +ₚ 2 * ((j + 1) * k), u +ₚ (j + 1) * k, v +ₚ (j + 1) * k,
            s +ₚ 4 * ((j + 1) * k), m2). split.
    { rewrite !shift_shift. f_equal. apply even_state_eq; lia. }
    exists m2. split; [done|]. split; [congruence|]. intros Hsep.
    assert (even_sep y u v s (j * k + k)) as Hsep'
      by (eapply even_sep_mono; [eassumption|lia]).
    replace ((j + 1) * k) with (j * k + k) by lia.
    eapply even_xfer_app; [lia|lia|done|by apply X1|].
    apply X2. by apply even_sep_shift.
  - exists m'. replace (0 + Z.of_nat N) with (Z.of_nat N) in * by lia. done.
Qed.

Lemma odd_state_eq (y s : ptr) (m : mem) (a d a' d' : Z) :
  a = a' → d = d' → (y +ₚ a, s +ₚ d, m) = (y +ₚ a', s +ₚ d', m).
Proof. by intros -> ->. Qed.

Lemma odd_rows_iter (body : odd_state → result odd_state) (k : Z)
    (N : nat) (y s : ptr) (m : mem) :
  0 ≤ k →
  (∀ y s m,
     odd_valid y s k m →
     ∃ m', body (y, s, m) = Ok (y +ₚ 2 * k, s +ₚ 4 * k, m') ∧
           dom m' = dom m ∧
           (odd_sep y s k → xfer (odd_map y s k) m m')) →
  odd_valid y s (Z.of_nat N * k) m →
  ∃ m', repeatM N body (y, s, m)
        = Ok (y +ₚ 2 * (Z.of_nat N * k), s +ₚ 4 * (Z.of_nat N * k), m') ∧
        dom m' = dom m ∧
        (odd_sep y s (Z.of_nat N * k) →
         xfer (odd_map y s (Z.of_nat N * k)) m m').
Proof.
  intros Hk Hbody (Hs & Hy).
  destruct (repeatM_inv body
    (λ j st, ∃ m', st = (y +ₚ 2 * (j * k), s +ₚ 4 * (j * k), m') ∧
                   dom m' = dom m ∧
                   (odd_sep y s (Z.of_nat N * k) →
                    xfer (odd_map y s (j * k)) m m'))
    N 0 (y, s, m)) as (st & Hrun & m' & -> & Hdom & X).
  - exists m. replace (0 * k) with 0 by lia. replace (4 * 0) with 0 by lia.
    replace (2 * 0) with 0 by lia. rewrite !shift_0.
    split; [done|]. split; [done|]. intros _. apply xfer_refl.
    intros q p (j & Hj & _). lia.
  - intros j st Hj (m1 & -> & Hdom1 & X1).
    assert (0 ≤ j * k ∧ j * k + k ≤ Z.of_nat N * k) as [Hjk HjN] by nia.
    destruct (Hbody (y +ₚ 2 * (j * k)) (s +ₚ 4 * (j * k)) m1)
      as (m2 & -> & Hdom2 & X2).
    { repeat split; (apply (valid_rng_dom m); [done|]);
        (eapply valid_rng_sub; [eassumption|lia..]). }
    exists (y +ₚ 2 * ((j + 1) * k), s +ₚ 4 * ((j + 1) * k), m2). split.
    { rewrite !shift_shift. f_equal. apply odd_state_eq; lia. }
    exists m2. split; [done|]. split; [congruence|]. intros Hsep.
    assert (odd_sep y s (j * k + k)) as Hsep'
      by (eapply odd_sep_mono; [eassumption|lia]).
    replace ((j + 1) * k) with (j * k + k) by lia.
    eapply odd_xfer_app; [lia|lia|done|by apply X1|].
    apply X2. by apply odd_sep_shift.
  - exists m'. replace (0 + Z.of_nat N) with (Z.of_nat N) in * by lia. done.
Qed.

(** ** The NEON intrinsics *)

Lemma load_bytes_spec (m : mem) (n : nat) :
  ∀ p, valid_rng m p (Z.of_nat n) →
       ∃ l, load_bytes m p n = Ok l ∧ length l = n ∧
            ∀ j, 0 ≤ j < Z.of_nat n → l !! Z.to_nat j = m !! (p +ₚ j).
Proof.
  induction n as [|n IH]; intros p Hp; simpl.
  - exists []. split; [done|]. split; [done|]. intros j Hj. lia.
  - destruct (Hp 0) as [b Hb]; [lia|]. rewrite shift_0 in Hb.
    rewrite (load_Some _ _ _ Hb). simpl.
    destruct (IH (p +ₚ 1)) as (l & -> & Hlen & Hl).
    { eapply valid_rng_sub; [eassumption|lia..]. }
    simpl. exists (b :: l). split; [done|]. split; [by rewrite <- Hlen|].
    intros j Hj. destruct (decide (j = 0)) as [->|Hne].
    + by rewrite shift_0.
    + replace (Z.to_nat j) with (Datatypes.S (Z.to_nat (j - 1))) by lia.
      simpl. rewrite Hl by lia. rewrite shift_shift. f_equal.
      apply shift_eq. lia.
Qed.

Lemma store_bytes_spec (l : list Z) :
  ∀ (m : mem) (p : ptr),
    valid_rng m p (Z.of_nat (length l)) →
    ∃ m', store_bytes m p l = Ok m' ∧ dom m' = dom m ∧
          (∀ q, ¬ in_rng p (Z.of_nat (length l)) q → m' !! q = m !! q) ∧
          (∀ j, 0 ≤ j < Z.of_nat (length l) →
                m' !! (p +ₚ j) = l !! Z.to_nat j).
Proof.
  induction l as [|b l IH]; intros m p Hp; simpl.
  - exists m. split; [done|]. split; [done|]. split; [done|]. intros j Hj.
    simpl in Hj. lia.
  - assert (is_Some (m !! p)) as Hv.
    { rewrite <- (shift_0 p). apply Hp. simpl. lia. }
    rewrite (store_Some _ _ _ Hv). simpl.
    destruct (IH (<[p := b]> m) (p +ₚ 1)) as (m' & -> & Hdom & Hframe & Hval).
    { eapply valid_rng_dom; [by apply dom_insert_valid|].
      eapply valid_rng_sub; [eassumption|simpl length; lia..]. }
    exists m'. split; [done|].
    split; [by rewrite Hdom, dom_insert_valid|]. split.
    + intros q Hq. rewrite Hframe.
      * apply lookup_insert_ne. intros <-. apply Hq.
        unfold in_rng. simpl length. lia.
      * intros Hin. apply Hq. eapply in_rng_sub; [| |exact Hin];
          simpl length; lia.
    + intros j Hj. destruct (decide (j = 0)) as [->|Hne].
      * rewrite shift_0, Hframe; [by rewrite lookup_insert_eq|].
        unfold in_rng, shift; simpl. lia.
      * replace (Z.to_nat j) with (Datatypes.S (Z.to_nat (j - 1))) by lia.
        simpl. rewrite <- Hval by (simpl length in Hj; lia).
        rewrite shift_shift. f_equal. apply shift_eq. lia.
Qed.

Lemma deinterleave_spec (n : nat) :
  ∀ l : list Z,
    length l = (2 * n)%nat →
    length (deinterleave l).1 = n ∧ length (deinterleave l).2 = n ∧
    ∀ j, (j < n)%nat →
         (deinterleave l).1 !! j = l !! (2 * j)%nat ∧
         (deinterleave l).2 !! j = l !! (2 * j + 1)%nat.
Proof.
  induction n as [|n IH]; intros l Hlen.
  - destruct l; [|done]. simpl. repeat split; intros; lia.
  - destruct l as [|a [|b l]]; [done|simpl in Hlen; lia|].
    destruct (IH l) as (H1 & H2 & Hl); [simpl in Hlen; lia|].
    cbn [deinterleave]. destruct (deinterleave l) as [e o].
    cbn [fst snd length] in *.
    split; [lia|]. split; [lia|]. intros [|j] Hj; [done|].
    replace (2 * Datatypes.S j)%nat
      with (Datatypes.S (Datatypes.S (2 * j))) by lia.
    apply (Hl j). lia.
Qed.

Lemma in_rng_shift (p : ptr) (n : Z) (q : ptr) :
  in_rng p n q → ∃ j, 0 ≤ j < n ∧ q = p +ₚ j.
Proof.
  destruct p as [b o], q as [b' o']. unfold in_rng, shift; simpl.
  intros [-> Ho]. exists (o' - o). split; [lia|]. f_equal. lia.
Qed.

Lemma unpack_even_body_neon_spec (y u v s : ptr) (m : mem) :
  even_valid y u v s 8 m →
  ∃ m', unpack_even_body_neon (y, u, v, s, m)
        = Ok (y +ₚ 2 * 8, u +ₚ 8, v +ₚ 8, s +ₚ 4 * 8, m') ∧
        dom m' = dom m ∧
        (even_sep y u v s 8 → xfer (even_map y u v s 8) m m').
Proof.
  intros (Hs & Hy & Hu & Hv).
  unfold unpack_even_body_neon, vld2q_u8, vst1q_u8, vst1_u8, vld2_u8_local.
  destruct (load_bytes_spec m 32 s Hs) as (l & -> & Hlen & Hl). simpl.
  destruct (deinterleave_spec 16 l Hlen) as (Hlen1 & Hlen2 & Hd).
  destruct (deinterleave l) as [ys uv]. cbn [fst snd] in *.
  destruct (deinterleave_spec 8 uv Hlen2) as (Hlen3 & Hlen4 & Hd').
  destruct (deinterleave uv) as [us vs]. cbn [fst snd] in *.
  destruct (store_bytes_spec ys m y) as (m1 & -> & Hd1 & F1 & V1);
    [by rewrite Hlen1|]. simpl.
  destruct (store_bytes_spec us m1 u) as (m2 & -> & Hd2 & F2 & V2);
    [rewrite Hlen3; by apply (valid_rng_dom m)|]. simpl.
  destruct (store_bytes_spec vs m2 v) as (m3 & -> & Hd3 & F3 & V3);
    [rewrite Hlen4; apply (valid_rng_dom m); [congruence|done]|]. simpl.
  rewrite Hlen1 in F1, V1. rewrite Hlen3 in F2, V2. rewrite Hlen4 in F3, V3.
  exists m3. split; [done|]. split; [congruence|].
  intros (Hyu & Hyv & Huv & Hsy & Hsu & Hsv).
  split; [congruence|]. split.
  - intros q Hq. rewrite F3, F2, F1; [done|..].
    + intros (j & Hj & ->)%in_rng_shift.
      apply (Hq (s +ₚ 2 * j)). left. exists j. split; [lia|done].
    + intros (j & Hj & ->)%in_rng_shift.
      apply (Hq (s +ₚ (4 * j + 1))). right; left. by exists j.
    + intros (j & Hj & ->)%in_rng_shift.
      apply (Hq (s +ₚ (4 * j + 3))). right; right. by exists j.
  - intros q p [(j & Hj & -> & ->)|[(j & Hj & -> & ->)|(j & Hj & -> & ->)]].
    + rewrite F3, F2, V1 by (try lia; ptr_lia).
      destruct (Hd (Z.to_nat j)) as [-> _]; [lia|].
      replace (2 * Z.to_nat j)%nat with (Z.to_nat (2 * j)) by lia.
      apply Hl. lia.
    + rewrite F3, V2 by (try lia; ptr_lia).
      destruct (Hd' (Z.to_nat j)) as [-> _]; [lia|].
      destruct (Hd (2 * Z.to_nat j)%nat) as [_ ->]; [lia|].
      replace (2 * (2 * Z.to_nat j) + 1)%nat with (Z.to_nat (4 * j + 1)) by lia.
      apply Hl. lia.
    + rewrite V3 by lia.
      destruct (Hd' (Z.to_nat j)) as [_ ->]; [lia|].
      destruct (Hd (2 * Z.to_nat j + 1)%nat) as [_ ->]; [lia|].
      replace (2 * (2 * Z.to_nat j + 1) + 1)%nat
        with (Z.to_nat (4 * j + 3)) by lia.
      apply Hl. lia.
Qed.

Lemma unpack_odd_body_neon_spec (y s : ptr) (m : mem) :
  odd_valid y s 8 m →
  ∃ m', unpack_odd_body_neon (y, s, m) = Ok (y +ₚ 2 * 8, s +ₚ 4 * 8, m') ∧
        dom m' = dom m ∧
        (odd_sep y s 8 → xfer (odd_map y s 8) m m').
Proof.
  intros (Hs & Hy).
  unfold unpack_odd_body_neon, vld2q_u8, vst1q_u8.
  destruct (load_bytes_spec m 32 s Hs) as (l & -> & Hlen & Hl). simpl.
  destruct (deinterleave_spec 16 l Hlen) as (Hlen1 & Hlen2 & Hd).
  destruct (deinterleave l) as [ys uv]. cbn [fst snd] in *.
  destruct (store_bytes_spec ys m y) as (m1 & -> & Hd1 & F1 & V1);
    [by rewrite Hlen1|]. simpl.
  rewrite Hlen1 in F1, V1.
  exists m1. split; [done|]. split; [done|]. intros Hsep.
  split; [done|]. split.
  - intros q Hq. apply F1. intros (j & Hj & ->)%in_rng_shift.
    apply (Hq (s +ₚ 2 * j)). exists j. split; [lia|done].
  - intros q p (j & Hj & -> & ->). rewrite V1 by lia.
    destruct (Hd (Z.to_nat j)) as [-> _]; [lia|].
    replace (2 * Z.to_nat j)%nat with (Z.to_nat (2 * j)) by lia.
    apply Hl. lia.
Qed.

(** ** The row unpackers *)

Ltac zlia := Z.to_euclidean_division_equations; lia.

Lemma unpack_even_total (t : target) (y u v s : ptr) (stride : Z) (m : mem) :
  0 ≤ stride ≤ INT_MAX → stride mod block_bytes t = 0 →
  even_valid y u v s (stride / 4) m →
  ∃ m', unpack_even t y u v s stride m = Ok m' ∧ dom m' = dom m ∧
        (even_sep y u v s (stride / 4) →
         xfer (even_map y u v s (stride / 4)) m m').
Proof.
  intros Hstride Hmod Hvalid. unfold unpack_even, INT_MAX in *.
  destruct t; simpl in Hmod.
  - rewrite (for_loop_repeat _ stride 4 ltac:(lia) (Z.to_nat (stride / 4)));
      unfold INT_MIN, INT_MAX; [|zlia..].
    destruct (even_rows_iter unpack_even_body 1 (Z.to_nat (stride / 4))
                y u v s m) as (m' & -> & Hdom & X); [lia| |..].
    { intros. by apply unpack_even_body_spec. }
    { by replace (Z.of_nat (Z.to_nat (stride / 4)) * 1) with (stride / 4)
        by zlia. }
    replace (Z.of_nat (Z.to_nat (stride / 4)) * 1) with (stride / 4) in X
      by zlia.
    simpl. eauto.
  - rewrite (for_loop_repeat _ stride 32 ltac:(lia) (Z.to_nat (stride / 32)));
      unfold INT_MIN, INT_MAX; [|zlia..].
    destruct (even_rows_iter unpack_even_body_neon 8 (Z.to_nat (stride / 32))
                y u v s m) as (m' & -> & Hdom & X); [lia| |..].
    { intros. by apply unpack_even_body_neon_spec. }
    { by replace (Z.of_nat (Z.to_nat (stride / 32)) * 8) with (stride / 4)
        by zlia. }
    replace (Z.of_nat (Z.to_nat (stride / 32)) * 8) with (stride / 4) in X
      by zlia.
    simpl. eauto.
Qed.

Lemma unpack_odd_total (t : target) (y s : ptr) (stride : Z) (m : mem) :
  0 ≤ stride ≤ INT_MAX → stride mod block_bytes t = 0 →
  odd_valid y s (stride / 4) m →
  ∃ m', unpack_odd t y s stride m = Ok m' ∧ dom m' = dom m ∧
        (odd_sep y s (stride / 4) → xfer (odd_map y s (stride / 4)) m m').
Proof.
  intros Hstride Hmod Hvalid. unfold unpack_odd, INT_MAX in *.
  destruct t; simpl in Hmod.
  - rewrite (for_loop_repeat _ stride 4 ltac:(lia) (Z.to_nat (stride / 4)));
      unfold INT_MIN, INT_MAX; [|zlia..].
    destruct (odd_rows_iter unpack_odd_body 1 (Z.to_nat (stride / 4))
                y s m) as (m' & -> & Hdom & X); [lia| |..].
    { intros. by apply unpack_odd_body_spec. }
    { by replace (Z.of_nat (Z.to_nat (stride / 4)) * 1) with (stride / 4)
        by zlia. }
    replace (Z.of_nat (Z.to_nat (stride / 4)) * 1) with (stride / 4) in X
      by zlia.
    simpl. eauto.
  - rewrite (for_loop_repeat _ stride 32 ltac:(lia) (Z.to_nat (stride / 32)));
      unfold INT_MIN, INT_MAX; [|zlia..].
    destruct (odd_rows_iter unpack_odd_body_neon 8 (Z.to_nat (stride / 32))
                y s m) as (m' & -> & Hdom & X); [lia| |..].
    { intros. by apply unpack_odd_body_neon_spec. }
    { by replace (Z.of_nat (Z.to_nat (stride / 32)) * 8) with (stride / 4)
        by zlia. }
    replace (Z.of_nat (Z.to_nat (stride / 32)) * 8) with (stride / 4) in X
      by zlia.
    simpl. eauto.
Qed.

(** ** Frames in row pairs *)

Lemma frame_map_rng (y u v s : ptr) (n P : Z) (q p : ptr) :
  0 ≤ n → 0 ≤ P → frame_map y u v s n P q p →
  (in_rng y (2 * P * (2 * n)) q ∨ in_rng u (P * n) q ∨ in_rng v (P * n) q) ∧
  in_rng s (2 * P * (4 * n)) p.
Proof.
  intros Hn HP [(r & Hr & j & Hj & -> & ->)|[(r & Hr & j & Hj & -> & ->)|
                (r & Hr & j & Hj & -> & ->)]];
    assert (0 ≤ r * n ∧ r * n + n ≤ 2 * P * n) as [Hrn HrP] by nia;
    unfold in_rng, shift; simpl.
  - split; [left|]; lia.
  - assert (r * n + n ≤ P * n) by nia. split; [right; left|]; lia.
  - assert (r * n + n ≤ P * n) by nia. split; [right; right|]; lia.
Qed.

Lemma frame_map_step (y u v s : ptr) (n j : Z) (q p : ptr) :
  0 ≤ j →
  frame_map y u v s n (j + 1) q p ↔
  (frame_map y u v s n j q p ∨
   even_map (y +ₚ 2 * j * (2 * n)) (u +ₚ j * n) (v +ₚ j * n)
     (s +ₚ 2 * j * (4 * n)) n q p) ∨
  odd_map (y +ₚ (2 * j + 1) * (2 * n)) (s +ₚ (2 * j + 1) * (4 * n)) n q p.
Proof.
  intros Hj. unfold frame_map, even_map, odd_map. split.
  - intros [(r & Hr & H)|[(r & Hr & H)|(r & Hr & H)]].
    + destruct (decide (r < 2 * j)); [left; left; left; exists r; split; [lia|done]|].
      destruct (decide (r = 2 * j)) as [->|]; [left; right; by left|].
      assert (r = 2 * j + 1) as -> by lia. by right.
    + destruct (decide (r < j)); [left; left; right; left; exists r; split; [lia|done]|].
      assert (r = j) as -> by lia. left; right; right; by left.
    + destruct (decide (r < j)); [left; left; right; right; exists r; split; [lia|done]|].
      assert (r = j) as -> by lia. left; right; right; by right.
  - intros [[[(r & Hr & H)|[(r & Hr & H)|(r & Hr & H)]]|[H|[H|H]]]|H].
    + left. exists r. split; [lia|done].
    + right; left. exists r. split; [lia|done].
    + right; right. exists r. split; [lia|done].
    + left. exists (2 * j). split; [lia|done].
    + right; left. exists j. split; [lia|done].
    + right; right. exists j. split; [lia|done].
    + left. exists (2 * j + 1). split; [lia|done].
Qed.

Lemma frame_sep_even (y u v s : ptr) (n j P : Z) :
  0 ≤ n → 0 ≤ j < P → frame_sep y u v s n P →
  even_sep (y +ₚ 2 * j * (2 * n)) (u +ₚ j * n) (v +ₚ j * n)
    (s +ₚ 2 * j * (4 * n)) n.
Proof.
  intros Hn Hj (Hyu & Hyv & Huv & Hsy & Hsu & Hsv).
  assert (0 ≤ j * n ∧ j * n + n ≤ P * n) as [Hjn HjP] by nia.
  repeat split; (eapply disjoint_rng_sub; [eassumption|lia..]).
Qed.

Lemma frame_sep_odd (y u v s : ptr) (n j P : Z) :
  0 ≤ n → 0 ≤ j < P → frame_sep y u v s n P →
  odd_sep (y +ₚ (2 * j + 1) * (2 * n)) (s +ₚ (2 * j + 1) * (4 * n)) n.
Proof.
  intros Hn Hj (Hyu & Hyv & Huv & Hsy & Hsu & Hsv).
  assert (0 ≤ j * n ∧ j * n + n ≤ P * n) as [Hjn HjP] by nia.
  eapply disjoint_rng_sub; [eassumption|lia..].
Qed.

Lemma frame_sep_mono (y u v s : ptr) (n P P' : Z) :
  0 ≤ n → 0 ≤ P' ≤ P → frame_sep y u v s n P → frame_sep y u v s n P'.
Proof.
  intros Hn HP (Hyu & Hyv & Huv & Hsy & Hsu & Hsv).
  assert (P' * n ≤ P * n) by nia.
  repeat split; (eapply disjoint_rng_mono; [eassumption|lia..]).
Qed.

Lemma frame_valid_even (y u v s : ptr) (n j P : Z) (m : mem) :
  0 ≤ n → 0 ≤ j < P → frame_valid y u v s n P m →
  even_valid (y +ₚ 2 * j * (2 * n)) (u +ₚ j * n) (v +ₚ j * n)
    (s +ₚ 2 * j * (4 * n)) n m.
Proof.
  intros Hn Hj (Hs & Hy & Hu & Hv).
  assert (0 ≤ j * n ∧ j * n + n ≤ P * n) as [Hjn HjP] by nia.
  repeat split; (eapply valid_rng_sub; [eassumption|lia..]).
Qed.

Lemma frame_valid_odd (y u v s : ptr) (n j P : Z) (m : mem) :
  0 ≤ n → 0 ≤ j < P → frame_valid y u v s n P m →
  odd_valid (y +ₚ (2 * j + 1) * (2 * n)) (s +ₚ (2 * j + 1) * (4 * n)) n m.
Proof.
  intros Hn Hj (Hs & Hy & Hu & Hv).
  assert (0 ≤ j * n ∧ j * n + n ≤ P * n) as [Hjn HjP] by nia.
  repeat split; (eapply valid_rng_sub; [eassumption|lia..]).
Qed.

Lemma frame_xfer_step (y u v s : ptr) (n j : Z) (m m1 m2 m3 : mem) :
  0 ≤ n → 0 ≤ j → frame_sep y u v s n (j + 1) →
  xfer (frame_map y u v s n j) m m1 →
  xfer (even_map (y +ₚ 2 * j * (2 * n)) (u +ₚ j * n) (v +ₚ j * n)
          (s +ₚ 2 * j * (4 * n)) n) m1 m2 →
  xfer (odd_map (y +ₚ (2 * j + 1) * (2 * n))
          (s +ₚ (2 * j + 1) * (4 * n)) n) m2 m3 →
  xfer (frame_map y u v s n (j + 1)) m m3.
Proof.
  intros Hn Hj Hsep X1 X2 X3.
  eapply xfer_iff; [intros; symmetry; by apply frame_map_step|].
  assert (0 ≤ j * n) as Hjn by nia.
  destruct Hsep as (Hyu & Hyv & Huv & Hsy & Hsu & Hsv).
  eapply xfer_seq; [eapply xfer_seq; [exact X1|exact X2|..]|exact X3|..].
  - intros q p p' [H1 _]%frame_map_rng [H2 _]%even_map_rng; [|lia..]. ptr_lia.
  - intros q p p' [_ H2]%even_map_rng [H1 _]%frame_map_rng; [|lia..]. ptr_lia.
  - intros q p p' [[H1 _]%frame_map_rng|[H1 _]%even_map_rng]
      [H2 _]%luma_map_rng; [|lia..|]; ptr_lia.
  - intros q p p' [_ H2]%luma_map_rng
      [[H1 _]%frame_map_rng|[H1 _]%even_map_rng]; [|lia..|]; ptr_lia.
Qed.

Lemma even_valid_dom (y u v s : ptr) (n : Z) (m m' : mem) :
  dom m' = dom m → even_valid y u v s n m → even_valid y u v s n m'.
Proof.
  intros Hdom (Hs & Hy & Hu & Hv).
  repeat split; by apply (valid_rng_dom m).
Qed.

Lemma odd_valid_dom (y s : ptr) (n : Z) (m m' : mem) :
  dom m' = dom m → odd_valid y s n m → odd_valid y s n m'.
Proof. intros Hdom (Hs & Hy). split; by apply (valid_rng_dom m). Qed.

(** ** The frame converter *)

Lemma frame_pairs_iter (t : target) (y u v s : ptr) (stride : Z) (P : nat)
    (m : mem) :
  0 ≤ stride ≤ INT_MAX → stride mod block_bytes t = 0 →
  frame_valid y u v s (stride / 4) (Z.of_nat P) m →
  ∃ m', repeatM P (row_pair t stride) (y, u, v, s, m)
        = Ok (y +ₚ 2 * Z.of_nat P * (2 * (stride / 4)),
              u +ₚ Z.of_nat P * (stride / 4),
              v +ₚ Z.of_nat P * (stride / 4),
              s +ₚ 2 * Z.of_nat P * (4 * (stride / 4)), m') ∧
        dom m' = dom m ∧
        (frame_sep y u v s (stride / 4) (Z.of_nat P) →
         xfer (frame_map y u v s (stride / 4) (Z.of_nat P)) m m').
Proof.
  intros Hstride Hmod Hvalid.
  assert (stride mod 4 = 0) as Hmod4 by (destruct t; simpl in Hmod; zlia).
  assert (stride ÷ 2 = 2 * (stride / 4) ∧ stride ÷ 4 = stride / 4 ∧
          stride = 4 * (stride / 4) ∧ 0 ≤ stride / 4) as (Hq2 & Hq4 & Hs4 & Hn)
    by zlia.
  revert Hvalid. generalize dependent (stride / 4). intros n Hq2 Hq4 Hs4 Hn Hvalid.
  destruct (repeatM_inv (row_pair t stride)
    (λ j st, ∃ m', st = (y +ₚ 2 * j * (2 * n), u +ₚ j * n, v +ₚ j * n,
                         s +ₚ 2 * j * (4 * n), m') ∧
                   dom m' = dom m ∧
                   (frame_sep y u v s n (Z.of_nat P) →
                    xfer (frame_map y u v s n j) m m'))
    P 0 (y, u, v, s, m)) as (st & Hrun & m' & -> & Hdom & X).
  - exists m. replace (2 * 0 * (2 * n)) with 0 by lia.
    replace (2 * 0 * (4 * n)) with 0 by lia. replace (0 * n) with 0 by lia.
    rewrite !shift_0. split; [done|]. split; [done|]. intros _.
    apply xfer_refl. intros q p [H|[H|H]]; destruct H as (r & Hr & _); lia.
  - intros j st Hj (m1 & -> & Hdom1 & X1). unfold row_pair.
    destruct (unpack_even_total t (y +ₚ 2 * j * (2 * n)) (u +ₚ j * n)
                (v +ₚ j * n) (s +ₚ 2 * j * (4 * n)) stride m1)
      as (m2 & -> & Hdom2 & X2); [done..| |].
    { replace (stride / 4) with n by zlia. apply (even_valid_dom _ _ _ _ _ m);
        [done|]. eapply frame_valid_even; [done| |eassumption]. lia. }
    simpl.
    assert (y +ₚ 2 * j * (2 * n) +ₚ stride ÷ 2 = y +ₚ (2 * j + 1) * (2 * n))
      as -> by (rewrite shift_shift; apply shift_eq; lia).
    assert (s +ₚ 2 * j * (4 * n) +ₚ stride = s +ₚ (2 * j + 1) * (4 * n))
      as -> by (rewrite shift_shift; apply shift_eq; lia).
    destruct (unpack_odd_total t (y +ₚ (2 * j + 1) * (2 * n))
                (s +ₚ (2 * j + 1) * (4 * n)) stride m2)
      as (m3 & -> & Hdom3 & X3); [done..| |].
    { replace (stride / 4) with n by zlia. apply (odd_valid_dom _ _ _ m);
        [congruence|]. eapply frame_valid_odd; [done| |eassumption]. lia. }
    simpl.
    exists (y +ₚ 2 * (j + 1) * (2 * n), u +ₚ (j + 1) * n, v +ₚ (j + 1) * n,
            s +ₚ 2 * (j + 1) * (4 * n), m3). split.
    { rewrite !shift_shift. f_equal. apply even_state_eq; lia. }
    exists m3. split; [done|]. split; [congruence|]. intros Hsep.
    replace (stride / 4) with n in X2, X3 by zlia.
    eapply frame_xfer_step; [done|lia| |by apply X1| |].
    + eapply frame_sep_mono; [done| |eassumption]. lia.
    + apply X2. eapply frame_sep_even; [done| |eassumption]. lia.
    + apply X3. eapply frame_sep_odd; [done| |eassumption]. lia.
  - exists m'. replace (0 + Z.of_nat P) with (Z.of_nat P) in * by lia. done.
Qed.

Lemma convert_total (t : target) (y u v s : ptr) (stride height : Z)
    (m : mem) :
  0 ≤ stride ≤ INT_MAX → stride mod block_bytes t = 0 →
  0 ≤ height ≤ INT_MAX → height mod 2 = 0 →
  frame_valid y u v s (stride / 4) (height / 2) m →
  ∃ m', yuyv_to_yuv420p t y u v s stride height m = Ok m' ∧
        dom m' = dom m ∧
        (frame_sep y u v s (stride / 4) (height / 2) →
         xfer (frame_map y u v s (stride / 4) (height / 2)) m m').
Proof.
  intros Hstride Hmod Hheight Hmod2 Hvalid.
  unfold yuyv_to_yuv420p, INT_MAX in *.
  rewrite (for_loop_repeat _ height 2 ltac:(lia) (Z.to_nat (height / 2)));
    unfold INT_MIN, INT_MAX; [|zlia..].
  assert (Z.of_nat (Z.to_nat (height / 2)) = height / 2) as HP by zlia.
  destruct (frame_pairs_iter t y u v s stride (Z.to_nat (height / 2)) m)
    as (m' & -> & Hdom & X); [done|done|by rewrite HP|].
  rewrite HP in X. simpl. eauto.
Qed.

(** ** What a run leaves alone *)

Lemma outputs_only_refl (y u v : ptr) (m : mem) : outputs_only y u v m m.
Proof. by split. Qed.

Lemma outputs_only_trans (y u v : ptr) (m1 m2 m3 : mem) :
  outputs_only y u v m1 m2 → outputs_only y u v m2 m3 →
  outputs_only y u v m1 m3.
Proof.
  intros [Hd1 H1] [Hd2 H2]. split; [congruence|].
  intros q Hy Hu Hv. by rewrite H2, H1.
Qed.

Lemma store_outputs_only (y u v p : ptr) (b : Z) (m m' : mem) :
  p.1 = y.1 ∨ p.1 = u.1 ∨ p.1 = v.1 →
  store m p b = Ok m' → outputs_only y u v m m'.
Proof.
  intros Hp [Hv ->]%store_Ok. split; [by apply dom_insert_valid|].
  intros q Hqy Hqu Hqv. apply lookup_insert_ne. intros <-. tauto.
Qed.

Lemma store_bytes_outputs_only (y u v : ptr) (l : list Z) :
  ∀ (p : ptr) (m m' : mem),
    p.1 = y.1 ∨ p.1 = u.1 ∨ p.1 = v.1 →
    store_bytes m p l = Ok m' → outputs_only y u v m m'.
Proof.
  induction l as [|b l IH]; intros p m m' Hp; simpl.
  - intros [= <-]. apply outputs_only_refl.
  - intros (m1 & Hst & Hrun)%bind_Ok.
    eapply outputs_only_trans; [by eapply store_outputs_only|].
    by eapply (IH (p +ₚ 1)).
Qed.

Ltac inv_run H :=
  repeat (apply bind_Ok in H as (? & ? & H); simpl in H);
  injection H as <-.

Lemma unpack_even_body_inv (y u v : ptr) (m0 : mem) (st st' : even_state) :
  even_inv y u v m0 st → unpack_even_body st = Ok st' → even_inv y u v m0 st'.
Proof.
  destruct st as [[[[y' u'] v'] s'] m]. intros (Hy & Hu & Hv & Hm) Hrun.
  unfold unpack_even_body in Hrun. inv_run Hrun. simpl.
  split; [done|]. split; [done|]. split; [done|].
  repeat (eapply outputs_only_trans;
            [|eapply store_outputs_only; [|eassumption]; simpl; tauto]).
  done.
Qed.

Lemma unpack_even_body_neon_inv (y u v : ptr) (m0 : mem)
    (st st' : even_state) :
  even_inv y u v m0 st → unpack_even_body_neon st = Ok st' →
  even_inv y u v m0 st'.
Proof.
  destruct st as [[[[y' u'] v'] s'] m]. intros (Hy & Hu & Hv & Hm) Hrun.
  unfold unpack_even_body_neon, vst1q_u8, vst1_u8 in Hrun. inv_run Hrun.
  simpl. split; [done|]. split; [done|]. split; [done|].
  repeat (eapply outputs_only_trans;
            [|eapply store_bytes_outputs_only; [|eassumption]; simpl; tauto]).
  done.
Qed.

Lemma unpack_odd_body_inv (y u v : ptr) (m0 : mem) (st st' : odd_state) :
  odd_inv y u v m0 st → unpack_odd_body st = Ok st' → odd_inv y u v m0 st'.
Proof.
  destruct st as [[y' s'] m]. intros (Hy & Hm) Hrun.
  unfold unpack_odd_body in Hrun. inv_run Hrun. simpl.
  split; [done|].
  repeat (eapply outputs_only_trans;
            [|eapply store_outputs_only; [|eassumption]; simpl; tauto]).
  done.
Qed.

Lemma unpack_odd_body_neon_inv (y u v : ptr) (m0 : mem)
    (st st' : odd_state) :
  odd_inv y u v m0 st → unpack_odd_body_neon st = Ok st' →
  odd_inv y u v m0 st'.
Proof.
  destruct st as [[y' s'] m]. intros (Hy & Hm) Hrun.
  unfold unpack_odd_body_neon, vst1q_u8 in Hrun. inv_run Hrun.
  simpl. split; [done|].
  eapply outputs_only_trans;
    [|eapply store_bytes_outputs_only; [|eassumption]; simpl; tauto].
  done.
Qed.

Lemma unpack_even_outputs (t : target) (y u v s : ptr) (stride : Z)
    (m m' : mem) :
  unpack_even t y u v s stride m = Ok m' → outputs_only y u v m m'.
Proof.
  unfold unpack_even. intros ([[[[y' u'] v'] s'] m1] & Hrun & [= <-])%bind_Ok.
  assert (even_inv y u v m (y', u', v', s', m1)) as (_ & _ & _ & H); [|done].
  destruct t.
  - eapply (for_loop_inv unpack_even_body); [|  |exact Hrun].
    + apply unpack_even_body_inv.
    + split; [done|]. split; [done|]. split; [done|]. apply outputs_only_refl.
  - eapply (for_loop_inv unpack_even_body_neon); [|  |exact Hrun].
    + apply unpack_even_body_neon_inv.
    + split; [done|]. split; [done|]. split; [done|]. apply outputs_only_refl.
Qed.

Lemma unpack_odd_outputs (t : target) (y u v y' s : ptr) (stride : Z)
    (m m' : mem) :
  y'.1 = y.1 → unpack_odd t y' s stride m = Ok m' → outputs_only y u v m m'.
Proof.
  intros Hy. unfold unpack_odd. intros ([[y1 s1] m1] & Hrun & [= <-])%bind_Ok.
  assert (odd_inv y u v m (y1, s1, m1)) as (_ & H); [|done].
  destruct t.
  - eapply (for_loop_inv unpack_odd_body); [|  |exact Hrun].
    + apply unpack_odd_body_inv.
    + split; [done|]. apply outputs_only_refl.
  - eapply (for_loop_inv unpack_odd_body_neon); [|  |exact Hrun].
    + apply unpack_odd_body_neon_inv.
    + split; [done|]. apply outputs_only_refl.
Qed.

Lemma row_pair_inv (t : target) (stride : Z) (y u v : ptr) (m0 : mem)
    (st st' : even_state) :
  even_inv y u v m0 st → row_pair t stride st = Ok st' →
  even_inv y u v m0 st'.
Proof.
  destruct st as [[[[y' u'] v'] s'] m]. intros (Hy & Hu & Hv & Hm) Hrun.
  unfold row_pair in Hrun.
  apply bind_Ok in Hrun as (m1 & Heven & Hrun).
  apply bind_Ok in Hrun as (m2 & Hodd & [= <-]). simpl.
  split; [done|]. split; [done|]. split; [done|].
  eapply outputs_only_trans; [exact Hm|].
  eapply outputs_only_trans.
  - destruct (unpack_even_outputs _ _ _ _ _ _ _ _ Heven) as [Hd H].
    split; [done|]. intros q Hqy Hqu Hqv. apply H; congruence.
  - eapply unpack_odd_outputs; [|exact Hodd]. done.
Qed.

Lemma convert_outputs (t : target) (y u v s : ptr) (stride height : Z)
    (m m' : mem) :
  yuyv_to_yuv420p t y u v s stride height m = Ok m' →
  outputs_only y u v m m'.
Proof.
  unfold yuyv_to_yuv420p.
  intros ([[[[y' u'] v'] s'] m1] & Hrun & [= <-])%bind_Ok.
  assert (even_inv y u v m (y', u', v', s', m1)) as (_ & _ & _ & H); [|done].
  eapply (for_loop_inv (row_pair t stride)); [|  |exact Hrun].
  - apply row_pair_inv.
  - split; [done|]. split; [done|]. split; [done|]. apply outputs_only_refl.
Qed.

(** ** The fuel of the loops is enough *)

Lemma bind_fuel {A B : Type} (r : result A) (k : A → result B) :
  r ≠ Err OutOfFuel → (∀ a, k a ≠ Err OutOfFuel) → r ≫= k ≠ Err OutOfFuel.
Proof. destruct r as [a|e]; simpl; [auto|congruence]. Qed.

Lemma load_fuel (m : mem) (p : ptr) : load m p ≠ Err OutOfFuel.
Proof. unfold load. by case_match. Qed.

Lemma store_fuel (m : mem) (p : ptr) (b : Z) : store m p b ≠ Err OutOfFuel.
Proof. unfold store. by case_match. Qed.

Lemma load_bytes_fuel (m : mem) (n : nat) :
  ∀ p, load_bytes m p n ≠ Err OutOfFuel.
Proof.
  induction n as [|n IH]; intros p; simpl; [done|].
  apply bind_fuel; [apply load_fuel|]. intros b.
  apply bind_fuel; [apply IH|done].
Qed.

Lemma store_bytes_fuel (l : list Z) :
  ∀ m p, store_bytes m p l ≠ Err OutOfFuel.
Proof.
  induction l as [|b l IH]; intros m p; simpl; [done|].
  apply bind_fuel; [apply store_fuel|]. intros m'. apply IH.
Qed.

Ltac fuel_steps :=
  repeat first
    [ apply bind_fuel; [|intros ?]
    | apply load_fuel | apply store_fuel
    | apply load_bytes_fuel | apply store_bytes_fuel
    | done ].

Lemma for_loop_fuel {S : Type} (body : S → result S) (bound step : Z) :
  0 < step → (∀ s, body s ≠ Err OutOfFuel) →
  ∀ (fuel : nat) (i : Z) (s : S),
    (Z.to_nat (bound - i) ≤ fuel)%nat →
    for_loop fuel i bound step body s ≠ Err OutOfFuel.
Proof.
  intros Hstep Hbody. induction fuel as [|fuel IH]; intros i s Hfuel; simpl.
  - assert ((i <? bound) = false) as -> by (apply Z.ltb_ge; lia). done.
  - case_match; [|done]. apply bind_fuel; [apply Hbody|]. intros s'.
    unfold int_add. case_match; simpl; [|done].
    apply IH. apply Z.ltb_lt in H. lia.
Qed.

Lemma unpack_even_fuel (t : target) (y u v s : ptr) (stride : Z) (m : mem) :
  unpack_even t y u v s stride m ≠ Err OutOfFuel.
Proof.
  unfold unpack_even. apply bind_fuel; [|done].
  destruct t; (apply for_loop_fuel; [lia| |lia]);
    intros [[[[y' u'] v'] s'] m'];
    unfold unpack_even_body, unpack_even_body_neon, vld2q_u8, vst1q_u8,
      vst1_u8; fuel_steps.
Qed.

Lemma unpack_odd_fuel (t : target) (y s : ptr) (stride : Z) (m : mem) :
  unpack_odd t y s stride m ≠ Err OutOfFuel.
Proof.
  unfold unpack_odd. apply bind_fuel; [|done].
  destruct t; (apply for_loop_fuel; [lia| |lia]);
    intros [[y' s'] m'];
    unfold unpack_odd_body, unpack_odd_body_neon, vld2q_u8, vst1q_u8;
    fuel_steps.
Qed.

(** No run of the converter ends for lack of fuel: the fuel is a device of
    the embedding, and the loops of the code end. *)
Lemma convert_fuel (t : target) (y u v s : ptr) (stride height : Z)
    (m : mem) :
  yuyv_to_yuv420p t y u v s stride height m ≠ Err OutOfFuel.
Proof.
  unfold yuyv_to_yuv420p. apply bind_fuel; [|done].
  apply for_loop_fuel; [lia| |lia].
  intros [[[[y' u'] v'] s'] m']. unfold row_pair.
  apply bind_fuel; [apply unpack_even_fuel|]. intros m1.
  apply bind_fuel; [apply unpack_odd_fuel|done].
Qed.

(** ** The row pairs of a frame *)

Lemma repeat_row_pairs (t : target) (y u v s : ptr) (stride : Z) (n : nat) :
  ∀ (k : Z) (m : mem),
    (st ← repeatM n (row_pair t stride)
            (y +ₚ 2 * k * (stride ÷ 2), u +ₚ k * (stride ÷ 4),
             v +ₚ k * (stride ÷ 4), s +ₚ 2 * k * stride, m);
     Ok st.2)
    = row_pairs t y u v s stride k n m.
Proof.
  induction n as [|n IH]; intros k m; simpl; [done|].
  destruct (unpack_even t _ _ _ _ stride m) as [m1|e]; simpl; [|done].
  rewrite !shift_shift.
  replace (2 * k * (stride ÷ 2) + stride ÷ 2)
    with ((2 * k + 1) * (stride ÷ 2)) by lia.
  replace (2 * k * stride + stride) with ((2 * k + 1) * stride) by lia.
  destruct (unpack_odd t _ _ stride m1) as [m2|e]; simpl; [|done].
  rewrite <- IH. do 2 f_equal. apply even_state_eq; lia.
Qed.

(** Any height below [INT_MAX] is processed, in [(height + 1) / 2] row
    pairs. *)
Lemma convert_row_pairs (t : target) (y u v s : ptr) (stride height : Z)
    (m : mem) :
  0 ≤ height < INT_MAX →
  yuyv_to_yuv420p t y u v s stride height m
  = row_pairs t y u v s stride 0 (Z.to_nat ((height + 1) / 2)) m.
Proof.
  intros Hheight. unfold yuyv_to_yuv420p, INT_MAX in *.
  rewrite (for_loop_repeat _ height 2 ltac:(lia)
             (Z.to_nat ((height + 1) / 2)));
    unfold INT_MIN, INT_MAX; [|zlia..].
  rewrite <- repeat_row_pairs.
  replace (2 * 0 * (stride ÷ 2)) with 0 by lia.
  replace (0 * (stride ÷ 4)) with 0 by lia.
  replace (2 * 0 * stride) with 0 by lia. by rewrite !shift_0.
Qed.

(** An odd bound and the even one after it stop a loop in steps of two at
    the same iteration. *)
Lemma for_loop_odd_bound {S : Type} (body : S → result S) (h : Z)
    (fuel1 : nat) :
  h mod 2 = 1 →
  ∀ (fuel2 : nat) (i : Z) (s : S),
    i mod 2 = 0 →
    (Z.to_nat (h - i) ≤ fuel1)%nat →
    (Z.to_nat (h + 1 - i) ≤ fuel2)%nat →
    for_loop fuel1 i h 2 body s = for_loop fuel2 i (h + 1) 2 body s.
Proof.
  intros Hh. induction fuel1 as [|fuel1 IH]; intros fuel2 i s Hi H1 H2.
  - assert ((i <? h) = false) as E1 by (apply Z.ltb_ge; lia).
    assert ((i <? h + 1) = false) as E2 by (apply Z.ltb_ge; zlia).
    destruct fuel2; simpl; by rewrite E1, E2.
  - destruct (Z.ltb_spec i h) as [Hlt|Hge].
    + assert ((i <? h + 1) = true) as E2 by (apply Z.ltb_lt; lia).
      apply Z.ltb_lt in Hlt as E1.
      destruct fuel2 as [|fuel2]; [lia|]. simpl. rewrite E1, E2.
      destruct (body s) as [s'|e]; [|done]. simpl.
      unfold int_add. case_match; [|done]. simpl. apply IH; [zlia|lia..].
    + assert ((i <? h + 1) = false) as E2 by (apply Z.ltb_ge; zlia).
      apply Z.ltb_ge in Hge as E1.
      destruct fuel2; simpl; by rewrite E1, E2.
Qed.

Lemma convert_odd_height (t : target) (y u v s : ptr) (stride h : Z)
    (m : mem) :
  1 ≤ h → h mod 2 = 1 →
  yuyv_to_yuv420p t y u v s stride h m
  = yuyv_to_yuv420p t y u v s stride (h + 1) m.
Proof.
  intros Hh Hodd. unfold yuyv_to_yuv420p.
  by rewrite (for_loop_odd_bound _ h (Z.to_nat h) Hodd (Z.to_nat (h + 1)))
    by (done || lia).
Qed.

(** The row loops of the portable build take any stride up to
    [INT_MAX - 3], in [(stride + 3) / 4] groups. *)
Lemma unpack_even_groups (y u v s : ptr) (stride : Z) (m : mem) :
  0 ≤ stride ≤ INT_MAX - 3 →
  unpack_even Portable y u v s stride m
  = (st ← repeatM (Z.to_nat ((stride + 3) / 4)) unpack_even_body
            (y, u, v, s, m); Ok st.2).
Proof.
  intros Hstride. unfold unpack_even, INT_MAX in *.
  by rewrite (for_loop_repeat _ stride 4 ltac:(lia)
                (Z.to_nat ((stride + 3) / 4)))
    by (unfold INT_MIN, INT_MAX; zlia).
Qed.

Lemma unpack_odd_groups (y s : ptr) (stride : Z) (m : mem) :
  0 ≤ stride ≤ INT_MAX - 3 →
  unpack_odd Portable y s stride m
  = (st ← repeatM (Z.to_nat ((stride + 3) / 4)) unpack_odd_body (y, s, m);
     Ok st.2).
Proof.
  intros Hstride. unfold unpack_odd, INT_MAX in *.
  by rewrite (for_loop_repeat _ stride 4 ltac:(lia)
                (Z.to_nat ((stride + 3) / 4)))
    by (unfold INT_MIN, INT_MAX; zlia).
Qed.

(** ** Which locations a run writes can be told *)

Lemma in_rng_dec (p : ptr) (n : Z) (q : ptr) : in_rng p n q ∨ ¬ in_rng p n q.
Proof. unfold in_rng. destruct (decide (q.1 = p.1 ∧ p.2 ≤ q.2 < p.2 + n)); tauto. Qed.

Lemma in_rng_rows (p : ptr) (R w : Z) (q : ptr) :
  0 < w → in_rng p (R * w) q →
  ∃ r j, 0 ≤ r < R ∧ 0 ≤ j < w ∧ q = p +ₚ r * w +ₚ j.
Proof.
  destruct p as [b o], q as [b' o']. unfold in_rng, shift; simpl.
  intros Hw [-> Ho]. exists ((o' - o) / w), ((o' - o) mod w).
  pose proof (Z.div_mod (o' - o) w ltac:(lia)) as Hdm.
  pose proof (Z.mod_pos_bound (o' - o) w Hw) as Hmod.
  split; [|split; [done|f_equal; lia]].
  split; [apply Z.div_pos; lia|]. apply Z.div_lt_upper_bound; lia.
Qed.

Lemma even_map_dec (y u v s : ptr) (n : Z) (q : ptr) :
  (∃ p, even_map y u v s n q p) ∨ (∀ p, ¬ even_map y u v s n q p).
Proof.
  destruct (in_rng_dec y (2 * n) q) as [(j & Hj & ->)%in_rng_shift|Hy].
  { left. exists (s +ₚ 2 * j). left. by exists j. }
  destruct (in_rng_dec u n q) as [(j & Hj & ->)%in_rng_shift|Hu].
  { left. exists (s +ₚ (4 * j + 1)). right; left. by exists j. }
  destruct (in_rng_dec v n q) as [(j & Hj & ->)%in_rng_shift|Hv].
  { left. exists (s +ₚ (4 * j + 3)). right; right. by exists j. }
  right. intros p [H _]%even_map_rng. tauto.
Qed.

Lemma odd_map_dec (y s : ptr) (n : Z) (q : ptr) :
  (∃ p, odd_map y s n q p) ∨ (∀ p, ¬ odd_map y s n q p).
Proof.
  destruct (in_rng_dec y (2 * n) q) as [(j & Hj & ->)%in_rng_shift|Hy].
  { left. exists (s +ₚ 2 * j). by exists j. }
  right. intros p [H _]%luma_map_rng. tauto.
Qed.

Lemma frame_map_dec (y u v s : ptr) (n P : Z) (q : ptr) :
  0 ≤ n → 0 ≤ P →
  (∃ p, frame_map y u v s n P q p) ∨ (∀ p, ¬ frame_map y u v s n P q p).
Proof.
  intros Hn HP. destruct (decide (n = 0)) as [->|Hn0].
  { right. intros p [(r & _ & j & Hj & _)|[(r & _ & j & Hj & _)|
                     (r & _ & j & Hj & _)]]; lia. }
  destruct (in_rng_dec y (2 * P * (2 * n)) q) as [Hy|Hy].
  { apply in_rng_rows in Hy as (r & j & Hr & Hj & ->); [|lia].
    left. exists (s +ₚ r * (4 * n) +ₚ 2 * j). left. exists r.
    split; [done|]. by exists j. }
  destruct (in_rng_dec u (P * n) q) as [Hu|Hu].
  { apply in_rng_rows in Hu as (r & j & Hr & Hj & ->); [|lia].
    left. exists (s +ₚ 2 * r * (4 * n) +ₚ (4 * j + 1)). right; left.
    exists r. split; [done|]. by exists j. }
  destruct (in_rng_dec v (P * n) q) as [Hv|Hv].
  { apply in_rng_rows in Hv as (r & j & Hr & Hj & ->); [|lia].
    left. exists (s +ₚ 2 * r * (4 * n) +ₚ (4 * j + 3)). right; right.
    exists r. split; [done|]. by exists j. }
  right. intros p [H _]%frame_map_rng; [tauto|lia..].
Qed.

(** ** Buffers laid out in memory *)

Lemma heap_bytes_is_Some (l : list Z) :
  ∀ p q, is_Some (heap_bytes p l !! q) ↔ in_rng p (Z.of_nat (length l)) q.
Proof.
  induction l as [|b l IH]; intros p q; simpl heap_bytes.
  - rewrite lookup_empty. unfold in_rng. simpl. split; [by intros [? ?]|lia].
  - rewrite lookup_insert_is_Some, IH. simpl length.
    destruct p as [bp o], q as [bq o']. unfold in_rng, shift; simpl. split.
    + intros [[= -> ->]|[Hne [-> Ho]]]; lia.
    + intros [-> Ho]. destruct (decide (o' = o)) as [->|Hne]; [by left|].
      right. split; [congruence|lia].
Qed.

Lemma valid_rng_buffer (m : mem) (p : ptr) (n n' : Z) :
  buffer m p n → n' ≤ n → valid_rng m p n'.
Proof. intros H Hn j Hj. apply H. lia. Qed.

Lemma frame_mem_is_Some (ly lu lv ls : list Z) (q : ptr) :
  is_Some (frame_mem ly lu lv ls !! q) ↔
  in_rng Y (Z.of_nat (length ly)) q ∨ in_rng U (Z.of_nat (length lu)) q ∨
  in_rng V (Z.of_nat (length lv)) q ∨ in_rng YUYV (Z.of_nat (length ls)) q.
Proof.
  unfold frame_mem. rewrite !lookup_union_is_Some, !heap_bytes_is_Some. tauto.
Qed.

Lemma frame_mem_buffers (ly lu lv ls : list Z) :
  buffer (frame_mem ly lu lv ls) Y (Z.of_nat (length ly)) ∧
  buffer (frame_mem ly lu lv ls) U (Z.of_nat (length lu)) ∧
  buffer (frame_mem ly lu lv ls) V (Z.of_nat (length lv)) ∧
  buffer (frame_mem ly lu lv ls) YUYV (Z.of_nat (length ls)).
Proof.
  unfold buffer. split_and!; intros j; rewrite frame_mem_is_Some;
    unfold in_rng, Y, U, V, YUYV, shift; simpl; lia.
Qed.

Lemma frame_mem_valid (ly lu lv ls : list Z) (n P : Z) :
  2 * P * (2 * n) ≤ Z.of_nat (length ly) → P * n ≤ Z.of_nat (length lu) →
  P * n ≤ Z.of_nat (length lv) → 2 * P * (4 * n) ≤ Z.of_nat (length ls) →
  frame_valid Y U V YUYV n P (frame_mem ly lu lv ls).
Proof.
  intros Hy Hu Hv Hs.
  destruct (frame_mem_buffers ly lu lv ls) as (By & Bu & Bv & Bs).
  repeat split; by eapply valid_rng_buffer.
Qed.

Lemma frame_mem_sep (n P : Z) : frame_sep Y U V YUYV n P.
Proof. repeat split; by left. Qed.

(** ** The contracts of the rows and of the frame *)

Lemma even_xfer_unpacked (y u v s : ptr) (stride : Z) (m m' : mem) :
  0 ≤ stride → stride mod 4 = 0 →
  xfer (even_map y u v s (stride / 4)) m m' →
  even_row_unpacked y u v s stride m m'.
Proof.
  intros Hstride Hmod (Hdom & Hframe & Hval).
  assert (stride / 2 = 2 * (stride / 4)) as Hhalf by zlia.
  split; [|split; [|done]].
  - intros g Hg. repeat split; apply Hval.
    + left. exists (2 * g). split; [lia|]. split; [done|apply shift_eq; lia].
    + right; left. by exists g.
    + left. exists (2 * g + 1). split; [lia|]. split; [done|apply shift_eq; lia].
    + right; right. by exists g.
  - intros q Hy Hu Hv. apply Hframe. intros p [H _]%even_map_rng.
    rewrite Hhalf in Hy. tauto.
Qed.

Lemma odd_xfer_unpacked (y s : ptr) (stride : Z) (m m' : mem) :
  0 ≤ stride → stride mod 4 = 0 →
  xfer (odd_map y s (stride / 4)) m m' →
  odd_row_unpacked y s stride m m'.
Proof.
  intros Hstride Hmod (Hdom & Hframe & Hval).
  assert (stride / 2 = 2 * (stride / 4)) as Hhalf by zlia.
  split; [|split; [|done]].
  - intros j Hj. apply Hval. exists j. split; [lia|done].
  - intros q Hy. apply Hframe. intros p [H _]%luma_map_rng.
    rewrite Hhalf in Hy. tauto.
Qed.

Lemma frame_xfer_chroma (y u v s : ptr) (stride height : Z) (m m' : mem) :
  0 ≤ stride → stride mod 4 = 0 →
  xfer (frame_map y u v s (stride / 4) (height / 2)) m m' →
  chroma_sampled u v s stride height m m'.
Proof.
  intros Hstride Hmod (Hdom & Hframe & Hval) r c Hr Hc.
  assert (stride = 4 * (stride / 4)) as Hs4 by zlia.
  split; apply Hval.
  - right; left. exists r. split; [done|]. exists c. split; [done|].
    rewrite !shift_shift. split; apply shift_eq; lia.
  - right; right. exists r. split; [done|]. exists c. split; [done|].
    rewrite !shift_shift. split; apply shift_eq; lia.
Qed.

Lemma frame_xfer_luma_rows (y u v s : ptr) (stride height : Z) (m m' : mem) :
  0 ≤ stride → stride mod 4 = 0 →
  xfer (frame_map y u v s (stride / 4) (height / 2)) m m' →
  height mod 2 = 0 → luma_sampled y s stride height m m'.
Proof.
  intros Hstride Hmod (_ & _ & Hval) Hmod2 r c Hr Hc.
  assert (stride / 2 = 2 * (stride / 4) ∧ stride = 4 * (stride / 4))
    as [Hhalf Hs4] by zlia.
  apply Hval. left. exists r. split; [zlia|]. exists c.
  split; [lia|]. rewrite !shift_shift. split; apply shift_eq; lia.
Qed.

(** C2.  For every source row of [stride] bytes, [stride] a positive multiple
    of the block of the build (of 4 in the portable build, of 32 in the NEON
    build), in buffers that can be accessed and do not overlap, the even-row
    unpacker returns, having written exactly [stride / 2] luma bytes,
    [stride / 4] U bytes and [stride / 4] V bytes: group [g] of the row, the
    bytes [Y0 U Y1 V], gives luma bytes [2g] and [2g + 1], U byte [g] and
    V byte [g], each the byte of the source, and no other byte of the memory
    changes. *)
Theorem unpack_even_writes_groups (t : target) (y u v s : ptr) (stride : Z)
    (m : mem) :
  0 < stride ≤ INT_MAX → stride mod block_bytes t = 0 →
  even_valid y u v s (stride / 4) m → even_sep y u v s (stride / 4) →
  ∃ m', unpack_even t y u v s stride m = Ok m' ∧
        even_row_unpacked y u v s stride m m'.
Proof.
  intros Hstride Hmod Hvalid Hsep.
  assert (stride mod 4 = 0) as Hmod4 by (destruct t; simpl in Hmod; zlia).
  destruct (unpack_even_total t y u v s stride m)
    as (m' & Hrun & _ & X); [lia|done|done|].
  exists m'. split; [done|]. apply even_xfer_unpacked; [lia|done|by apply X].
Qed.

(** C3.  For every source row of [stride] bytes, [stride] a positive multiple
    of the block of the build (of 4 in the portable build, of 32 in the NEON
    build), the odd-row unpacker returns, having written exactly
    [stride / 2] luma bytes, the bytes at the even offsets 0, 2, 4, ... of
    the row; no other byte of the memory changes, so nothing is written to
    the U and V planes. *)
Theorem unpack_odd_writes_luma (t : target) (y s : ptr) (stride : Z)
    (m : mem) :
  0 < stride ≤ INT_MAX → stride mod block_bytes t = 0 →
  odd_valid y s (stride / 4) m → odd_sep y s (stride / 4) →
  ∃ m', unpack_odd t y s stride m = Ok m' ∧
        odd_row_unpacked y s stride m m'.
Proof.
  intros Hstride Hmod Hvalid Hsep.
  assert (stride mod 4 = 0) as Hmod4 by (destruct t; simpl in Hmod; zlia).
  destruct (unpack_odd_total t y s stride m)
    as (m' & Hrun & _ & X); [lia|done|done|].
  exists m'. split; [done|]. apply odd_xfer_unpacked; [lia|done|by apply X].
Qed.

Lemma row_ptrs_eq (y u v s : ptr) (stride k : Z) :
  0 ≤ stride → stride mod 4 = 0 →
  y +ₚ 2 * k * (stride / 2) = y +ₚ 2 * k * (2 * (stride / 4)) ∧
  s +ₚ 2 * k * stride = s +ₚ 2 * k * (4 * (stride / 4)) ∧
  y +ₚ (2 * k + 1) * (stride / 2) = y +ₚ (2 * k + 1) * (2 * (stride / 4)) ∧
  s +ₚ (2 * k + 1) * stride = s +ₚ (2 * k + 1) * (4 * (stride / 4)).
Proof.
  intros Hstride Hmod.
  assert (stride / 2 = 2 * (stride / 4) ∧ stride = 4 * (stride / 4))
    as [Hhalf Hs4] by zlia.
  by rewrite Hhalf, <- Hs4.
Qed.

(** C5.  For every frame that meets the preconditions of both builds (the
    stride a positive multiple of 32, the height even, the four buffers
    accessible and apart), the NEON and the portable build return the same
    memory: from the converter, from the even-row unpacker on every even row
    of the frame, and from the odd-row unpacker on every odd row. *)
Theorem neon_matches_portable (y u v s : ptr) (stride height : Z) (m : mem) :
  0 < stride ≤ INT_MAX → stride mod 32 = 0 →
  0 < height ≤ INT_MAX → height mod 2 = 0 →
  frame_valid y u v s (stride / 4) (height / 2) m →
  frame_sep y u v s (stride / 4) (height / 2) →
  (∃ m', yuyv_to_yuv420p ArmNeon y u v s stride height m = Ok m' ∧
         yuyv_to_yuv420p Portable y u v s stride height m = Ok m') ∧
  ∀ k m1, 0 ≤ k < height / 2 → dom m1 = dom m →
    (∃ m', unpack_even ArmNeon (y +ₚ 2 * k * (stride / 2))
             (u +ₚ k * (stride / 4)) (v +ₚ k * (stride / 4))
             (s +ₚ 2 * k * stride) stride m1 = Ok m' ∧
           unpack_even Portable (y +ₚ 2 * k * (stride / 2))
             (u +ₚ k * (stride / 4)) (v +ₚ k * (stride / 4))
             (s +ₚ 2 * k * stride) stride m1 = Ok m') ∧
    (∃ m', unpack_odd ArmNeon (y +ₚ (2 * k + 1) * (stride / 2))
             (s +ₚ (2 * k + 1) * stride) stride m1 = Ok m' ∧
           unpack_odd Portable (y +ₚ (2 * k + 1) * (stride / 2))
             (s +ₚ (2 * k + 1) * stride) stride m1 = Ok m').
Proof.
  intros Hstride Hmod Hheight Hmod2 Hvalid Hsep.
  assert (stride mod 4 = 0 ∧ 0 ≤ stride / 4 ∧ 0 ≤ height / 2)
    as (Hmod4 & Hn & HP) by zlia.
  split.
  - destruct (convert_total ArmNeon y u v s stride height m)
      as (m1 & H1 & _ & X1); [lia|done|lia|done|done|].
    destruct (convert_total Portable y u v s stride height m)
      as (m2 & H2 & _ & X2); [lia|done|lia|done|done|].
    exists m1. split; [done|]. rewrite H2. f_equal.
    eapply xfer_unique; [|by apply X2|by apply X1].
    intros q. by apply frame_map_dec.
  - intros k m1 Hk Hdom.
    destruct (row_ptrs_eq y u v s stride k) as (-> & -> & -> & ->);
      [lia|done|].
    split.
    + assert (even_valid (y +ₚ 2 * k * (2 * (stride / 4)))
                (u +ₚ k * (stride / 4)) (v +ₚ k * (stride / 4))
                (s +ₚ 2 * k * (4 * (stride / 4))) (stride / 4) m1) as Hv.
      { apply (even_valid_dom _ _ _ _ _ m); [done|].
        by eapply frame_valid_even. }
      pose proof (frame_sep_even _ _ _ _ _ _ _ Hn Hk Hsep) as Hs.
      destruct (unpack_even_total ArmNeon _ _ _ _ stride m1 ltac:(lia)
                  Hmod Hv) as (m2 & H2 & _ & X2).
      destruct (unpack_even_total Portable _ _ _ _ stride m1 ltac:(lia)
                  Hmod4 Hv) as (m3 & H3 & _ & X3).
      exists m2. split; [done|]. rewrite H3. f_equal.
      eapply xfer_unique; [|by apply X3|by apply X2].
      intros q. apply even_map_dec.
    + assert (odd_valid (y +ₚ (2 * k + 1) * (2 * (stride / 4)))
                (s +ₚ (2 * k + 1) * (4 * (stride / 4))) (stride / 4) m1)
        as Hv.
      { apply (odd_valid_dom _ _ _ m); [done|].
        by eapply frame_valid_odd. }
      pose proof (frame_sep_odd _ _ _ _ _ _ _ Hn Hk Hsep) as Hs.
      destruct (unpack_odd_total ArmNeon _ _ stride m1 ltac:(lia)
                  Hmod Hv) as (m2 & H2 & _ & X2).
      destruct (unpack_odd_total Portable _ _ stride m1 ltac:(lia)
                  Hmod4 Hv) as (m3 & H3 & _ & X3).
      exists m2. split; [done|]. rewrite H3. f_equal.
      eapply xfer_unique; [|by apply X3|by apply X2].
      intros q. apply odd_map_dec.
Qed.

(** C6.  For every valid frame, in buffers that are accessible and apart, the
    U and V bytes the converter leaves at chroma block [(r, c)] are the U and
    V bytes of group [c] of source row [2r]; and row [r] of the chroma planes
    is the same for any other source that has the same row [2r], whatever
    its row [2r + 1] and its other rows hold. *)
Theorem chroma_from_even_rows (t : target) (y u v s : ptr)
    (stride height : Z) (m m2 : mem) (r : Z) :
  0 < stride ≤ INT_MAX → stride mod block_bytes t = 0 →
  0 < height ≤ INT_MAX → height mod 2 = 0 →
  frame_valid y u v s (stride / 4) (height / 2) m →
  frame_valid y u v s (stride / 4) (height / 2) m2 →
  frame_sep y u v s (stride / 4) (height / 2) →
  0 ≤ r < height / 2 → same_row s stride (2 * r) m m2 →
  ∃ m' m2', yuyv_to_yuv420p t y u v s stride height m = Ok m' ∧
            yuyv_to_yuv420p t y u v s stride height m2 = Ok m2' ∧
            chroma_sampled u v s stride height m m' ∧
            same_chroma_row u v stride r m' m2'.
Proof.
  intros Hstride Hmod Hheight Hmod2 Hvalid Hvalid2 Hsep Hr Hrow.
  assert (stride mod 4 = 0) as Hmod4 by (destruct t; simpl in Hmod; zlia).
  destruct (convert_total t y u v s stride height m)
    as (m' & H1 & _ & X1); [lia|done|lia|done|done|].
  destruct (convert_total t y u v s stride height m2)
    as (m2' & H2 & _ & X2); [lia|done|lia|done|done|].
  apply frame_xfer_chroma in X1 as C1; [|lia|done|done].
  apply frame_xfer_chroma in X2 as C2; [|lia|done|done].
  exists m', m2'. split; [done|]. split; [done|]. split; [done|].
  intros c Hc.
  destruct (C1 r c Hr Hc) as [-> ->]. destruct (C2 r c Hr Hc) as [-> ->].
  split; apply Hrow; zlia.
Qed.

Lemma frame_xfer_luma (y u v s : ptr) (n P : Z) (m m' : mem) :
  0 ≤ n → xfer (frame_map y u v s n P) m m' →
  ∀ j, 0 ≤ j < 2 * P * (2 * n) → m' !! (y +ₚ j) = m !! (s +ₚ 2 * j).
Proof.
  intros Hn (_ & _ & Hval) j Hj.
  destruct (decide (n = 0)) as [->|Hn0]; [lia|].
  pose proof (Z.div_mod j (2 * n) ltac:(lia)) as Hdm.
  pose proof (Z.mod_pos_bound j (2 * n) ltac:(lia)) as Hmod.
  apply Hval. left. exists (j / (2 * n)). split.
  { split; [apply Z.div_pos; lia|apply Z.div_lt_upper_bound; lia]. }
  exists (j mod (2 * n)). split; [done|]. rewrite !shift_shift.
  split; apply shift_eq; lia.
Qed.

Lemma frame_xfer_frame (y u v s : ptr) (n P : Z) (m m' : mem) (q : ptr) :
  0 ≤ n → 0 ≤ P → xfer (frame_map y u v s n P) m m' →
  ¬ in_rng y (2 * P * (2 * n)) q → ¬ in_rng u (P * n) q →
  ¬ in_rng v (P * n) q → m' !! q = m !! q.
Proof.
  intros Hn HP (_ & Hframe & _) Hy Hu Hv. apply Hframe.
  intros p [H _]%frame_map_rng; [tauto|lia..].
Qed.

Lemma geometry_sizes (stride height : Z) :
  0 ≤ stride → stride mod 4 = 0 → 0 ≤ height → height mod 2 = 0 →
  height * stride = 2 * (height / 2) * (4 * (stride / 4)) ∧
  height * (stride / 2) = 2 * (height / 2) * (2 * (stride / 4)) ∧
  height * stride / 2 = 2 * (height / 2) * (2 * (stride / 4)) ∧
  0 ≤ stride / 4 ∧ 0 ≤ height / 2.
Proof.
  intros Hstride Hmod Hheight Hmod2.
  assert (stride = 4 * (stride / 4) ∧ height = 2 * (height / 2) ∧
          0 ≤ stride / 4 ∧ 0 ≤ height / 2) as (Hs & Hh & Hn & HP) by zlia.
  revert Hs Hh Hn HP. generalize (stride / 4) (height / 2).
  intros n P -> -> Hn HP.
  split; [lia|]. split; [|split; [|done]].
  - replace (4 * n / 2) with (2 * n) by zlia. lia.
  - replace (2 * P * (4 * n)) with ((2 * P * (2 * n)) * 2) by lia.
    by rewrite Z.div_mul.
Qed.

(** C8.  For every input on which the converter returns, it has changed no
    byte outside the objects its [y], [u] and [v] arguments point into, and
    has mapped or unmapped none: a source buffer in an object of its own is
    left byte for byte as it was; and so is, for a valid frame in buffers
    that are accessible and apart, every byte outside the three planes, the
    source among them.  The result is a function of the arguments alone. *)
Theorem converter_writes_outputs_only (t : target) (y u v s : ptr)
    (stride height : Z) (m m' : mem) :
  yuyv_to_yuv420p t y u v s stride height m = Ok m' →
  outputs_only y u v m m' ∧
  (s.1 ≠ y.1 → s.1 ≠ u.1 → s.1 ≠ v.1 →
   ∀ j, m' !! (s +ₚ j) = m !! (s +ₚ j)) ∧
  (0 ≤ stride ≤ INT_MAX → stride mod block_bytes t = 0 →
   0 ≤ height ≤ INT_MAX → height mod 2 = 0 →
   frame_valid y u v s (stride / 4) (height / 2) m →
   frame_sep y u v s (stride / 4) (height / 2) →
   (∀ j, 0 ≤ j < height * stride → m' !! (s +ₚ j) = m !! (s +ₚ j)) ∧
   (∀ q, ¬ in_rng y (height * (stride / 2)) q →
         ¬ in_rng u (height / 2 * (stride / 4)) q →
         ¬ in_rng v (height / 2 * (stride / 4)) q → m' !! q = m !! q)).
Proof.
  intros Hrun. pose proof (convert_outputs _ _ _ _ _ _ _ _ _ Hrun) as Hout.
  split; [done|]. split.
  { intros Hy Hu Hv j. by apply Hout. }
  intros Hstride Hmod Hheight Hmod2 Hvalid Hsep.
  assert (stride mod 4 = 0) as Hmod4 by (destruct t; simpl in Hmod; zlia).
  destruct (geometry_sizes stride height) as (Hsz & Hy & _ & Hn & HP);
    [lia|done|lia|done|].
  destruct (convert_total t y u v s stride height m)
    as (m'' & Hrun' & _ & X); [done..|].
  assert (m'' = m') as -> by congruence. specialize (X Hsep).
  assert (∀ q, ¬ in_rng y (height * (stride / 2)) q →
               ¬ in_rng u (height / 2 * (stride / 4)) q →
               ¬ in_rng v (height / 2 * (stride / 4)) q →
               m' !! q = m !! q) as Hframe.
  { intros q Hqy Hqu Hqv. rewrite Hy in Hqy.
    by apply (frame_xfer_frame y u v s _ _ m m' q Hn HP X). }
  split; [|done]. intros j Hj. rewrite Hsz in Hj.
  destruct Hsep as (_ & _ & _ & Hsy & Hsu & Hsv).
  assert (in_rng s (2 * (height / 2) * (4 * (stride / 4))) (s +ₚ j)) as Hin
    by (unfold in_rng, shift; simpl; lia).
  apply Hframe; [rewrite Hy|..]; intros Hin'.
  - exact (in_rng_disjoint _ _ _ _ _ Hsy Hin Hin').
  - exact (in_rng_disjoint _ _ _ _ _ Hsu Hin Hin').
  - exact (in_rng_disjoint _ _ _ _ _ Hsv Hin Hin').
Qed.

(** C9.  Under the preconditions (the height even and positive, the stride a
    positive multiple of the bytes the build takes per iteration, 4 for the
    portable one, the source an object of exactly [height * stride] bytes,
    the luma plane one of exactly [height * stride / 2] bytes, the U and V
    planes of exactly [(height / 2) * (stride / 4)] bytes each) the
    converter returns: no access is out of range, and the fuel of the loops
    is not exhausted. *)
Theorem converter_stays_in_bounds (t : target) (y u v s : ptr)
    (stride height : Z) (m : mem) :
  0 < height ≤ INT_MAX → height mod 2 = 0 →
  0 < stride ≤ INT_MAX → stride mod block_bytes t = 0 →
  buffer m s (height * stride) →
  buffer m y (height * stride / 2) →
  buffer m u (height / 2 * (stride / 4)) →
  buffer m v (height / 2 * (stride / 4)) →
  ∃ m', yuyv_to_yuv420p t y u v s stride height m = Ok m' ∧ dom m' = dom m.
Proof.
  intros Hheight Hmod2 Hstride Hmod Bs By Bu Bv.
  assert (stride mod 4 = 0) as Hmod4 by (destruct t; simpl in Hmod; zlia).
  destruct (geometry_sizes stride height) as (Hsz & _ & Hy & Hn & HP);
    [lia|done|lia|done|].
  destruct (convert_total t y u v s stride height m)
    as (m' & Hrun & Hdom & _); [lia|done|lia|done| |by eauto].
  repeat split; (eapply valid_rng_buffer; [eassumption|lia]).
Qed.

(** C10.  For every odd height [h] of at least 1 the converter does not stop
    after the last even row: the call is the call with height [h + 1]; for
    [h] below [INT_MAX] it runs the [(h + 1) / 2] row pairs, and with a
    valid stride and accessible, separate buffers of [h + 1] rows it returns
    having written [(h + 1) * stride / 2] luma bytes from [(h + 1) * stride]
    source bytes, a full row pair beyond a frame of [h] rows. *)
Theorem odd_height_runs_extra_row (t : target) (y u v s : ptr) (stride h : Z)
    (m : mem) :
  1 ≤ h → h mod 2 = 1 →
  yuyv_to_yuv420p t y u v s stride h m
  = yuyv_to_yuv420p t y u v s stride (h + 1) m ∧
  (h < INT_MAX →
   yuyv_to_yuv420p t y u v s stride h m
   = row_pairs t y u v s stride 0 (Z.to_nat ((h + 1) / 2)) m ∧
   (0 ≤ stride ≤ INT_MAX → stride mod block_bytes t = 0 →
    frame_valid y u v s (stride / 4) ((h + 1) / 2) m →
    frame_sep y u v s (stride / 4) ((h + 1) / 2) →
    ∃ m', yuyv_to_yuv420p t y u v s stride h m = Ok m' ∧
          luma_copied y s stride (h + 1) m m')).
Proof.
  intros Hh Hodd. split; [by apply convert_odd_height|].
  intros Hmax. split; [apply convert_row_pairs; lia|].
  intros Hstride Hmod Hvalid Hsep.
  assert (stride mod 4 = 0) as Hmod4 by (destruct t; simpl in Hmod; zlia).
  unfold INT_MAX in *.
  destruct (geometry_sizes stride (h + 1)) as (_ & Hy & _ & Hn & HP);
    [lia|done|lia|zlia|].
  rewrite convert_odd_height by done.
  destruct (convert_total t y u v s stride (h + 1) m)
    as (m' & Hrun & _ & X); [done..|unfold INT_MAX; lia|zlia|done|].
  exists m'. split; [done|]. intros j Hj. rewrite Hy in Hj.
  by eapply frame_xfer_luma; [|apply X|].
Qed.

(** ** One row pair *)

Lemma frame_valid_pair (y u v s : ptr) (stride P k : Z) (m : mem) :
  0 ≤ stride → stride mod 4 = 0 → 0 ≤ k < P →
  frame_valid y u v s (stride / 4) P m →
  frame_valid (y +ₚ 2 * k * (stride / 2)) (u +ₚ k * (stride / 4))
    (v +ₚ k * (stride / 4)) (s +ₚ 2 * k * stride) (stride / 4) 1 m.
Proof.
  intros Hstride Hmod Hk (Hs & Hy & Hu & Hv).
  assert (stride / 2 = 2 * (stride / 4) ∧ stride = 4 * (stride / 4) ∧
          0 ≤ stride / 4) as (Hhalf & Hs4 & Hn) by zlia.
  rewrite Hhalf.
  replace (2 * k * stride) with (2 * k * (4 * (stride / 4)))
    by (by rewrite <- Hs4).
  assert (0 ≤ k * (stride / 4) ∧
          k * (stride / 4) + stride / 4 ≤ P * (stride / 4)) as [Hkn HkP]
    by nia.
  repeat split; (eapply valid_rng_sub; [eassumption|lia..]).
Qed.

Lemma frame_sep_pair (y u v s : ptr) (stride P k : Z) :
  0 ≤ stride → stride mod 4 = 0 → 0 ≤ k < P →
  frame_sep y u v s (stride / 4) P →
  frame_sep (y +ₚ 2 * k * (stride / 2)) (u +ₚ k * (stride / 4))
    (v +ₚ k * (stride / 4)) (s +ₚ 2 * k * stride) (stride / 4) 1.
Proof.
  intros Hstride Hmod Hk (Hyu & Hyv & Huv & Hsy & Hsu & Hsv).
  assert (stride / 2 = 2 * (stride / 4) ∧ stride = 4 * (stride / 4) ∧
          0 ≤ stride / 4) as (Hhalf & Hs4 & Hn) by zlia.
  rewrite Hhalf.
  replace (2 * k * stride) with (2 * k * (4 * (stride / 4)))
    by (by rewrite <- Hs4).
  assert (0 ≤ k * (stride / 4) ∧
          k * (stride / 4) + stride / 4 ≤ P * (stride / 4)) as [Hkn HkP]
    by nia.
  repeat split; (eapply disjoint_rng_sub; [eassumption|lia..]).
Qed.

(** Row pair [k] of a valid frame, run on a memory with the buffers of the
    frame, writes its two luma rows and its row of each chroma plane. *)
Lemma row_pair_unpacked (t : target) (y u v s : ptr) (stride P k : Z)
    (m1 : mem) :
  0 ≤ stride ≤ INT_MAX → stride mod block_bytes t = 0 → 0 ≤ k < P →
  frame_valid y u v s (stride / 4) P m1 →
  frame_sep y u v s (stride / 4) P →
  ∃ m2, row_pairs t y u v s stride k 1 m1 = Ok m2 ∧
        pair_unpacked y u v s stride k m1 m2.
Proof.
  intros Hstride Hmod Hk Hvalid Hsep.
  assert (stride mod 4 = 0) as Hmod4 by (destruct t; simpl in Hmod; zlia).
  assert (0 ≤ stride / 4 ∧ stride / 2 = 2 * (stride / 4)) as [Hn Hhalf]
    by zlia.
  rewrite <- repeat_row_pairs.
  rewrite !Z.quot_div_nonneg by lia.
  destruct (frame_pairs_iter t (y +ₚ 2 * k * (stride / 2))
              (u +ₚ k * (stride / 4)) (v +ₚ k * (stride / 4))
              (s +ₚ 2 * k * stride) stride 1 m1)
    as (m2 & -> & Hdom & X); [done|done| |].
  { apply (frame_valid_pair y u v s stride P); [lia|done|done|done]. }
  specialize (X (frame_sep_pair y u v s stride P k
                   ltac:(lia) Hmod4 Hk Hsep)).
  exists m2. split; [done|]. split; [|split; [|split; [|done]]].
  - pose proof (frame_xfer_luma_rows _ (u +ₚ k * (stride / 4))
                  (v +ₚ k * (stride / 4)) _ stride 2 _ _
                  ltac:(lia) Hmod4 X eq_refl) as Hl.
    unfold luma_sampled in Hl. intros c Hc. split.
    + specialize (Hl 0 c ltac:(lia) Hc). rewrite !shift_shift in Hl.
      replace (2 * k * (stride / 2) + (0 * (stride / 2) + c))
        with (2 * k * (stride / 2) + c) in Hl by lia.
      replace (2 * k * stride + (0 * stride + 2 * c))
        with (2 * k * stride + 2 * c) in Hl by lia.
      done.
    + specialize (Hl 1 c ltac:(lia) Hc). rewrite !shift_shift in Hl.
      replace (2 * k * (stride / 2) + (1 * (stride / 2) + c))
        with ((2 * k + 1) * (stride / 2) + c) in Hl by lia.
      replace (2 * k * stride + (1 * stride + 2 * c))
        with ((2 * k + 1) * stride + 2 * c) in Hl by lia.
      done.
  - pose proof (frame_xfer_chroma (y +ₚ 2 * k * (stride / 2)) _ _ _
                  stride 2 _ _ ltac:(lia) Hmod4 X) as Hc.
    unfold chroma_sampled in Hc. intros c Hcol.
    specialize (Hc 0 c ltac:(zlia) Hcol).
    rewrite !shift_shift in Hc.
    replace (k * (stride / 4) + (0 * (stride / 4) + c))
      with (k * (stride / 4) + c) in Hc by lia.
    replace (2 * k * stride + (2 * 0 * stride + (4 * c + 1)))
      with (2 * k * stride + (4 * c + 1)) in Hc by lia.
    replace (2 * k * stride + (2 * 0 * stride + (4 * c + 3)))
      with (2 * k * stride + (4 * c + 3)) in Hc by lia.
    done.
  - intros q Hy Hu Hv.
    apply (frame_xfer_frame _ _ _ _ (stride / 4) 1 _ _ q Hn ltac:(lia) X).
    + by replace (2 * 1 * (2 * (stride / 4))) with (2 * (stride / 2)) by lia.
    + by replace (1 * (stride / 4)) with (stride / 4) by lia.
    + by replace (1 * (stride / 4)) with (stride / 4) by lia.
Qed.


(** C4.  For every even height of at least 2 the converter runs
    [height / 2] row pairs: pair [k] unpacks source row [2k], at
    [yuyv + 2k * stride], as an even row to [y + 2k * (stride / 2)],
    [u + k * (stride / 4)] and [v + k * (stride / 4)], and source row
    [2k + 1] as an odd row to [y + (2k + 1) * (stride / 2)]: the luma pointer
    moves by [stride / 2] after each row, the chroma pointers by
    [stride / 4] after the even row only, the source pointer by [stride]
    after each row.  With a valid stride, in buffers that are accessible and
    apart, each pair returns, having written two luma rows, one U row and
    one V row from two source rows and nothing else, and the call returns
    with [height] luma rows and [height / 2] rows of each chroma plane
    written. *)
Theorem converter_runs_row_pairs (t : target) (y u v yuyv : ptr)
    (stride height : Z) (m : mem) :
  2 ≤ height ≤ INT_MAX → height mod 2 = 0 →
  yuyv_to_yuv420p t y u v yuyv stride height m
  = row_pairs t y u v yuyv stride 0 (Z.to_nat (height / 2)) m ∧
  (0 < stride ≤ INT_MAX → stride mod block_bytes t = 0 →
   frame_valid y u v yuyv (stride / 4) (height / 2) m →
   frame_sep y u v yuyv (stride / 4) (height / 2) →
   (∀ k m1, 0 ≤ k < height / 2 → dom m1 = dom m →
            ∃ m2, row_pairs t y u v yuyv stride k 1 m1 = Ok m2 ∧
                  pair_unpacked y u v yuyv stride k m1 m2) ∧
   ∃ m', yuyv_to_yuv420p t y u v yuyv stride height m = Ok m' ∧
         luma_sampled y yuyv stride height m m' ∧
         chroma_sampled u v yuyv stride height m m').
Proof.
  intros Hheight Hmod2. split.
  { unfold INT_MAX in *. rewrite convert_row_pairs by (unfold INT_MAX; zlia).
    do 2 f_equal. zlia. }
  intros Hstride Hmod Hvalid Hsep.
  assert (stride mod 4 = 0) as Hmod4 by (destruct t; simpl in Hmod; zlia).
  split.
  - intros k m1 Hk Hdom.
    apply (row_pair_unpacked t y u v yuyv stride (height / 2));
      [lia|done|done| |done].
    destruct Hvalid as (Vs & Vy & Vu & Vv).
    repeat split; by apply (valid_rng_dom m).
  - destruct (convert_total t y u v yuyv stride height m)
      as (m' & Hrun & _ & X); [lia|done|lia|done|done|].
    exists m'. split; [done|]. specialize (X Hsep). split.
    + apply (frame_xfer_luma_rows y u v yuyv); [lia|done|done|done].
    + apply (frame_xfer_chroma y u v yuyv); [lia|done|done].
Qed.

(** C7, as the code has it.  No geometry is rejected: there is no check
    before the loops and no error result.  A height from 0 to [INT_MAX - 1],
    odd or even, is processed in [(height + 1) / 2] row pairs, and in the
    portable build a stride from 0 to [INT_MAX - 3], a multiple of 4 or not,
    in [(stride + 3) / 4] groups of four bytes per row. *)
Theorem converter_takes_any_geometry (t : target) (y u v s : ptr)
    (stride height : Z) (m : mem) :
  0 ≤ height < INT_MAX →
  yuyv_to_yuv420p t y u v s stride height m
  = row_pairs t y u v s stride 0 (Z.to_nat ((height + 1) / 2)) m ∧
  (0 ≤ stride ≤ INT_MAX - 3 →
   unpack_even Portable y u v s stride m
   = (st ← repeatM (Z.to_nat ((stride + 3) / 4)) unpack_even_body
             (y, u, v, s, m); Ok st.2) ∧
   unpack_odd Portable y s stride m
   = (st ← repeatM (Z.to_nat ((stride + 3) / 4)) unpack_odd_body (y, s, m);
      Ok st.2)).
Proof.
  intros Hheight. split; [by apply convert_row_pairs|].
  intros Hstride. split; [by apply unpack_even_groups|].
  by apply unpack_odd_groups.
Qed.

(** C1.  The minimal frame: width 4, height 2, stride 8, source row 0
    [100 128 101 64 102 128 103 64] and source row 1
    [110 c0 111 c1 112 c2 113 c3] for any chroma bytes [c0 .. c3], over
    output planes that hold anything.  The converter of the portable build
    returns with luma row 0 [100 101 102 103], luma row 1
    [110 111 112 113], U row 0 [128 128] and V row 0 [64 64]. *)
Theorem minimal_frame (c0 c1 c2 c3 y0 y1 y2 y3 y4 y5 y6 y7 u0 u1 v0 v1 : Z) :
  ∃ m', yuyv_to_yuv420p Portable Y U V YUYV 8 2
          (frame_mem [y0; y1; y2; y3; y4; y5; y6; y7] [u0; u1] [v0; v1]
             (minimal_source c0 c1 c2 c3)) = Ok m' ∧
        load_bytes m' Y 4 = Ok [100; 101; 102; 103] ∧
        load_bytes m' (Y +ₚ 4) 4 = Ok [110; 111; 112; 113] ∧
        load_bytes m' U 2 = Ok [128; 128] ∧
        load_bytes m' V 2 = Ok [64; 64].
Proof.
  eexists. split; [vm_compute; reflexivity|].
  repeat split; vm_compute; reflexivity.
Qed.

(** C7, as the specification words it, fails: with height 1 the minimal
    frame is processed, both luma rows written; and so it is with width 3,
    stride 6. *)
Lemma odd_geometry_is_processed :
  (m' ← yuyv_to_yuv420p Portable Y U V YUYV 8 1 minimal_mem;
   load_bytes m' Y 8) = Ok [100; 101; 102; 103; 110; 111; 112; 113] ∧
  (m' ← yuyv_to_yuv420p Portable Y U V YUYV 6 2 minimal_mem;
   load_bytes m' Y 8) = Ok [100; 101; 102; 103; 110; 111; 112; 0].
Proof. split; vm_compute; reflexivity. Qed.

(** A frame of exactly three rows is overrun by a call with height 3. *)
Example odd_height_overruns :
  yuyv_to_yuv420p Portable Y U V YUYV 8 3
    (frame_mem (replicate 12 0) (replicate 4 0) (replicate 4 0)
       (seqZ 0 24)) = Err OutOfBounds.
Proof. vm_compute. reflexivity. Qed.

(** The NEON build takes 32 bytes of a row whatever the stride is: at
    stride 8 it does not do what the portable build does. *)
Example neon_needs_blocks :
  (m' ← unpack_even ArmNeon Y U V YUYV 8 wide_mem; load_bytes m' Y 6)
  = Ok [0; 2; 4; 6; 8; 10] ∧
  (m' ← unpack_even Portable Y U V YUYV 8 wide_mem; load_bytes m' Y 6)
  = Ok [0; 2; 4; 6; 0; 0].
Proof. split; vm_compute; reflexivity. Qed.

(** The planes and the source may lie in one object: here the luma plane is
    at offset 0, U at 8, V at 10 and the source at 12. *)
Example minimal_frame_one_object (c0 c1 c2 c3 : Z) :
  (m' ← yuyv_to_yuv420p Portable (1%positive, 0) (1%positive, 8)
          (1%positive, 10) (1%positive, 12) 8 2
          (heap_bytes (1%positive, 0)
             (replicate 12 0 ++ minimal_source c0 c1 c2 c3));
   load_bytes m' (1%positive, 0) 12)
  = Ok [100; 101; 102; 103; 110; 111; 112; 113; 128; 128; 64; 64].
Proof. vm_compute. reflexivity. Qed.

(** ** The theorems at the minimal frame *)

Lemma frame_mem_even_valid (ly lu lv ls : list Z) (n : Z) :
  2 * n ≤ Z.of_nat (length ly) → n ≤ Z.of_nat (length lu) →
  n ≤ Z.of_nat (length lv) → 4 * n ≤ Z.of_nat (length ls) →
  even_valid Y U V YUYV n (frame_mem ly lu lv ls).
Proof.
  intros Hy Hu Hv Hs.
  destruct (frame_mem_buffers ly lu lv ls) as (By & Bu & Bv & Bs).
  repeat split; by eapply valid_rng_buffer.
Qed.

Lemma frame_mem_even_sep (n : Z) : even_sep Y U V YUYV n.
Proof. repeat split; by left. Qed.

Lemma unpack_even_writes_groups_witness :
  (∃ m', unpack_even Portable Y U V YUYV 8 minimal_mem = Ok m' ∧
         even_row_unpacked Y U V YUYV 8 minimal_mem m') ∧
  (∃ m', unpack_even ArmNeon Y U V YUYV 32 wide_mem = Ok m' ∧
         even_row_unpacked Y U V YUYV 32 wide_mem m').
Proof.
  split.
  - apply (unpack_even_writes_groups Portable Y U V YUYV 8 minimal_mem).
    + unfold INT_MAX. lia.
    + reflexivity.
    + apply frame_mem_even_valid; by vm_compute.
    + apply frame_mem_even_sep.
  - apply (unpack_even_writes_groups ArmNeon Y U V YUYV 32 wide_mem).
    + unfold INT_MAX. lia.
    + reflexivity.
    + apply frame_mem_even_valid; by vm_compute.
    + apply frame_mem_even_sep.
Defined.

Lemma unpack_odd_writes_luma_witness :
  (∃ m', unpack_odd Portable Y (YUYV +ₚ 8) 8 minimal_mem = Ok m' ∧
         odd_row_unpacked Y (YUYV +ₚ 8) 8 minimal_mem m') ∧
  (∃ m', unpack_odd ArmNeon Y (YUYV +ₚ 32) 32 wide_mem = Ok m' ∧
         odd_row_unpacked Y (YUYV +ₚ 32) 32 wide_mem m').
Proof.
  split.
  - apply (unpack_odd_writes_luma Portable Y (YUYV +ₚ 8) 8 minimal_mem).
    + unfold INT_MAX. lia.
    + reflexivity.
    + destruct (frame_mem_buffers (replicate 8 0) [0; 0] [0; 0]
                  (minimal_source 0 0 0 0)) as (By & _ & _ & Bs).
      split.
      * apply (valid_rng_sub _ YUYV 16 8 (4 * (8 / 4))); [|by vm_compute..].
        eapply valid_rng_buffer; [exact Bs|by vm_compute].
      * eapply valid_rng_buffer; [exact By|by vm_compute].
    + by left.
  - apply (unpack_odd_writes_luma ArmNeon Y (YUYV +ₚ 32) 32 wide_mem).
    + unfold INT_MAX. lia.
    + reflexivity.
    + destruct (frame_mem_buffers (replicate 32 0) (replicate 8 0)
                  (replicate 8 0) (seqZ 0 64)) as (By & _ & _ & Bs).
      split.
      * apply (valid_rng_sub _ YUYV 64 32 (4 * (32 / 4))); [|by vm_compute..].
        eapply valid_rng_buffer; [exact Bs|by vm_compute].
      * eapply valid_rng_buffer; [exact By|by vm_compute].
    + by left.
Defined.

Lemma wide_mem_valid : frame_valid Y U V YUYV (32 / 4) (2 / 2) wide_mem.
Proof. apply frame_mem_valid; by vm_compute. Qed.

Lemma minimal_mem_valid (c0 c1 c2 c3 : Z) :
  frame_valid Y U V YUYV (8 / 4) (2 / 2)
    (frame_mem (replicate 8 0) [0; 0] [0; 0] (minimal_source c0 c1 c2 c3)).
Proof. apply frame_mem_valid; by vm_compute. Qed.

Lemma converter_runs_row_pairs_witness :
  yuyv_to_yuv420p ArmNeon Y U V YUYV 32 2 wide_mem
  = row_pairs ArmNeon Y U V YUYV 32 0 (Z.to_nat (2 / 2)) wide_mem ∧
  (∃ m2, row_pairs ArmNeon Y U V YUYV 32 0 1 wide_mem = Ok m2 ∧
         pair_unpacked Y U V YUYV 32 0 wide_mem m2) ∧
  ∃ m', yuyv_to_yuv420p ArmNeon Y U V YUYV 32 2 wide_mem = Ok m' ∧
        luma_sampled Y YUYV 32 2 wide_mem m' ∧
        chroma_sampled U V YUYV 32 2 wide_mem m'.
Proof.
  destruct (converter_runs_row_pairs ArmNeon Y U V YUYV 32 2 wide_mem)
    as [Hpairs Hrows].
  - unfold INT_MAX. lia.
  - reflexivity.
  - split; [exact Hpairs|].
    destruct Hrows as [Hpair Hframe].
    + unfold INT_MAX. lia.
    + reflexivity.
    + exact wide_mem_valid.
    + apply frame_mem_sep.
    + split; [|exact Hframe].
      apply (Hpair 0 wide_mem); [by vm_compute|reflexivity].
Defined.

Lemma neon_matches_portable_witness :
  (∃ m', yuyv_to_yuv420p ArmNeon Y U V YUYV 32 2 wide_mem = Ok m' ∧
         yuyv_to_yuv420p Portable Y U V YUYV 32 2 wide_mem = Ok m') ∧
  ∀ k m1, 0 ≤ k < 2 / 2 → dom m1 = dom wide_mem →
    (∃ m', unpack_even ArmNeon (Y +ₚ 2 * k * (32 / 2))
             (U +ₚ k * (32 / 4)) (V +ₚ k * (32 / 4))
             (YUYV +ₚ 2 * k * 32) 32 m1 = Ok m' ∧
           unpack_even Portable (Y +ₚ 2 * k * (32 / 2))
             (U +ₚ k * (32 / 4)) (V +ₚ k * (32 / 4))
             (YUYV +ₚ 2 * k * 32) 32 m1 = Ok m') ∧
    (∃ m', unpack_odd ArmNeon (Y +ₚ (2 * k + 1) * (32 / 2))
             (YUYV +ₚ (2 * k + 1) * 32) 32 m1 = Ok m' ∧
           unpack_odd Portable (Y +ₚ (2 * k + 1) * (32 / 2))
             (YUYV +ₚ (2 * k + 1) * 32) 32 m1 = Ok m').
Proof.
  apply (neon_matches_portable Y U V YUYV 32 2 wide_mem).
  - unfold INT_MAX. lia.
  - reflexivity.
  - unfold INT_MAX. lia.
  - reflexivity.
  - exact wide_mem_valid.
  - apply frame_mem_sep.
Defined.

Lemma chroma_from_even_rows_witness :
  ∃ m' m2',
    yuyv_to_yuv420p Portable Y U V YUYV 8 2 minimal_mem = Ok m' ∧
    yuyv_to_yuv420p Portable Y U V YUYV 8 2
      (frame_mem (replicate 8 0) [0; 0] [0; 0] (minimal_source 1 2 3 4))
    = Ok m2' ∧
    chroma_sampled U V YUYV 8 2 minimal_mem m' ∧
    same_chroma_row U V 8 0 m' m2'.
Proof.
  apply (chroma_from_even_rows Portable Y U V YUYV 8 2 minimal_mem
           (frame_mem (replicate 8 0) [0; 0] [0; 0] (minimal_source 1 2 3 4))
           0).
  - unfold INT_MAX. lia.
  - reflexivity.
  - unfold INT_MAX. lia.
  - reflexivity.
  - exact (minimal_mem_valid 0 0 0 0).
  - exact (minimal_mem_valid 1 2 3 4).
  - apply frame_mem_sep.
  - by vm_compute.
  - intros j Hj.
    assert (j = 0 ∨ j = 1 ∨ j = 2 ∨ j = 3 ∨ j = 4 ∨ j = 5 ∨ j = 6 ∨ j = 7)
      as Hcases by lia.
    destruct Hcases as [->|[->|[->|[->|[->|[->|[->| ->]]]]]]];
      vm_compute; reflexivity.
Defined.

Lemma converter_takes_any_geometry_witness :
  yuyv_to_yuv420p Portable Y U V YUYV 6 1 minimal_mem
  = row_pairs Portable Y U V YUYV 6 0 (Z.to_nat ((1 + 1) / 2)) minimal_mem ∧
  (0 ≤ 6 ≤ INT_MAX - 3 →
   unpack_even Portable Y U V YUYV 6 minimal_mem
   = (st ← repeatM (Z.to_nat ((6 + 3) / 4)) unpack_even_body
             (Y, U, V, YUYV, minimal_mem); Ok st.2) ∧
   unpack_odd Portable Y YUYV 6 minimal_mem
   = (st ← repeatM (Z.to_nat ((6 + 3) / 4)) unpack_odd_body
             (Y, YUYV, minimal_mem); Ok st.2)).
Proof.
  apply (converter_takes_any_geometry Portable Y U V YUYV 6 1 minimal_mem).
  unfold INT_MAX. lia.
Defined.

Lemma converter_stays_in_bounds_witness :
  ∃ m', yuyv_to_yuv420p Portable Y U V YUYV 8 2 minimal_mem = Ok m' ∧
        dom m' = dom minimal_mem.
Proof.
  destruct (frame_mem_buffers (replicate 8 0) [0; 0] [0; 0]
              (minimal_source 0 0 0 0)) as (By & Bu & Bv & Bs).
  apply (converter_stays_in_bounds Portable Y U V YUYV 8 2 minimal_mem).
  - unfold INT_MAX. lia.
  - reflexivity.
  - unfold INT_MAX. lia.
  - reflexivity.
  - exact Bs.
  - exact By.
  - exact Bu.
  - exact Bv.
Defined.

Lemma odd_height_runs_extra_row_witness :
  yuyv_to_yuv420p Portable Y U V YUYV 8 1 minimal_mem
  = yuyv_to_yuv420p Portable Y U V YUYV 8 (1 + 1) minimal_mem ∧
  (1 < INT_MAX →
   yuyv_to_yuv420p Portable Y U V YUYV 8 1 minimal_mem
   = row_pairs Portable Y U V YUYV 8 0 (Z.to_nat ((1 + 1) / 2)) minimal_mem ∧
   (0 ≤ 8 ≤ INT_MAX → 8 mod block_bytes Portable = 0 →
    frame_valid Y U V YUYV (8 / 4) ((1 + 1) / 2) minimal_mem →
    frame_sep Y U V YUYV (8 / 4) ((1 + 1) / 2) →
    ∃ m', yuyv_to_yuv420p Portable Y U V YUYV 8 1 minimal_mem = Ok m' ∧
          luma_copied Y YUYV 8 (1 + 1) minimal_mem m')).
Proof.
  apply (odd_height_runs_extra_row Portable Y U V YUYV 8 1 minimal_mem).
  - lia.
  - reflexivity.
Defined.

Lemma converter_writes_outputs_only_witness :
  ∃ m', yuyv_to_yuv420p Portable Y U V YUYV 8 2 minimal_mem = Ok m' ∧
        outputs_only Y U V minimal_mem m' ∧
        (YUYV.1 ≠ Y.1 → YUYV.1 ≠ U.1 → YUYV.1 ≠ V.1 →
         ∀ j, m' !! (YUYV +ₚ j) = minimal_mem !! (YUYV +ₚ j)) ∧
        (0 ≤ 8 ≤ INT_MAX → 8 mod block_bytes Portable = 0 →
         0 ≤ 2 ≤ INT_MAX → 2 mod 2 = 0 →
         frame_valid Y U V YUYV (8 / 4) (2 / 2) minimal_mem →
         frame_sep Y U V YUYV (8 / 4) (2 / 2) →
         (∀ j, 0 ≤ j < 2 * 8 →
               m' !! (YUYV +ₚ j) = minimal_mem !! (YUYV +ₚ j)) ∧
         (∀ q, ¬ in_rng Y (2 * (8 / 2)) q →
               ¬ in_rng U (2 / 2 * (8 / 4)) q →
               ¬ in_rng V (2 / 2 * (8 / 4)) q →
               m' !! q = minimal_mem !! q)).
Proof.
  destruct (convert_total Portable Y U V YUYV 8 2 minimal_mem)
    as (m' & Hrun & _).
  - unfold INT_MAX. lia.
  - reflexivity.
  - unfold INT_MAX. lia.
  - reflexivity.
  - exact (minimal_mem_valid 0 0 0 0).
  - exists m'. split; [exact Hrun|].
    exact (converter_writes_outputs_only Portable Y U V YUYV 8 2
             minimal_mem m' Hrun).
Defined.

(** * Further properties *)

(** ** The whole frame *)

(** Every location of the three planes is written. *)
Lemma frame_map_total (y u v s : ptr) (n P : Z) (q : ptr) :
  0 < n →
  in_rng y (2 * P * (2 * n)) q ∨ in_rng u (P * n) q ∨ in_rng v (P * n) q →
  ∃ p, frame_map y u v s n P q p.
Proof.
  intros Hn [Hy|[Hu|Hv]].
  - apply in_rng_rows in Hy as (r & j & Hr & Hj & ->); [|lia].
    exists (s +ₚ r * (4 * n) +ₚ 2 * j). left. exists r.
    split; [done|]. by exists j.
  - apply in_rng_rows in Hu as (r & j & Hr & Hj & ->); [|lia].
    exists (s +ₚ 2 * r * (4 * n) +ₚ (4 * j + 1)). right; left.
    exists r. split; [done|]. by exists j.
  - apply in_rng_rows in Hv as (r & j & Hr & Hj & ->); [|lia].
    exists (s +ₚ 2 * r * (4 * n) +ₚ (4 * j + 3)). right; right.
    exists r. split; [done|]. by exists j.
Qed.

(** No location of the source is written. *)
Lemma frame_source_unwritten (y u v s : ptr) (n P : Z) (p : ptr) :
  0 ≤ n → 0 ≤ P → frame_sep y u v s n P →
  in_rng s (2 * P * (4 * n)) p → ∀ p', ¬ frame_map y u v s n P p p'.
Proof.
  intros Hn HP (_ & _ & _ & Hsy & Hsu & Hsv) Hin p'
    [[H|[H|H]] _]%frame_map_rng; [| |
    |lia..].
  - exact (in_rng_disjoint _ _ _ _ _ Hsy Hin H).
  - exact (in_rng_disjoint _ _ _ _ _ Hsu Hin H).
  - exact (in_rng_disjoint _ _ _ _ _ Hsv Hin H).
Qed.

Lemma in_rng_at (p : ptr) (n j : Z) : 0 ≤ j < n → in_rng p n (p +ₚ j).
Proof. unfold in_rng, shift; simpl. lia. Qed.

(** X1.  For every valid frame, in buffers that are accessible and apart, the
    converter returns with the whole luma plane written: luma byte [c] of
    row [r], for every row [r] below the height, even or odd, is byte [2c]
    of source row [r]. *)
Theorem converter_samples_luma (t : target) (y u v s : ptr)
    (stride height : Z) (m : mem) :
  0 < stride ≤ INT_MAX → stride mod block_bytes t = 0 →
  0 < height ≤ INT_MAX → height mod 2 = 0 →
  frame_valid y u v s (stride / 4) (height / 2) m →
  frame_sep y u v s (stride / 4) (height / 2) →
  ∃ m', yuyv_to_yuv420p t y u v s stride height m = Ok m' ∧
        luma_sampled y s stride height m m'.
Proof.
  intros Hstride Hmod Hheight Hmod2 Hvalid Hsep.
  assert (stride mod 4 = 0) as Hmod4 by (destruct t; simpl in Hmod; zlia).
  destruct (convert_total t y u v s stride height m)
    as (m' & Hrun & _ & X); [lia|done|lia|done|done|].
  exists m'. split; [done|].
  apply (frame_xfer_luma_rows y u v s); [lia|done|by apply X|done].
Qed.

(** X2.  The three planes the converter leaves are a function of the source
    frame alone: two memories that hold the same source bytes get the same
    luma, U and V planes, whatever the planes and the rest of the memory
    held before.  Every byte of the planes is overwritten. *)
Theorem planes_depend_on_source_only (t : target) (y u v s : ptr)
    (stride height : Z) (m1 m2 : mem) :
  0 < stride ≤ INT_MAX → stride mod block_bytes t = 0 →
  0 < height ≤ INT_MAX → height mod 2 = 0 →
  frame_valid y u v s (stride / 4) (height / 2) m1 →
  frame_valid y u v s (stride / 4) (height / 2) m2 →
  frame_sep y u v s (stride / 4) (height / 2) →
  same_rng s (height * stride) m1 m2 →
  ∃ m1' m2', yuyv_to_yuv420p t y u v s stride height m1 = Ok m1' ∧
             yuyv_to_yuv420p t y u v s stride height m2 = Ok m2' ∧
             same_planes y u v stride height m1' m2'.
Proof.
  intros Hstride Hmod Hheight Hmod2 Hvalid1 Hvalid2 Hsep Hsrc.
  assert (stride mod 4 = 0) as Hmod4 by (destruct t; simpl in Hmod; zlia).
  destruct (geometry_sizes stride height) as (Hsz & Hy & _ & Hn & HP);
    [lia|done|lia|done|].
  assert (0 < stride / 4) as Hn' by zlia.
  destruct (convert_total t y u v s stride height m1)
    as (m1' & H1 & _ & X1); [lia|done|lia|done|done|].
  destruct (convert_total t y u v s stride height m2)
    as (m2' & H2 & _ & X2); [lia|done|lia|done|done|].
  destruct (X1 Hsep) as (_ & _ & V1). destruct (X2 Hsep) as (_ & _ & V2).
  exists m1', m2'. split; [done|]. split; [done|].
  assert (∀ q, in_rng y (2 * (height / 2) * (2 * (stride / 4))) q ∨
               in_rng u (height / 2 * (stride / 4)) q ∨
               in_rng v (height / 2 * (stride / 4)) q →
               m1' !! q = m2' !! q) as Hsame.
  { intros q Hq.
    destruct (frame_map_total y u v s _ _ q Hn' Hq) as [p Hp].
    rewrite (V1 _ _ Hp), (V2 _ _ Hp).
    apply frame_map_rng in Hp as [_ Hp]; [|lia..].
    apply in_rng_shift in Hp as (j & Hj & ->). apply Hsrc. lia. }
  repeat split; intros j Hj; apply Hsame.
  - left. apply in_rng_at. lia.
  - right; left. by apply in_rng_at.
  - right; right. by apply in_rng_at.
Qed.

(** X3.  Converting twice is converting once: the source is not written and
    the planes are a function of it, so a second call on the memory the
    first one left returns that memory. *)
Theorem converter_idempotent (t : target) (y u v s : ptr)
    (stride height : Z) (m : mem) :
  0 < stride ≤ INT_MAX → stride mod block_bytes t = 0 →
  0 < height ≤ INT_MAX → height mod 2 = 0 →
  frame_valid y u v s (stride / 4) (height / 2) m →
  frame_sep y u v s (stride / 4) (height / 2) →
  ∃ m', yuyv_to_yuv420p t y u v s stride height m = Ok m' ∧
        yuyv_to_yuv420p t y u v s stride height m' = Ok m'.
Proof.
  intros Hstride Hmod Hheight Hmod2 Hvalid Hsep.
  assert (stride mod 4 = 0) as Hmod4 by (destruct t; simpl in Hmod; zlia).
  destruct (geometry_sizes stride height) as (_ & _ & _ & Hn & HP);
    [lia|done|lia|done|].
  destruct (convert_total t y u v s stride height m)
    as (m' & H1 & Hdom & X1); [lia|done|lia|done|done|].
  destruct (convert_total t y u v s stride height m')
    as (m'' & H2 & _ & X2); [lia|done|lia|done| |].
  { destruct Hvalid as (Vs & Vy & Vu & Vv).
    repeat split; by apply (valid_rng_dom m). }
  exists m'. split; [done|]. rewrite H2. f_equal.
  destruct (X1 Hsep) as (_ & F1 & V1). destruct (X2 Hsep) as (_ & F2 & V2).
  apply map_eq. intros q.
  destruct (frame_map_dec y u v s (stride / 4) (height / 2) q Hn HP)
    as [[p Hp]|Hq]; [|by apply F2].
  rewrite (V2 _ _ Hp), (V1 _ _ Hp). apply F1.
  apply frame_map_rng in Hp as [_ Hp]; [|lia..].
  by apply (frame_source_unwritten y u v s).
Qed.

(** X4.  A frame of one colour, every source group [a b a c], converts to a
    luma plane of [a], a U plane of [b] and a V plane of [c]. *)
Theorem solid_colour_planes (t : target) (y u v s : ptr)
    (stride height a b c : Z) (m : mem) :
  0 < stride ≤ INT_MAX → stride mod block_bytes t = 0 →
  0 < height ≤ INT_MAX → height mod 2 = 0 →
  frame_valid y u v s (stride / 4) (height / 2) m →
  frame_sep y u v s (stride / 4) (height / 2) →
  solid_source s stride height a b c m →
  ∃ m', yuyv_to_yuv420p t y u v s stride height m = Ok m' ∧
        all_bytes y (height * (stride / 2)) a m' ∧
        all_bytes u (height / 2 * (stride / 4)) b m' ∧
        all_bytes v (height / 2 * (stride / 4)) c m'.
Proof.
  intros Hstride Hmod Hheight Hmod2 Hvalid Hsep Hsolid.
  assert (stride mod 4 = 0) as Hmod4 by (destruct t; simpl in Hmod; zlia).
  destruct (geometry_sizes stride height) as (_ & Hy & _ & Hn & HP);
    [lia|done|lia|done|].
  assert (0 < stride / 4 ∧ stride = 4 * (stride / 4) ∧
          stride / 2 = 2 * (stride / 4) ∧ height = 2 * (height / 2))
    as (Hn' & Hs4 & Hhalf & Hh2) by zlia.
  destruct (convert_total t y u v s stride height m)
    as (m' & Hrun & _ & X); [lia|done|lia|done|done|].
  specialize (X Hsep).
  pose proof (frame_xfer_luma_rows y u v s stride height m m'
                ltac:(lia) Hmod4 X Hmod2) as HL.
  pose proof (frame_xfer_chroma y u v s stride height m m'
                ltac:(lia) Hmod4 X) as HC.
  exists m'. split; [done|].
  split; [|split].
  - intros j Hj.
    pose proof (Z.div_mod j (stride / 2) ltac:(lia)) as Hdm.
    pose proof (Z.mod_pos_bound j (stride / 2) ltac:(lia)) as Hmod'.
    assert (0 ≤ j / (stride / 2) < height) as Hr.
    { split; [apply Z.div_pos; lia|apply Z.div_lt_upper_bound; lia]. }
    pose proof (Z.div_mod (j mod (stride / 2)) 2 ltac:(lia)) as Hdm2.
    pose proof (Z.mod_pos_bound (j mod (stride / 2)) 2 ltac:(lia)) as Hmod2'.
    assert (0 ≤ j mod (stride / 2) / 2 < (stride / 4)) as Hg.
    { split; [apply Z.div_pos; lia|apply Z.div_lt_upper_bound; lia]. }
    replace (y +ₚ j) with (y +ₚ (j / (stride / 2) * (stride / 2) + j mod (stride / 2)))
      by (apply shift_eq; lia).
    rewrite (HL _ _ Hr Hmod').
    destruct (Hsolid _ _ Hr Hg) as (E0 & _ & E2 & _).
    destruct (decide (j mod (stride / 2) mod 2 = 0)) as [He|He].
    + rewrite <- E0. f_equal. apply shift_eq. lia.
    + rewrite <- E2. f_equal. apply shift_eq. lia.
  - intros j Hj.
    pose proof (Z.div_mod j (stride / 4) ltac:(lia)) as Hdm.
    pose proof (Z.mod_pos_bound j (stride / 4) ltac:(lia)) as Hmod'.
    assert (0 ≤ j / (stride / 4) < height / 2) as Hr.
    { split; [apply Z.div_pos; lia|apply Z.div_lt_upper_bound; lia]. }
    replace (u +ₚ j) with (u +ₚ (j / (stride / 4) * (stride / 4) + j mod (stride / 4)))
      by (apply shift_eq; lia).
    destruct (HC _ _ Hr Hmod') as [-> _].
    assert (0 ≤ 2 * (j / (stride / 4)) < height) as Hr2 by lia.
    destruct (Hsolid _ _ Hr2 Hmod') as (_ & E1 & _).
    rewrite <- E1. f_equal.
  - intros j Hj.
    pose proof (Z.div_mod j (stride / 4) ltac:(lia)) as Hdm.
    pose proof (Z.mod_pos_bound j (stride / 4) ltac:(lia)) as Hmod'.
    assert (0 ≤ j / (stride / 4) < height / 2) as Hr.
    { split; [apply Z.div_pos; lia|apply Z.div_lt_upper_bound; lia]. }
    replace (v +ₚ j) with (v +ₚ (j / (stride / 4) * (stride / 4) + j mod (stride / 4)))
      by (apply shift_eq; lia).
    destruct (HC _ _ Hr Hmod') as [_ ->].
    assert (0 ≤ 2 * (j / (stride / 4)) < height) as Hr2 by lia.
    destruct (Hsolid _ _ Hr2 Hmod') as (_ & _ & _ & E3).
    rewrite <- E3. f_equal.
Qed.

(** ** Frames in bands *)

Lemma row_pairs_app (t : target) (y u v s : ptr) (stride : Z) (n1 n2 : nat) :
  ∀ (k : Z) (m : mem),
    row_pairs t y u v s stride k (n1 + n2) m
    = (m1 ← row_pairs t y u v s stride k n1 m;
       row_pairs t y u v s stride (k + Z.of_nat n1) n2 m1).
Proof.
  induction n1 as [|n1 IH]; intros k m; simpl.
  - by replace (k + Z.of_nat 0) with k by lia.
  - destruct (unpack_even t _ _ _ _ stride m) as [m1|e]; simpl; [|done].
    destruct (unpack_odd t _ _ stride m1) as [m2|e]; simpl; [|done].
    rewrite IH. by replace (k + 1 + Z.of_nat n1)
                     with (k + Z.of_nat (Datatypes.S n1)) by lia.
Qed.

Lemma row_pairs_shift (t : target) (y u v s : ptr) (stride k0 : Z) (n : nat) :
  ∀ (k : Z) (m : mem),
    row_pairs t (y +ₚ 2 * k0 * (stride ÷ 2)) (u +ₚ k0 * (stride ÷ 4))
      (v +ₚ k0 * (stride ÷ 4)) (s +ₚ 2 * k0 * stride) stride k n m
    = row_pairs t y u v s stride (k0 + k) n m.
Proof.
  induction n as [|n IH]; intros k m; simpl; [done|].
  rewrite !shift_shift.
  replace (2 * k0 * (stride ÷ 2) + 2 * k * (stride ÷ 2))
    with (2 * (k0 + k) * (stride ÷ 2)) by lia.
  replace (k0 * (stride ÷ 4) + k * (stride ÷ 4))
    with ((k0 + k) * (stride ÷ 4)) by lia.
  replace (2 * k0 * stride + 2 * k * stride)
    with (2 * (k0 + k) * stride) by lia.
  replace (2 * k0 * (stride ÷ 2) + (2 * k + 1) * (stride ÷ 2))
    with ((2 * (k0 + k) + 1) * (stride ÷ 2)) by lia.
  replace (2 * k0 * stride + (2 * k + 1) * stride)
    with ((2 * (k0 + k) + 1) * stride) by lia.
  destruct (unpack_even t _ _ _ _ stride m) as [m1|e]; simpl; [|done].
  destruct (unpack_odd t _ _ stride m1) as [m2|e]; simpl; [|done].
  rewrite IH. by replace (k0 + (k + 1)) with (k0 + k + 1) by lia.
Qed.

(** X5.  A frame can be converted in horizontal bands: for an even [h1],
    the call with height [h1 + h2] is the call with height [h1] followed by
    the call with height [h2] on the pointers moved past [h1] rows, to the
    same memory or the same error, for every stride and every memory. *)
Theorem converter_in_bands (t : target) (y u v s : ptr) (stride h1 h2 : Z)
    (m : mem) :
  0 ≤ h1 → h1 mod 2 = 0 → 0 ≤ h2 → h1 + h2 < INT_MAX →
  yuyv_to_yuv420p t y u v s stride (h1 + h2) m
  = (m1 ← yuyv_to_yuv420p t y u v s stride h1 m;
     yuyv_to_yuv420p t (y +ₚ h1 * (stride ÷ 2)) (u +ₚ h1 / 2 * (stride ÷ 4))
       (v +ₚ h1 / 2 * (stride ÷ 4)) (s +ₚ h1 * stride) stride h2 m1).
Proof.
  intros Hh1 Hmod Hh2 Hmax.
  assert (∃ a, h1 = 2 * a ∧ 0 ≤ a) as (a & -> & Ha)
    by (exists (h1 / 2); zlia).
  replace (2 * a / 2) with a by zlia.
  rewrite (convert_row_pairs t y u v s stride (2 * a + h2)) by lia.
  rewrite (convert_row_pairs t y u v s stride (2 * a)) by lia.
  replace (Z.to_nat ((2 * a + h2 + 1) / 2))
    with (Z.to_nat ((2 * a + 1) / 2) + Z.to_nat ((h2 + 1) / 2))%nat by zlia.
  rewrite row_pairs_app.
  destruct (row_pairs t y u v s stride 0 _ m) as [m1|e]; simpl; [|done].
  rewrite convert_row_pairs by lia.
  rewrite row_pairs_shift.
  by replace (0 + Z.of_nat (Z.to_nat ((2 * a + 1) / 2))) with (a + 0) by zlia.
Qed.

(** ** Nothing to convert *)

Lemma for_loop_empty {S : Type} (body : S → result S) (fuel : nat)
    (i bound step : Z) (s : S) :
  bound ≤ i → for_loop fuel i bound step body s = Ok s.
Proof.
  intros Hi. assert ((i <? bound) = false) as E by (apply Z.ltb_ge; lia).
  destruct fuel; simpl; by rewrite E.
Qed.

Lemma unpack_even_empty (t : target) (y u v s : ptr) (stride : Z) (m : mem) :
  stride ≤ 0 → unpack_even t y u v s stride m = Ok m.
Proof.
  intros Hstride. unfold unpack_even.
  destruct t; by rewrite for_loop_empty.
Qed.

Lemma unpack_odd_empty (t : target) (y s : ptr) (stride : Z) (m : mem) :
  stride ≤ 0 → unpack_odd t y s stride m = Ok m.
Proof.
  intros Hstride. unfold unpack_odd.
  destruct t; by rewrite for_loop_empty.
Qed.

Lemma row_pairs_empty (t : target) (y u v s : ptr) (stride : Z) (n : nat) :
  stride ≤ 0 → ∀ k m, row_pairs t y u v s stride k n m = Ok m.
Proof.
  intros Hstride. induction n as [|n IH]; intros k m; simpl; [done|].
  rewrite unpack_even_empty by done. simpl.
  rewrite unpack_odd_empty by done. simpl. apply IH.
Qed.

(** X6.  With nothing to convert, a height or a stride that is zero or
    negative, the converter returns the memory as it is, and accesses no
    byte of it: the buffers need not even be mapped. *)
Theorem converter_of_nothing (t : target) (y u v s : ptr)
    (stride height : Z) (m : mem) :
  height ≤ 0 ∨ (stride ≤ 0 ∧ height < INT_MAX) →
  yuyv_to_yuv420p t y u v s stride height m = Ok m.
Proof.
  intros [Hheight|[Hstride Hheight]].
  - unfold yuyv_to_yuv420p. by rewrite for_loop_empty.
  - destruct (decide (height ≤ 0)) as [Hle|Hgt].
    + unfold yuyv_to_yuv420p. by rewrite for_loop_empty.
    + rewrite convert_row_pairs by lia. by apply row_pairs_empty.
Qed.

(** ** Counters that overflow *)

(** A loop whose counter cannot reach the bound without leaving the range
    of [int] does not return. *)
Lemma for_loop_overflow {S : Type} (body : S → result S) (bound step : Z)
    (fuel : nat) :
  0 < step →
  (∀ i, i mod step = 0 → i ≤ INT_MAX → i < bound) →
  ∀ (i : Z) (s : S),
    i mod step = 0 → i ≤ INT_MAX →
    ∃ e, for_loop fuel i bound step body s = Err e.
Proof.
  intros Hstep Hbound. induction fuel as [|fuel IH]; intros i s Hi Hmax;
    simpl; assert ((i <? bound) = true) as -> by (apply Z.ltb_lt; auto).
  - eauto.
  - destruct (body s) as [s'|e]; simpl; [|eauto].
    unfold int_add. case_match eqn:E; simpl; [|eauto].
    apply andb_true_iff in E as [_ E%Z.leb_le]. apply IH; [|done].
    rewrite <- (Z.mul_1_l step) at 1. by rewrite Z_mod_plus_full.
Qed.

(** X7.  At height [INT_MAX] the converter returns for no input: the
    height is odd, so the loop needs [row] to pass it, and [row += 2]
    overflows first unless an access has gone out of range before. *)
Theorem converter_at_int_max (t : target) (y u v s : ptr) (stride height : Z)
    (m : mem) :
  INT_MAX ≤ height →
  ∃ e, yuyv_to_yuv420p t y u v s stride height m = Err e ∧
       (e = OutOfBounds ∨ e = SignedOverflow).
Proof.
  intros Hheight.
  pose proof (convert_fuel t y u v s stride height m) as Hfuel.
  unfold yuyv_to_yuv420p in *.
  destruct (for_loop_overflow (row_pair t stride) height 2
              (Z.to_nat height) ltac:(lia)) with (i := 0)
    (s := (y, u, v, s, m)) as [e He]; [|done|done|].
  { intros i Hi Hmax. unfold INT_MAX in *. zlia. }
  rewrite He in *. simpl in *. exists e. split; [done|].
  destruct e; auto. done.
Qed.

(** X8.  A stride above the last multiple of the block below [INT_MAX],
    above [INT_MAX - 3] in the portable build and above [INT_MAX - 31] in
    the NEON one, is one no row unpacker returns for: the counter [i]
    overflows before it reaches the stride. *)
Theorem unpackers_at_int_max (t : target) (y u v s : ptr) (stride : Z)
    (m : mem) :
  INT_MAX + 1 - block_bytes t < stride →
  (∃ e, unpack_even t y u v s stride m = Err e ∧
        (e = OutOfBounds ∨ e = SignedOverflow)) ∧
  (∃ e, unpack_odd t y s stride m = Err e ∧
        (e = OutOfBounds ∨ e = SignedOverflow)).
Proof.
  intros Hstride.
  pose proof (unpack_even_fuel t y u v s stride m) as Hfe.
  pose proof (unpack_odd_fuel t y s stride m) as Hfo.
  unfold unpack_even, unpack_odd in *. split.
  - assert (∃ e, match t with
                 | Portable =>
                     for_loop (Z.to_nat stride) 0 stride 4 unpack_even_body
                       (y, u, v, s, m)
                 | ArmNeon =>
                     for_loop (Z.to_nat stride) 0 stride 32
                       unpack_even_body_neon (y, u, v, s, m)
                 end = Err e) as [e He].
    { destruct t; simpl in Hstride;
        (apply for_loop_overflow; [lia| |done|done]);
        intros i Hi Hmax; unfold INT_MAX in *; zlia. }
    rewrite He in *. simpl in *. exists e. split; [done|].
    destruct e; auto. done.
  - assert (∃ e, match t with
                 | Portable =>
                     for_loop (Z.to_nat stride) 0 stride 4 unpack_odd_body
                       (y, s, m)
                 | ArmNeon =>
                     for_loop (Z.to_nat stride) 0 stride 32
                       unpack_odd_body_neon (y, s, m)
                 end = Err e) as [e He].
    { destruct t; simpl in Hstride;
        (apply for_loop_overflow; [lia| |done|done]);
        intros i Hi Hmax; unfold INT_MAX in *; zlia. }
    rewrite He in *. simpl in *. exists e. split; [done|].
    destruct e; auto. done.
Qed.

(** ** Strides between blocks *)

(** X9.  A row unpacker takes whole blocks, of 4 bytes in the portable
    build and of 32 in the NEON one, and rounds the stride up to the next
    multiple: on every memory it does with a stride what it does with the
    stride rounded up, so at stride 8 the NEON build unpacks a row of 32
    bytes. *)
Theorem unpackers_round_stride_up (t : target) (y u v s : ptr) (stride : Z)
    (m : mem) :
  0 ≤ stride → round_up (block_bytes t) stride ≤ INT_MAX →
  unpack_even t y u v s stride m
  = unpack_even t y u v s (round_up (block_bytes t) stride) m ∧
  unpack_odd t y s stride m
  = unpack_odd t y s (round_up (block_bytes t) stride) m.
Proof.
  intros Hstride Hmax. unfold unpack_even, unpack_odd, round_up, INT_MAX in *.
  destruct t; simpl in *.
  - rewrite !(for_loop_repeat _ stride 4 ltac:(lia)
                (Z.to_nat ((stride + 3) / 4)))
      by (unfold INT_MIN, INT_MAX; zlia).
    rewrite !(for_loop_repeat _ ((stride + 4 - 1) / 4 * 4) 4 ltac:(lia)
                (Z.to_nat ((stride + 3) / 4)))
      by (unfold INT_MIN, INT_MAX; zlia).
    done.
  - rewrite !(for_loop_repeat _ stride 32 ltac:(lia)
                (Z.to_nat ((stride + 31) / 32)))
      by (unfold INT_MIN, INT_MAX; zlia).
    rewrite !(for_loop_repeat _ ((stride + 32 - 1) / 32 * 32) 32 ltac:(lia)
                (Z.to_nat ((stride + 31) / 32)))
      by (unfold INT_MIN, INT_MAX; zlia).
    done.
Qed.

(** ** Runs that return have accessed mapped bytes *)

Lemma valid_rng_app (m : mem) (p : ptr) (a b c : Z) :
  0 ≤ a → valid_rng m p a → valid_rng m (p +ₚ a) b → c = a + b →
  valid_rng m p c.
Proof.
  intros Ha H1 H2 -> j Hj. destruct (decide (j < a)); [apply H1; lia|].
  replace j with (a + (j - a)) by lia. rewrite <- shift_shift.
  apply H2. lia.
Qed.

Lemma valid_rng_one (m : mem) (p : ptr) :
  is_Some (m !! p) → valid_rng m p 1.
Proof.
  intros H j Hj. assert (j = 0) as -> by lia. by rewrite shift_0.
Qed.

Lemma copy_Ok (m m' : mem) (dst src : ptr) (b : Z) :
  load m src = Ok b → store m dst b = Ok m' →
  valid_rng m src 1 ∧ valid_rng m dst 1 ∧ dom m' = dom m.
Proof.
  unfold load. intros Hl [Hd ->]%store_Ok.
  split; [|split; [by apply valid_rng_one|by apply dom_insert_valid]].
  apply valid_rng_one. destruct (m !! src); [eauto|done].
Qed.

Lemma load_bytes_Ok (m : mem) (n : nat) :
  ∀ p l, load_bytes m p n = Ok l →
         valid_rng m p (Z.of_nat n) ∧ length l = n.
Proof.
  induction n as [|n IH]; intros p l; simpl.
  - intros [= <-]. split; [|done]. intros j Hj. lia.
  - intros (b & Hb & (l' & Hl' & [= <-])%bind_Ok)%bind_Ok.
    apply IH in Hl' as [Hv Hlen]. split; [|by rewrite <- Hlen].
    apply (valid_rng_app m p 1 (Z.of_nat n)); [lia| |done|lia].
    apply valid_rng_one. unfold load in Hb. destruct (m !! p); [eauto|done].
Qed.

Lemma store_bytes_Ok (l : list Z) :
  ∀ m p m', store_bytes m p l = Ok m' →
            valid_rng m p (Z.of_nat (length l)) ∧ dom m' = dom m.
Proof.
  induction l as [|b l IH]; intros m p m'; simpl.
  - intros [= <-]. split; [|done]. intros j Hj. lia.
  - intros (m1 & [Hv ->]%store_Ok & [Hl Hdom]%IH)%bind_Ok.
    rewrite dom_insert_valid in Hdom by done. split; [|done].
    apply (valid_rng_app m p 1 (Z.of_nat (length l))); [lia| | |lia].
    + by apply valid_rng_one.
    + eapply valid_rng_dom; [|exact Hl]. symmetry. by apply dom_insert_valid.
Qed.

Lemma unpack_even_body_Ok (y u v s : ptr) (m : mem) (st' : even_state) :
  unpack_even_body (y, u, v, s, m) = Ok st' →
  even_valid y u v s 1 m ∧
  ∃ m', st' = (y +ₚ 2 * 1, u +ₚ 1, v +ₚ 1, s +ₚ 4 * 1, m') ∧ dom m' = dom m.
Proof.
  unfold unpack_even_body.
  intros (b0 & L0 & (m1 & S0 & H)%bind_Ok)%bind_Ok. simpl in H.
  apply bind_Ok in H as (b1 & L1 & (m2 & S1 & H)%bind_Ok). simpl in H.
  apply bind_Ok in H as (b2 & L2 & (m3 & S2 & H)%bind_Ok). simpl in H.
  apply bind_Ok in H as (b3 & L3 & (m4 & S3 & [= <-])%bind_Ok).
  destruct (copy_Ok _ _ _ _ _ L0 S0) as (Vs0 & Vy0 & D1).
  destruct (copy_Ok _ _ _ _ _ L1 S1) as (Vs1 & Vu & D2).
  destruct (copy_Ok _ _ _ _ _ L2 S2) as (Vs2 & Vy1 & D3).
  destruct (copy_Ok _ _ _ _ _ L3 S3) as (Vs3 & Vv & D4).
  assert (dom m = dom m1 ∧ dom m = dom m2 ∧ dom m = dom m3)
    as (E1 & E2 & E3) by (split_and!; congruence).
  apply (valid_rng_dom _ m) in Vs1, Vu, Vs2, Vy1, Vs3, Vv; try done.
  split.
  - split_and!; try done.
    + apply (valid_rng_app m s 1 3); [lia|done| |lia].
      apply (valid_rng_app m _ 1 2); [lia|done| |lia].
      by apply (valid_rng_app m _ 1 1).
    + by apply (valid_rng_app m y 1 1).
  - exists m4. rewrite !shift_shift. split; [done|congruence].
Qed.

Lemma unpack_odd_body_Ok (y s : ptr) (m : mem) (st' : odd_state) :
  unpack_odd_body (y, s, m) = Ok st' →
  (luma_bytes_valid m s (2 * 1) ∧ valid_rng m y (2 * 1)) ∧
  ∃ m', st' = (y +ₚ 2 * 1, s +ₚ 4 * 1, m') ∧ dom m' = dom m.
Proof.
  unfold unpack_odd_body.
  intros (b0 & L0 & (m1 & S0 & H)%bind_Ok)%bind_Ok. simpl in H.
  apply bind_Ok in H as (b2 & L2 & (m3 & S2 & [= <-])%bind_Ok).
  destruct (copy_Ok _ _ _ _ _ L0 S0) as (Vs0 & Vy0 & D1).
  destruct (copy_Ok _ _ _ _ _ L2 S2) as (Vs2 & Vy1 & D3).
  apply (valid_rng_dom _ m) in Vs2, Vy1; try done.
  split; [split|].
  - intros j Hj. assert (j = 0 ∨ j = 1) as [->| ->] by lia.
    + apply Vs0. lia.
    + specialize (Vs2 0 ltac:(lia)). by rewrite !shift_shift in Vs2.
  - by apply (valid_rng_app m y 1 1).
  - exists m3. rewrite !shift_shift. split; [done|congruence].
Qed.

Lemma unpack_even_body_neon_Ok (y u v s : ptr) (m : mem)
    (st' : even_state) :
  unpack_even_body_neon (y, u, v, s, m) = Ok st' →
  even_valid y u v s 8 m ∧
  ∃ m', st' = (y +ₚ 2 * 8, u +ₚ 8, v +ₚ 8, s +ₚ 4 * 8, m') ∧ dom m' = dom m.
Proof.
  unfold unpack_even_body_neon, vld2q_u8, vst1q_u8, vst1_u8, vld2_u8_local.
  intros (yuv & (l & [Vs Hlen]%load_bytes_Ok & [= <-])%bind_Ok & H)%bind_Ok.
  destruct (deinterleave_spec 16 l Hlen) as (Hlen1 & Hlen2 & _).
  destruct (deinterleave l) as [ys uv]. cbn [fst snd] in *.
  destruct (deinterleave_spec 8 uv Hlen2) as (Hlen3 & Hlen4 & _).
  destruct (deinterleave uv) as [us vs]. cbn [fst snd] in *.
  apply bind_Ok in H as (m1 & [Vy D1]%store_bytes_Ok & H).
  apply bind_Ok in H as (m2 & [Vu D2]%store_bytes_Ok & H).
  apply bind_Ok in H as (m3 & [Vv D3]%store_bytes_Ok & [= <-]).
  rewrite Hlen1 in Vy. rewrite Hlen3 in Vu. rewrite Hlen4 in Vv.
  apply (valid_rng_dom _ m) in Vu, Vv; [|congruence..].
  split; [by split_and!|]. exists m3. split; [done|congruence].
Qed.

Lemma unpack_odd_body_neon_Ok (y s : ptr) (m : mem) (st' : odd_state) :
  unpack_odd_body_neon (y, s, m) = Ok st' →
  odd_valid y s 8 m ∧
  ∃ m', st' = (y +ₚ 2 * 8, s +ₚ 4 * 8, m') ∧ dom m' = dom m.
Proof.
  unfold unpack_odd_body_neon, vld2q_u8, vst1q_u8.
  intros (yuv & (l & [Vs Hlen]%load_bytes_Ok & [= <-])%bind_Ok & H)%bind_Ok.
  destruct (deinterleave_spec 16 l Hlen) as (Hlen1 & _).
  destruct (deinterleave l) as [ys uv]. cbn [fst snd] in *.
  apply bind_Ok in H as (m1 & [Vy D1]%store_bytes_Ok & [= <-]).
  rewrite Hlen1 in Vy. split; [by split|]. by exists m1.
Qed.

Lemma luma_bytes_valid_app (m : mem) (s : ptr) (a b c : Z) :
  0 ≤ a → luma_bytes_valid m s a → luma_bytes_valid m (s +ₚ 2 * a) b →
  c = a + b → luma_bytes_valid m s c.
Proof.
  intros Ha H1 H2 -> j Hj. destruct (decide (j < a)); [apply H1; lia|].
  replace (2 * j) with (2 * a + 2 * (j - a)) by lia. rewrite <- shift_shift.
  apply H2. lia.
Qed.

Lemma luma_bytes_valid_dom (m m' : mem) (s : ptr) (n : Z) :
  dom m' = dom m → luma_bytes_valid m s n → luma_bytes_valid m' s n.
Proof. intros Hdom H j Hj. eapply dom_is_Some; eauto. Qed.

Lemma valid_rng_luma (m : mem) (s : ptr) (n : Z) :
  valid_rng m s (2 * n) → luma_bytes_valid m s n.
Proof. intros H j Hj. apply H. lia. Qed.

(** The rows a loop that returns has run on were accessible. *)
Lemma even_rows_Ok (body : even_state → result even_state) (k : Z) :
  0 ≤ k →
  (∀ y u v s m st',
     body (y, u, v, s, m) = Ok st' →
     even_valid y u v s k m ∧
     ∃ m', st' = (y +ₚ 2 * k, u +ₚ k, v +ₚ k, s +ₚ 4 * k, m') ∧
           dom m' = dom m) →
  ∀ (N : nat) y u v s m st',
    repeatM N body (y, u, v, s, m) = Ok st' →
    even_valid y u v s (Z.of_nat N * k) m.
Proof.
  intros Hk Hbody. induction N as [|N IH]; intros y u v s m st'; simpl.
  - intros _. repeat split; intros j Hj; lia.
  - intros (st1 & [(Vs & Vy & Vu & Vv) (m1 & -> & Hdom)]%Hbody & Hrun)%bind_Ok.
    apply IH in Hrun as (Vs' & Vy' & Vu' & Vv').
    apply (valid_rng_dom _ m) in Vs', Vy', Vu', Vv'; [|done..].
    assert (0 ≤ Z.of_nat N * k) by nia.
    repeat split.
    + apply (valid_rng_app m s (4 * k) (4 * (Z.of_nat N * k))); [lia|done..|lia].
    + apply (valid_rng_app m y (2 * k) (2 * (Z.of_nat N * k))); [lia|done..|lia].
    + apply (valid_rng_app m u k (Z.of_nat N * k)); [lia|done..|lia].
    + apply (valid_rng_app m v k (Z.of_nat N * k)); [lia|done..|lia].
Qed.

Lemma odd_rows_Ok (body : odd_state → result odd_state) (k : Z) :
  0 ≤ k →
  (∀ y s m st',
     body (y, s, m) = Ok st' →
     (luma_bytes_valid m s (2 * k) ∧ valid_rng m y (2 * k)) ∧
     ∃ m', st' = (y +ₚ 2 * k, s +ₚ 4 * k, m') ∧ dom m' = dom m) →
  ∀ (N : nat) y s m st',
    repeatM N body (y, s, m) = Ok st' →
    luma_bytes_valid m s (2 * (Z.of_nat N * k)) ∧
    valid_rng m y (2 * (Z.of_nat N * k)).
Proof.
  intros Hk Hbody. induction N as [|N IH]; intros y s m st'; simpl.
  - intros _. split; intros j Hj; lia.
  - intros (st1 & [(Vs & Vy) (m1 & -> & Hdom)]%Hbody & Hrun)%bind_Ok.
    apply IH in Hrun as (Vs' & Vy').
    apply (luma_bytes_valid_dom _ m) in Vs'; [|done].
    apply (valid_rng_dom _ m) in Vy'; [|done].
    assert (0 ≤ Z.of_nat N * k) by nia.
    split.
    + apply (luma_bytes_valid_app m s (2 * k) (2 * (Z.of_nat N * k)));
        [lia|done| |lia].
      by replace (2 * (2 * k)) with (4 * k) by lia.
    + apply (valid_rng_app m y (2 * k) (2 * (Z.of_nat N * k))); [lia|done..|lia].
Qed.

Lemma unpack_even_Ok (t : target) (y u v s : ptr) (stride : Z) (m m' : mem) :
  0 ≤ stride ≤ INT_MAX → stride mod block_bytes t = 0 →
  unpack_even t y u v s stride m = Ok m' →
  even_valid y u v s (stride / 4) m.
Proof.
  intros Hstride Hmod. unfold unpack_even, INT_MAX in *.
  intros (st & Hrun & _)%bind_Ok. destruct t; simpl in Hmod.
  - rewrite (for_loop_repeat _ stride 4 ltac:(lia) (Z.to_nat (stride / 4)))
      in Hrun by (unfold INT_MIN, INT_MAX; zlia).
    apply (even_rows_Ok unpack_even_body 1) in Hrun; [|lia|].
    + by replace (Z.of_nat (Z.to_nat (stride / 4)) * 1) with (stride / 4)
        in Hrun by zlia.
    + intros. by apply unpack_even_body_Ok.
  - rewrite (for_loop_repeat _ stride 32 ltac:(lia) (Z.to_nat (stride / 32)))
      in Hrun by (unfold INT_MIN, INT_MAX; zlia).
    apply (even_rows_Ok unpack_even_body_neon 8) in Hrun; [|lia|].
    + by replace (Z.of_nat (Z.to_nat (stride / 32)) * 8) with (stride / 4)
        in Hrun by zlia.
    + intros. by apply unpack_even_body_neon_Ok.
Qed.

Lemma unpack_odd_Ok (t : target) (y s : ptr) (stride : Z) (m m' : mem) :
  0 ≤ stride ≤ INT_MAX → stride mod block_bytes t = 0 →
  unpack_odd t y s stride m = Ok m' →
  luma_bytes_valid m s (2 * (stride / 4)) ∧ valid_rng m y (2 * (stride / 4)).
Proof.
  intros Hstride Hmod. unfold unpack_odd, INT_MAX in *.
  intros (st & Hrun & _)%bind_Ok. destruct t; simpl in Hmod.
  - rewrite (for_loop_repeat _ stride 4 ltac:(lia) (Z.to_nat (stride / 4)))
      in Hrun by (unfold INT_MIN, INT_MAX; zlia).
    apply (odd_rows_Ok unpack_odd_body 1) in Hrun; [|lia|].
    + by replace (Z.of_nat (Z.to_nat (stride / 4)) * 1) with (stride / 4)
        in Hrun by zlia.
    + intros. by apply unpack_odd_body_Ok.
  - rewrite (for_loop_repeat _ stride 32 ltac:(lia) (Z.to_nat (stride / 32)))
      in Hrun by (unfold INT_MIN, INT_MAX; zlia).
    apply (odd_rows_Ok unpack_odd_body_neon 8) in Hrun; [|lia|].
    + by replace (Z.of_nat (Z.to_nat (stride / 32)) * 8) with (stride / 4)
        in Hrun by zlia.
    + intros y' s' m0 st' [[Vs Vy] Hst]%unpack_odd_body_neon_Ok.
      split; [|done]. split; [|done]. by apply valid_rng_luma.
Qed.

Lemma frame_pairs_Ok (t : target) (stride : Z) :
  0 ≤ stride ≤ INT_MAX → stride mod block_bytes t = 0 →
  ∀ (P : nat) y u v s m st',
    repeatM P (row_pair t stride) (y, u, v, s, m) = Ok st' →
    valid_rng m y (2 * Z.of_nat P * (2 * (stride / 4))) ∧
    valid_rng m u (Z.of_nat P * (stride / 4)) ∧
    valid_rng m v (Z.of_nat P * (stride / 4)) ∧
    frame_read s stride (2 * Z.of_nat P) m.
Proof.
  intros Hstride Hmod.
  assert (stride mod 4 = 0) as Hmod4 by (destruct t; simpl in Hmod; zlia).
  assert (stride ÷ 2 = 2 * (stride / 4) ∧ stride ÷ 4 = stride / 4 ∧
          stride = 4 * (stride / 4) ∧ 0 ≤ stride / 4) as (Hq2 & Hq4 & Hs4 & Hn)
    by zlia.
  induction P as [|P IH]; intros y u v s m st'; simpl repeatM.
  - intros _. repeat split; intros j; intros; lia.
  - intros (st1 & Hpair & Hrun)%bind_Ok. unfold row_pair in Hpair.
    apply bind_Ok in Hpair as (m1 & Heven & Hpair).
    apply bind_Ok in Hpair as (m2 & Hodd & [= <-]).
    pose proof (unpack_even_Ok _ _ _ _ _ _ _ _ Hstride Hmod Heven)
      as (Vs & Vy & Vu & Vv).
    destruct (unpack_even_outputs _ _ _ _ _ _ _ _ Heven) as [D1 _].
    pose proof (unpack_odd_Ok _ _ _ _ _ _ Hstride Hmod Hodd) as (Vs1 & Vy1).
    destruct (unpack_odd_outputs t (y +ₚ stride ÷ 2) u v _ _ _ _ _
                eq_refl Hodd) as [D2 _].
    apply IH in Hrun as (Vy2 & Vu2 & Vv2 & Vs2).
    apply (luma_bytes_valid_dom _ m) in Vs1; [|done].
    apply (valid_rng_dom _ m) in Vy1, Vy2, Vu2, Vv2; [|congruence..].
    rewrite Hq2, Hq4 in *. set (n := stride / 4) in *.
    assert (0 ≤ Z.of_nat P * n) by nia.
    split_and!.
    + apply (valid_rng_app m y (2 * n) (2 * n + 2 * Z.of_nat P * (2 * n)));
        [lia|done| |lia].
      apply (valid_rng_app m _ (2 * n) (2 * Z.of_nat P * (2 * n)));
        [lia|done|done|lia].
    + apply (valid_rng_app m u n (Z.of_nat P * n)); [lia|done|done|lia].
    + apply (valid_rng_app m v n (Z.of_nat P * n)); [lia|done|done|lia].
    + intros r i Hr Hi Hpar.
      destruct (decide (r = 0)) as [->|Hr0].
      { replace (0 * stride + i) with i by lia. apply Vs. lia. }
      destruct (decide (r = 1)) as [->|Hr1].
      { assert (i = 2 * (i / 2)) as Hi2 by zlia.
        specialize (Vs1 (i / 2) ltac:(lia)). rewrite shift_shift in Vs1.
        by replace (1 * stride + i) with (stride + 2 * (i / 2)) by lia. }
      assert (is_Some (m2 !! (s +ₚ stride +ₚ stride
                               +ₚ ((r - 2) * stride + i)))) as Hsome.
      { apply Vs2; [lia|done|]. destruct Hpar as [Hpar|Hpar]; [left|by right].
        zlia. }
      apply (dom_is_Some m2 m) in Hsome; [|congruence].
      rewrite !shift_shift in Hsome.
      by replace (r * stride + i)
        with (stride + (stride + ((r - 2) * stride + i))) by lia.
Qed.

(** X10.  A call that returns has found its buffers mapped: for a valid
    geometry, when the converter returns, every byte of the three planes
    of the frame and every source byte the two builds read, the even rows
    and the even offsets of the odd rows, is mapped.  A plane or a source
    too short for the frame makes the call fail. *)
Theorem converter_returns_only_in_bounds (t : target) (y u v s : ptr)
    (stride height : Z) (m m' : mem) :
  0 < stride ≤ INT_MAX → stride mod block_bytes t = 0 →
  0 < height ≤ INT_MAX → height mod 2 = 0 →
  yuyv_to_yuv420p t y u v s stride height m = Ok m' →
  valid_rng m y (height * (stride / 2)) ∧
  valid_rng m u (height / 2 * (stride / 4)) ∧
  valid_rng m v (height / 2 * (stride / 4)) ∧
  frame_read s stride height m.
Proof.
  intros Hstride Hmod Hheight Hmod2.
  assert (stride mod 4 = 0) as Hmod4 by (destruct t; simpl in Hmod; zlia).
  destruct (geometry_sizes stride height) as (_ & Hy & _ & Hn & HP);
    [lia|done|lia|done|].
  unfold yuyv_to_yuv420p, INT_MAX in *.
  rewrite (for_loop_repeat _ height 2 ltac:(lia) (Z.to_nat (height / 2)))
    by (unfold INT_MIN, INT_MAX; zlia).
  intros (st & Hrun & _)%bind_Ok.
  apply (frame_pairs_Ok t stride) in Hrun; [|unfold INT_MAX; lia|done].
  replace (Z.of_nat (Z.to_nat (height / 2))) with (height / 2) in Hrun by lia.
  replace (2 * (height / 2)) with height in Hrun at 2 by zlia.
  by rewrite Hy.
Qed.

(** ** The one failure of a valid geometry *)

Lemma bind_oob {A B : Type} (r : result A) (k : A → result B) :
  only_oob r → (∀ a, only_oob (k a)) → only_oob (r ≫= k).
Proof.
  unfold only_oob. intros Hr Hk e.
  destruct r as [a|e']; simpl; [apply Hk|].
  intros [= <-]. by apply Hr.
Qed.

Lemma load_oob (m : mem) (p : ptr) : only_oob (load m p).
Proof. intros e. unfold load. case_match; congruence. Qed.

Lemma store_oob (m : mem) (p : ptr) (b : Z) : only_oob (store m p b).
Proof. intros e. unfold store. case_match; congruence. Qed.

Lemma ok_oob {A : Type} (a : A) : only_oob (Ok a).
Proof. intros e. done. Qed.

Lemma load_bytes_oob (m : mem) (n : nat) : ∀ p, only_oob (load_bytes m p n).
Proof.
  induction n as [|n IH]; intros p; simpl; [apply ok_oob|].
  apply bind_oob; [apply load_oob|]. intros b.
  apply bind_oob; [apply IH|]. intros l. apply ok_oob.
Qed.

Lemma store_bytes_oob (l : list Z) : ∀ m p, only_oob (store_bytes m p l).
Proof.
  induction l as [|b l IH]; intros m p; simpl; [apply ok_oob|].
  apply bind_oob; [apply store_oob|]. intros m'. apply IH.
Qed.

Lemma repeatM_oob {S : Type} (body : S → result S) (n : nat) :
  (∀ s, only_oob (body s)) → ∀ s, only_oob (repeatM n body s).
Proof.
  intros Hbody. induction n as [|n IH]; intros s; simpl; [apply ok_oob|].
  apply bind_oob; [apply Hbody|apply IH].
Qed.

Ltac oob_steps :=
  repeat first
    [ apply bind_oob; [|intros ?]
    | apply load_oob | apply store_oob
    | apply load_bytes_oob | apply store_bytes_oob
    | apply ok_oob ].

Lemma unpack_even_oob (t : target) (y u v s : ptr) (stride : Z) (m : mem) :
  0 ≤ stride ≤ INT_MAX → stride mod block_bytes t = 0 →
  only_oob (unpack_even t y u v s stride m).
Proof.
  intros Hstride Hmod. unfold unpack_even, INT_MAX in *.
  apply bind_oob; [|intros; apply ok_oob]. destruct t; simpl in Hmod.
  - rewrite (for_loop_repeat _ stride 4 ltac:(lia) (Z.to_nat (stride / 4)))
      by (unfold INT_MIN, INT_MAX; zlia).
    apply repeatM_oob. intros [[[[y' u'] v'] s'] m'].
    unfold unpack_even_body. oob_steps.
  - rewrite (for_loop_repeat _ stride 32 ltac:(lia) (Z.to_nat (stride / 32)))
      by (unfold INT_MIN, INT_MAX; zlia).
    apply repeatM_oob. intros [[[[y' u'] v'] s'] m'].
    unfold unpack_even_body_neon, vld2q_u8, vst1q_u8, vst1_u8. oob_steps.
Qed.

Lemma unpack_odd_oob (t : target) (y s : ptr) (stride : Z) (m : mem) :
  0 ≤ stride ≤ INT_MAX → stride mod block_bytes t = 0 →
  only_oob (unpack_odd t y s stride m).
Proof.
  intros Hstride Hmod. unfold unpack_odd, INT_MAX in *.
  apply bind_oob; [|intros; apply ok_oob]. destruct t; simpl in Hmod.
  - rewrite (for_loop_repeat _ stride 4 ltac:(lia) (Z.to_nat (stride / 4)))
      by (unfold INT_MIN, INT_MAX; zlia).
    apply repeatM_oob. intros [[y' s'] m'].
    unfold unpack_odd_body. oob_steps.
  - rewrite (for_loop_repeat _ stride 32 ltac:(lia) (Z.to_nat (stride / 32)))
      by (unfold INT_MIN, INT_MAX; zlia).
    apply repeatM_oob. intros [[y' s'] m'].
    unfold unpack_odd_body_neon, vld2q_u8, vst1q_u8. oob_steps.
Qed.

(** X11.  With a valid geometry, a stride that is a multiple of the block
    of the build and an even height, no counter overflows: the one way a
    row unpacker or the converter fails is an access out of range. *)
Theorem valid_geometry_fails_out_of_range_only (t : target) (y u v s : ptr)
    (stride height : Z) (m : mem) :
  0 ≤ stride ≤ INT_MAX → stride mod block_bytes t = 0 →
  0 ≤ height ≤ INT_MAX → height mod 2 = 0 →
  only_oob (unpack_even t y u v s stride m) ∧
  only_oob (unpack_odd t y s stride m) ∧
  only_oob (yuyv_to_yuv420p t y u v s stride height m).
Proof.
  intros Hstride Hmod Hheight Hmod2.
  split; [by apply unpack_even_oob|]. split; [by apply unpack_odd_oob|].
  unfold yuyv_to_yuv420p, INT_MAX in *.
  rewrite (for_loop_repeat _ height 2 ltac:(lia) (Z.to_nat (height / 2)))
    by (unfold INT_MIN, INT_MAX; zlia).
  apply bind_oob; [|intros; apply ok_oob]. apply repeatM_oob.
  intros [[[[y' u'] v'] s'] m']. unfold row_pair.
  apply bind_oob; [by apply unpack_even_oob|]. intros m1.
  apply bind_oob; [by apply unpack_odd_oob|]. intros m2. apply ok_oob.
Qed.

(** ** The bytes an odd row is read at *)

Lemma unpack_odd_body_luma (y s : ptr) (m : mem) :
  luma_bytes_valid m s 2 → valid_rng m y 2 →
  ∃ m', unpack_odd_body (y, s, m) = Ok (y +ₚ 2, s +ₚ 4, m') ∧
        dom m' = dom m ∧
        (odd_sep y s 1 → xfer (odd_map y s 1) m m').
Proof.
  intros Hs Hy. unfold unpack_odd_body.
  destruct (copy_step m y s) as (b0 & m1 & Hl & Hst & Hd1 & X1);
    [| |rewrite Hl; simpl; rewrite Hst; simpl; clear Hl Hst].
  { specialize (Hs 0 ltac:(lia)). by rewrite shift_0 in Hs. }
  { eapply (valid_at _ y _ 0); eauto; [lia|by rewrite shift_0]. }
  destruct (copy_step m1 (y +ₚ 1) (s +ₚ 1 +ₚ 1))
    as (b1 & m2 & Hl & Hst & Hd2 & X2);
    [| |rewrite Hl; simpl; rewrite Hst; simpl; clear Hl Hst].
  { apply (dom_is_Some m); [congruence|]. rewrite shift_shift.
    apply (Hs 1). lia. }
  { apply (dom_is_Some m); [congruence|]. apply Hy. lia. }
  exists m2. rewrite !shift_shift. split; [done|].
  split; [congruence|]. intros Hsep.
  pose proof (xfer_seq _ _ _ _ _ X1 X2) as X.
  eapply xfer_iff; [|apply X; intros; ptr_lia].
  intros q p. unfold odd_map, luma_map. split.
  - intros [[-> ->]|[-> ->]].
    + exists 0. rewrite !shift_0. split; [lia|done].
    + exists 1. rewrite shift_shift. split; [lia|done].
  - intros (j & Hj & -> & ->).
    assert (j = 0 ∨ j = 1) as [->| ->] by lia.
    + left. by rewrite !shift_0.
    + right. by rewrite shift_shift.
Qed.

Lemma odd_rows_iter_luma (N : nat) (y s : ptr) (m : mem) :
  luma_bytes_valid m s (2 * Z.of_nat N) → valid_rng m y (2 * Z.of_nat N) →
  ∃ m', repeatM N unpack_odd_body (y, s, m)
        = Ok (y +ₚ 2 * Z.of_nat N, s +ₚ 4 * Z.of_nat N, m') ∧
        dom m' = dom m ∧
        (odd_sep y s (Z.of_nat N) → xfer (odd_map y s (Z.of_nat N)) m m').
Proof.
  intros Hs Hy.
  destruct (repeatM_inv unpack_odd_body
    (λ j st, ∃ m', st = (y +ₚ 2 * j, s +ₚ 4 * j, m') ∧
                   dom m' = dom m ∧
                   (odd_sep y s (Z.of_nat N) → xfer (odd_map y s j) m m'))
    N 0 (y, s, m)) as (st & Hrun & m' & -> & Hdom & X).
  - exists m. replace (4 * 0) with 0 by lia. replace (2 * 0) with 0 by lia.
    rewrite !shift_0. split; [done|]. split; [done|]. intros _.
    apply xfer_refl. intros q p (j & Hj & _). lia.
  - intros j st Hj (m1 & -> & Hdom1 & X1).
    destruct (unpack_odd_body_luma (y +ₚ 2 * j) (s +ₚ 4 * j) m1)
      as (m2 & -> & Hdom2 & X2).
    { intros i Hi. apply (dom_is_Some m); [done|]. rewrite shift_shift.
      replace (4 * j + 2 * i) with (2 * (2 * j + i)) by lia. apply Hs. lia. }
    { apply (valid_rng_dom m); [done|].
      eapply valid_rng_sub; [eassumption|lia..]. }
    exists (y +ₚ 2 * (j + 1), s +ₚ 4 * (j + 1), m2). split.
    { rewrite !shift_shift. f_equal. apply odd_state_eq; lia. }
    exists m2. split; [done|]. split; [congruence|]. intros Hsep.
    assert (odd_sep y s (j + 1)) as Hsep'
      by (eapply odd_sep_mono; [eassumption|lia]).
    eapply odd_xfer_app; [lia|lia|done|by apply X1|].
    apply X2. apply odd_sep_shift; [done|lia|lia].
  - exists m'. replace (0 + Z.of_nat N) with (Z.of_nat N) in * by lia. done.
Qed.

(** X12.  The odd-row unpacker of the portable build steps over the chroma
    bytes of its row and does not read them: it returns, the luma bytes
    copied, when the bytes at the even offsets of the row and the luma row
    are mapped, whether the chroma bytes are or not.  (The NEON build loads
    all 32 bytes of a block, example [neon_odd_row_loads_chroma].) *)
Theorem portable_odd_row_skips_chroma (y s : ptr) (stride : Z) (m : mem) :
  0 < stride ≤ INT_MAX → stride mod 4 = 0 →
  luma_bytes_valid m s (stride / 2) → valid_rng m y (stride / 2) →
  odd_sep y s (stride / 4) →
  ∃ m', unpack_odd Portable y s stride m = Ok m' ∧
        odd_row_unpacked y s stride m m'.
Proof.
  intros Hstride Hmod Hs Hy Hsep. unfold unpack_odd, INT_MAX in *.
  rewrite (for_loop_repeat _ stride 4 ltac:(lia) (Z.to_nat (stride / 4)))
    by (unfold INT_MIN, INT_MAX; zlia).
  assert (stride / 2 = 2 * Z.of_nat (Z.to_nat (stride / 4)) ∧
          Z.of_nat (Z.to_nat (stride / 4)) = stride / 4) as [Hhalf HN]
    by zlia.
  rewrite Hhalf in Hs, Hy.
  destruct (odd_rows_iter_luma _ y s m Hs Hy) as (m' & -> & Hdom & X).
  rewrite HN in X. simpl. exists m'. split; [done|].
  apply odd_xfer_unpacked; [lia|done|by apply X].
Qed.

Example neon_odd_row_loads_chroma :
  unpack_odd ArmNeon Y YUYV 32
    (delete (YUYV +ₚ 31) wide_mem) = Err OutOfBounds ∧
  (m' ← unpack_odd Portable Y YUYV 32 (delete (YUYV +ₚ 31) wide_mem);
   load_bytes m' Y 4) = Ok [0; 2; 4; 6].
Proof. split; vm_compute; reflexivity. Qed.

(** ** What the rows leave alone *)

(** X13.  Each row unpacker on its own, for every input on which it
    returns: the even-row unpacker has changed no byte outside the objects
    of its [y], [u] and [v] arguments, and the odd-row unpacker none outside
    the object of its [y] argument, whether the other unpacker returns on
    that input or not. *)
Theorem unpackers_write_outputs_only (t : target) (y u v s : ptr)
    (stride : Z) (m : mem) :
  (∀ m1, unpack_even t y u v s stride m = Ok m1 → outputs_only y u v m m1) ∧
  (∀ m2, unpack_odd t y s stride m = Ok m2 → outputs_only y y y m m2).
Proof.
  split.
  - intros m1 Heven. by eapply unpack_even_outputs.
  - intros m2 Hodd. by eapply unpack_odd_outputs.
Qed.

(** X14.  The loops of the file end, for every input: a run of a row
    unpacker or of the converter ends in a result, in an access out of range
    or in an overflow of the counter, and never because the iterations the
    embedding allows, one per unit of the bound, are used up. *)
Theorem loops_end (t : target) (y u v s : ptr) (stride height : Z)
    (m : mem) :
  unpack_even t y u v s stride m ≠ Err OutOfFuel ∧
  unpack_odd t y s stride m ≠ Err OutOfFuel ∧
  yuyv_to_yuv420p t y u v s stride height m ≠ Err OutOfFuel.
Proof.
  split; [apply unpack_even_fuel|]. split; [apply unpack_odd_fuel|].
  apply convert_fuel.
Qed.

(** ** The further theorems at small frames *)

(** A property of the first [n] offsets that a computation settles. *)
Lemma range_decide (P : Z → Prop) `{!∀ j, Decision (P j)} (n : nat) :
  bool_decide (Forall P (seqZ 0 (Z.of_nat n))) = true →
  ∀ j, 0 ≤ j < Z.of_nat n → P j.
Proof.
  intros Hall%bool_decide_eq_true j Hj.
  eapply Forall_forall; [exact Hall|]. apply elem_of_seqZ. lia.
Qed.

Lemma geometry_8_2 :
  0 < 8 ≤ INT_MAX ∧ 8 mod block_bytes Portable = 0 ∧
  0 < 2 ≤ INT_MAX ∧ 2 mod 2 = 0.
Proof. unfold INT_MAX. split_and!; (reflexivity || lia). Qed.

Lemma converter_samples_luma_witness :
  ∃ m', yuyv_to_yuv420p Portable Y U V YUYV 8 2 minimal_mem = Ok m' ∧
        luma_sampled Y YUYV 8 2 minimal_mem m'.
Proof.
  destruct geometry_8_2 as (H1 & H2 & H3 & H4).
  apply (converter_samples_luma Portable Y U V YUYV 8 2 minimal_mem
           H1 H2 H3 H4).
  - exact (minimal_mem_valid 0 0 0 0).
  - apply frame_mem_sep.
Defined.

Lemma planes_depend_on_source_only_witness :
  ∃ m1' m2',
    yuyv_to_yuv420p Portable Y U V YUYV 8 2 minimal_mem = Ok m1' ∧
    yuyv_to_yuv420p Portable Y U V YUYV 8 2
      (frame_mem (replicate 8 7) [9; 9] [5; 5] (minimal_source 0 0 0 0))
    = Ok m2' ∧
    same_planes Y U V 8 2 m1' m2'.
Proof.
  destruct geometry_8_2 as (H1 & H2 & H3 & H4).
  apply (planes_depend_on_source_only Portable Y U V YUYV 8 2 minimal_mem
           (frame_mem (replicate 8 7) [9; 9] [5; 5] (minimal_source 0 0 0 0))
           H1 H2 H3 H4).
  - exact (minimal_mem_valid 0 0 0 0).
  - apply frame_mem_valid; by vm_compute.
  - apply frame_mem_sep.
  - unfold same_rng. apply (range_decide _ 16). by vm_compute.
Defined.

Lemma converter_idempotent_witness :
  ∃ m', yuyv_to_yuv420p Portable Y U V YUYV 8 2 minimal_mem = Ok m' ∧
        yuyv_to_yuv420p Portable Y U V YUYV 8 2 m' = Ok m'.
Proof.
  destruct geometry_8_2 as (H1 & H2 & H3 & H4).
  apply (converter_idempotent Portable Y U V YUYV 8 2 minimal_mem
           H1 H2 H3 H4).
  - exact (minimal_mem_valid 0 0 0 0).
  - apply frame_mem_sep.
Defined.

Lemma solid_colour_planes_witness :
  ∃ m', yuyv_to_yuv420p Portable Y U V YUYV 8 2 solid_mem = Ok m' ∧
        all_bytes Y (2 * (8 / 2)) 16 m' ∧
        all_bytes U (2 / 2 * (8 / 4)) 128 m' ∧
        all_bytes V (2 / 2 * (8 / 4)) 64 m'.
Proof.
  destruct geometry_8_2 as (H1 & H2 & H3 & H4).
  apply (solid_colour_planes Portable Y U V YUYV 8 2 16 128 64 solid_mem
           H1 H2 H3 H4).
  - apply frame_mem_valid; by vm_compute.
  - apply frame_mem_sep.
  - intros r g Hr Hg.
    assert ((r = 0 ∨ r = 1) ∧ (g = 0 ∨ g = 1)) as [[->| ->] [->| ->]]
      by (change (8 / 4) with 2 in Hg; lia);
      by vm_compute.
Defined.

Lemma converter_in_bands_witness :
  yuyv_to_yuv420p Portable Y U V YUYV 8 (2 + 2) tall_mem
  = (m1 ← yuyv_to_yuv420p Portable Y U V YUYV 8 2 tall_mem;
     yuyv_to_yuv420p Portable (Y +ₚ 2 * (8 ÷ 2)) (U +ₚ 2 / 2 * (8 ÷ 4))
       (V +ₚ 2 / 2 * (8 ÷ 4)) (YUYV +ₚ 2 * 8) 8 2 m1).
Proof.
  apply (converter_in_bands Portable Y U V YUYV 8 2 2 tall_mem).
  - lia.
  - reflexivity.
  - lia.
  - unfold INT_MAX. lia.
Defined.

Lemma converter_of_nothing_witness :
  yuyv_to_yuv420p Portable Y U V YUYV 8 0 minimal_mem = Ok minimal_mem.
Proof.
  apply (converter_of_nothing Portable Y U V YUYV 8 0 minimal_mem).
  left. lia.
Defined.

Lemma converter_at_int_max_witness :
  ∃ e, yuyv_to_yuv420p Portable Y U V YUYV 8 INT_MAX minimal_mem = Err e ∧
       (e = OutOfBounds ∨ e = SignedOverflow).
Proof.
  apply (converter_at_int_max Portable Y U V YUYV 8 INT_MAX minimal_mem).
  lia.
Defined.

Lemma unpackers_at_int_max_witness :
  (∃ e, unpack_even Portable Y U V YUYV INT_MAX minimal_mem = Err e ∧
        (e = OutOfBounds ∨ e = SignedOverflow)) ∧
  (∃ e, unpack_odd Portable Y YUYV INT_MAX minimal_mem = Err e ∧
        (e = OutOfBounds ∨ e = SignedOverflow)).
Proof.
  apply (unpackers_at_int_max Portable Y U V YUYV INT_MAX minimal_mem).
  simpl. lia.
Defined.

Lemma unpackers_round_stride_up_witness :
  unpack_even ArmNeon Y U V YUYV 8 wide_mem
  = unpack_even ArmNeon Y U V YUYV (round_up (block_bytes ArmNeon) 8)
      wide_mem ∧
  unpack_odd ArmNeon Y YUYV 8 wide_mem
  = unpack_odd ArmNeon Y YUYV (round_up (block_bytes ArmNeon) 8) wide_mem.
Proof.
  apply (unpackers_round_stride_up ArmNeon Y U V YUYV 8 wide_mem).
  - lia.
  - by vm_compute.
Defined.

Lemma converter_returns_only_in_bounds_witness :
  valid_rng minimal_mem Y (2 * (8 / 2)) ∧
  valid_rng minimal_mem U (2 / 2 * (8 / 4)) ∧
  valid_rng minimal_mem V (2 / 2 * (8 / 4)) ∧
  frame_read YUYV 8 2 minimal_mem.
Proof.
  destruct geometry_8_2 as (H1 & H2 & H3 & H4).
  destruct (convert_total Portable Y U V YUYV 8 2 minimal_mem)
    as (m' & Hrun & _); [unfold INT_MAX; lia|done|unfold INT_MAX; lia|done| |].
  - exact (minimal_mem_valid 0 0 0 0).
  - exact (converter_returns_only_in_bounds Portable Y U V YUYV 8 2
             minimal_mem m' H1 H2 H3 H4 Hrun).
Defined.

Lemma valid_geometry_fails_out_of_range_only_witness :
  only_oob (unpack_even Portable Y U V YUYV 8 minimal_mem) ∧
  only_oob (unpack_odd Portable Y YUYV 8 minimal_mem) ∧
  only_oob (yuyv_to_yuv420p Portable Y U V YUYV 8 2 minimal_mem).
Proof.
  apply (valid_geometry_fails_out_of_range_only Portable Y U V YUYV 8 2
           minimal_mem).
  - unfold INT_MAX. lia.
  - reflexivity.
  - unfold INT_MAX. lia.
  - reflexivity.
Defined.

Lemma portable_odd_row_skips_chroma_witness :
  ∃ m', unpack_odd Portable Y YUYV 8 sparse_mem = Ok m' ∧
        odd_row_unpacked Y YUYV 8 sparse_mem m'.
Proof.
  apply (portable_odd_row_skips_chroma Y YUYV 8 sparse_mem).
  - unfold INT_MAX. lia.
  - reflexivity.
  - unfold luma_bytes_valid. apply (range_decide _ 4). by vm_compute.
  - unfold valid_rng. apply (range_decide _ 4). by vm_compute.
  - by left.
Defined.

Lemma unpackers_write_outputs_only_witness :
  (∃ m1, unpack_even Portable Y U V YUYV 8 minimal_mem = Ok m1 ∧
         outputs_only Y U V minimal_mem m1) ∧
  unpack_even Portable Y U V YUYV 8 sparse_mem = Err OutOfBounds ∧
  (∃ m2, unpack_odd Portable Y YUYV 8 sparse_mem = Ok m2 ∧
         outputs_only Y Y Y sparse_mem m2).
Proof.
  split; [|split; [by vm_compute|]].
  - destruct (unpack_even_total Portable Y U V YUYV 8 minimal_mem)
      as (m1 & H1 & _); [unfold INT_MAX; lia|reflexivity| |].
    { apply frame_mem_even_valid; by vm_compute. }
    exists m1. split; [exact H1|].
    exact (proj1 (unpackers_write_outputs_only Portable Y U V YUYV 8
                    minimal_mem) m1 H1).
  - destruct (unpack_odd Portable Y YUYV 8 sparse_mem) as [m2|e] eqn:H2;
      [|by vm_compute in H2].
    exists m2. split; [reflexivity|].
    exact (proj2 (unpackers_write_outputs_only Portable Y U V YUYV 8
                    sparse_mem) m2 H2).
Defined.
